(** * llm-pipeline-visualizer: the sampler and the canvas camera, verified

    A shallow embedding of [js/pipeline.js] (temperature / top-k / top-p
    sampling over the cached logits) and of the camera, scene builder,
    partial update and hover hit test of [js/viz.js], with the helpers
    of [js/utils.js] they call.

    - Part I gives the JavaScript number primitives the code uses, as an
      interface with two implementations: exact rationals and IEEE
      binary64 floats.
    - Part II embeds [pipeline.js]; Part III embeds [viz.js], and then
      [utils.js], [config.js], [generateEmbedding] and the travelling
      token.
    - Part IV names what the statements speak of; Part V proves them. *)

From Stdlib Require Import QArith Qminmax Qabs Floats ZArith Lia Lqa String.
From Stdlib Require Import Sorted Permutation DecimalString.
From stdpp Require Import base option list strings gmap sorting.

(* ===================================================================== *)
(** * Part I: JavaScript numbers                                          *)
(* ===================================================================== *)

(** The operations on numbers that [computePredictions] performs.  The
    sampler is written once over this interface, so that what holds of
    its control flow holds whatever the arithmetic rounds to. *)
Class Num (A : Type) := {
  num_zero : A;                    (* the literal [0] *)
  num_min_temperature : A;         (* the literal [0.01] *)
  num_add : A -> A -> A;           (* [a + b] *)
  num_sub : A -> A -> A;           (* [a - b] *)
  num_div : A -> A -> A;           (* [a / b] *)
  num_max : A -> A -> A;           (* [Math.max(a, b)] *)
  num_le : A -> A -> bool;         (* [a <= b]; [b >= a] is the same test *)
  num_lt : A -> A -> bool;         (* [a < b] *)
  Math_exp : A -> A;               (* [Math.exp] *)
  to_float32 : A -> A;             (* the value read back from a [Float32Array] slot *)
  truthy : A -> bool               (* ToBoolean, as used by [x || 0] *)
}.

(** [x || 0] on a number. *)
Definition or_zero {A} `{Num A} (x : A) : A := if truthy x then x else num_zero.

(** ** Exact arithmetic: rationals

    [Math.exp] is not rational-valued; the instance takes the function
    as an argument, and theorems that need it assume it positive. *)
Module ExactNum.

Definition Qlt_bool (a b : Q) : bool := negb (Qle_bool b a).

Definition Qmax_bool (a b : Q) : Q := if Qle_bool a b then b else a.

Definition instance (exp round32 : Q -> Q) : Num Q := {|
  num_zero := 0%Q;
  num_min_temperature := (1 # 100)%Q;
  num_add := Qplus;
  num_sub := Qminus;
  num_div := Qdiv;
  num_max := Qmax_bool;
  num_le := Qle_bool;
  num_lt := Qlt_bool;
  Math_exp := exp;
  to_float32 := round32;
  truthy := fun x => negb (Qeq_bool x 0)
|}.

End ExactNum.

(** ** IEEE binary64: the numbers a JavaScript engine computes with *)
Module Float64.

Open Scope float_scope.

(** [(int) v] of C: truncation toward zero. *)
Definition trunc_to_Z (v : float) : Z :=
  match Prim2SF v with
  | S754_finite s m e =>
      let a := if (0 <=? e)%Z then (Z.pos m * 2 ^ e)%Z
               else Z.shiftr (Z.pos m) (- e) in
      if s then (- a)%Z else a
  | _ => 0%Z
  end.

(** Rounding to binary32 (nearest, ties to even) and back: what a
    store into a [Float32Array] followed by a load yields. *)
Definition fround (x : float) : float :=
  match Prim2SF x with
  | S754_finite s m e =>
      SF2Prim (binary_normalize 24 128 (if s then Z.neg m else Z.pos m) e s)
  | _ => x
  end.

Definition o_threshold := 0x1.62e42fefa39efp+9.
Definition u_threshold := -0x1.74910d52d3051p+9.
Definition ln2HI := 0x1.62e42feep-1.
Definition ln2LO := 0x1.a39ef35793c76p-33.
Definition invln2 := 0x1.71547652b82fep+0.
Definition P1 := 0x1.555555555553ep-3.
Definition P2 := -0x1.6c16c16bebd93p-9.
Definition P3 := 0x1.1566aaf25de2cp-14.
Definition P4 := -0x1.bbd41c5d26bf1p-20.
Definition P5 := 0x1.6376972bea4d0p-25.
Definition twom1000 := 0x1p-1000.

(** [y * 2^k], the final scaling of the exponential. *)
Definition scale2 (y : float) (k : Z) : float :=
  if (-1021 <=? k)%Z then
    if (k =? 1024)%Z then y * 2 * 0x1p+1023 else y * Z.ldexp 1 k
  else y * Z.ldexp 1 (k + 1000) * twom1000.

(** [Math.exp], after the algorithm of fdlibm's [e_exp.c] that
    JavaScript engines ship: argument reduction [x = k ln2 + r],
    a rational approximation on [r], scaling by [2^k]. *)
Definition exp (x : float) : float :=
  if is_nan x then x + x
  else if is_infinity x then (if x <? 0 then 0 else x)
  else if o_threshold <? x then infinity
  else if x <? u_threshold then 0
  else
    let neg := x <? 0 in
    let ax := abs x in
    if ax <? 0x1p-28 then 1 + x
    else
      let '(hi, lo, k) :=
        if 0x1.62e43p-2 <=? ax then
          if ax <? 0x1.0a2b2p+0 then
            (if neg then x + ln2HI else x - ln2HI,
             if neg then - ln2LO else ln2LO,
             if neg then (-1)%Z else 1%Z)
          else
            let k := trunc_to_Z (invln2 * x + (if neg then -0.5 else 0.5)) in
            let t := of_uint63 (Uint63.of_Z (Z.abs k)) in
            let t := if (k <? 0)%Z then - t else t in
            (x - t * ln2HI, t * ln2LO, k)
        else (x, 0, 0%Z) in
      let r := if (k =? 0)%Z then x else hi - lo in
      let t := r * r in
      let c := r - t * (P1 + t * (P2 + t * (P3 + t * (P4 + t * P5)))) in
      if (k =? 0)%Z then 1 - ((r * c) / (c - 2) - r)
      else scale2 (1 - ((lo - (r * c) / (2 - c)) - hi)) k.

(** [Math.max] on two arguments: NaN is contagious and [+0] is larger
    than [-0]. *)
Definition max (a b : float) : float :=
  if is_nan a then a else if is_nan b then b
  else if a <? b then b
  else if is_zero a && is_zero b then a + b else a.

#[global] Instance instance : Num float := {|
  num_zero := 0;
  num_min_temperature := 0x1.47ae147ae147bp-7;
  num_add := PrimFloat.add;
  num_sub := PrimFloat.sub;
  num_div := PrimFloat.div;
  num_max := max;
  num_le := PrimFloat.leb;
  num_lt := PrimFloat.ltb;
  Math_exp := exp;
  to_float32 := fround;
  truthy := fun x => negb (is_nan x || is_zero x)
|}.

End Float64.

(* ===================================================================== *)
(** * Part II: [js/pipeline.js]                                           *)
(* ===================================================================== *)

(** Typed arrays live in a heap and are passed by reference: [logits]
  is the array [models.forward] returned, [lastLogits] keeps the same
  reference, and [scaled] is a second array allocated by every call. *)
Abbreviation loc := nat (only parsing).

Inductive exn : Type :=
| TypeError            (* a property read on [undefined] *)
| Error (msg : string) (* [throw new Error(msg)] *).

Inductive outcome (X : Type) : Type :=
| Ret (x : X)
| Throw (e : exn).
Arguments Ret {X} x.
Arguments Throw {X} e.

Module Pipeline.

Abbreviation heap A := (gmap loc (list A)).

Section WithNum.
Context {A : Type} `{Num A}.

(** [models.decodeToken], the external decoder. *)
Variable decodeToken : nat -> string.

(** [new Float32Array(n)]: a fresh reference to [n] zeros. *)
Definition new_Float32Array (n : nat) (h : heap A) : loc * heap A :=
  let l := fresh (dom h) in (l, <[l := replicate n num_zero]> h).

(** [arr.length], [arr[i]] and [arr[i] = v] on a typed array. *)
Definition arr_length (h : heap A) (l : loc) : nat :=
  match h !! l with Some a => length a | None => 0 end.

Definition arr_get (h : heap A) (l : loc) (i : nat) : option A :=
  h !! l ≫= fun a => a !! i.

Definition arr_set (h : heap A) (l : loc) (i : nat) (v : A) : heap A :=
  match h !! l with
  | Some a => <[l := <[i := to_float32 v]> a]> h
  | None => h
  end.

(** The objects pushed on [indexed]. *)
Record Item := { val : A; rawLogit : A; idx : nat }.

(** The objects of the returned array. *)
Record Prediction := {
  word : string;
  prob : A;
  logit : A;
  tokenId : nat;
  inNucleus : bool;
  isSampled : bool;
  nucleusProb : A
}.

Definition set_inNucleus (p : Prediction) : Prediction :=
  {| word := word p; prob := prob p; logit := logit p; tokenId := tokenId p;
     inNucleus := true; isSampled := isSampled p; nucleusProb := nucleusProb p |}.

Definition set_isSampled (p : Prediction) : Prediction :=
  {| word := word p; prob := prob p; logit := logit p; tokenId := tokenId p;
     inNucleus := inNucleus p; isSampled := true; nucleusProb := nucleusProb p |}.

Definition set_nucleusProb (v : A) (p : Prediction) : Prediction :=
  {| word := word p; prob := prob p; logit := logit p; tokenId := tokenId p;
     inNucleus := inNucleus p; isSampled := isSampled p; nucleusProb := v |}.

(** Step 1: [for (i...) scaled[i] = logits[i] / t]. *)
Definition scale_body (logits scaled : loc) (t : A) (h : heap A) (i : nat) : heap A :=
  match arr_get h logits i with
  | Some x => arr_set h scaled i (num_div x t)
  | None => h
  end.

Definition scale_loop (logits scaled : loc) (t : A) (h : heap A) : heap A :=
  fold_left (scale_body logits scaled t) (seq 0 (arr_length h logits)) h.

(** Step 2: [indexed.push({ val: scaled[i], rawLogit: logits[i], idx: i })]. *)
Definition push_body (h : heap A) (logits scaled : loc) (indexed : list Item) (i : nat)
  : list Item :=
  match arr_get h scaled i, arr_get h logits i with
  | Some v, Some r => indexed ++ [{| val := v; rawLogit := r; idx := i |}]
  | _, _ => indexed
  end.

Definition push_loop (h : heap A) (logits scaled : loc) : list Item :=
  fold_left (push_body h logits scaled) (seq 0 (arr_length h scaled)) [].

(** The comparator [(a, b) => b.val - a.val]. *)
Definition compare_items (a b : Item) : A := num_sub (val b) (val a).

(** [Array.prototype.sort] is stable; with a comparator that is a
    consistent ordering every conforming engine returns the same
    array, the one insertion from the left builds: an element goes
    in front of the first one the comparator places after it. *)
Fixpoint sort_insert (x : Item) (sorted : list Item) : list Item :=
  match sorted with
  | [] => [x]
  | y :: rest =>
      if num_lt num_zero (compare_items y x) then x :: y :: rest
      else y :: sort_insert x rest
  end.

Definition sort (l : list Item) : list Item :=
  fold_left (fun acc x => sort_insert x acc) l [].

(** Step 3: softmax over the top-k items. *)
Definition exps (maxVal : A) (topItems : list Item) : list (Item * A) :=
  map (fun item => (item, Math_exp (num_sub (val item) maxVal))) topItems.

Definition sumExp (es : list (Item * A)) : A :=
  fold_left (fun sum e => num_add sum (snd e)) es num_zero.

Definition make_prediction (sum : A) (e : Item * A) : Prediction :=
  {| word := decodeToken (idx (fst e));
     prob := num_div (snd e) sum;
     logit := rawLogit (fst e);
     tokenId := idx (fst e);
     inNucleus := false;
     isSampled := false;
     nucleusProb := num_zero |}.

(** Step 4: the loop that marks the nucleus and breaks at the
    crossing element. *)
Fixpoint nucleus_loop (topP cumProb : A) (predictions : list Prediction)
  : list Prediction :=
  match predictions with
  | [] => []
  | pred :: rest =>
      let cumProb := num_add cumProb (prob pred) in
      set_inNucleus pred ::
        (if num_le topP cumProb then rest else nucleus_loop topP cumProb rest)
  end.

(** Step 5. [predictions.filter(p => p.inNucleus)] is a new array of
    the same objects: the nucleus is kept as the positions of its
    members in [predictions], and writes through it land there. *)
Definition nucleus_of (predictions : list Prediction) : list nat :=
  List.filter
    (fun i => match predictions !! i with Some p => inNucleus p | None => false end)
    (seq 0 (length predictions)).

Definition nucleusSum (predictions : list Prediction) (nucleus : list nat) : A :=
  fold_left
    (fun s i => match predictions !! i with
                | Some p => num_add s (prob p)
                | None => s
                end)
    nucleus num_zero.

Definition renormalize (sum : A) (predictions : list Prediction) (nucleus : list nat)
  : list Prediction :=
  fold_left
    (fun ps i => alter (fun p => set_nucleusProb (num_div (prob p) sum) p) i ps)
    nucleus predictions.

(** Step 6: the sampling loop, which breaks at the first member whose
    cumulative mass reaches the draw [r]. *)
Fixpoint sample_loop (r cum : A) (nucleus : list nat) (predictions : list Prediction)
  : list Prediction :=
  match nucleus with
  | [] => predictions
  | i :: rest =>
      match predictions !! i with
      | Some p =>
          let cum := num_add cum (nucleusProb p) in
          if num_le r cum then alter set_isSampled i predictions
          else sample_loop r cum rest predictions
      | None => predictions
      end
  end.

(** [nucleus.some(p => p.isSampled)]. *)
Definition some_sampled (predictions : list Prediction) (nucleus : list nat) : bool :=
  existsb
    (fun i => match predictions !! i with Some p => isSampled p | None => false end)
    nucleus.

(** [computePredictions(logits, temperature, topK, topP)]; [r] is the
    value [Math.random()] returns in step 6. *)
Definition computePredictions (logits : loc) (temperature : A) (topK : nat)
    (topP : A) (r : A) (h : heap A) : outcome (list Prediction) * heap A :=
  (* 1. Apply temperature *)
  let '(scaled, h) := new_Float32Array (arr_length h logits) h in
  let t := num_max temperature num_min_temperature in
  let h := scale_loop logits scaled t h in
  (* 2. Find top-k indices *)
  let indexed := sort (push_loop h logits scaled) in
  let topItems := take topK indexed in
  (* 3. Softmax over top-k *)
  match topItems with
  | [] => (Throw TypeError, h)          (* [topItems[0].val] on undefined *)
  | first :: _ =>
      let maxVal := val first in
      let es := exps maxVal topItems in
      let sum := sumExp es in
      let predictions := map (make_prediction sum) es in
      (* 4. Top-p nucleus filtering *)
      let predictions := nucleus_loop topP num_zero predictions in
      (* 5. Re-normalize nucleus probabilities *)
      let nucleus := nucleus_of predictions in
      let nsum := nucleusSum predictions nucleus in
      let predictions := renormalize nsum predictions nucleus in
      (* 6. Sample one token from nucleus *)
      let predictions := sample_loop r num_zero nucleus predictions in
      if some_sampled predictions nucleus then (Ret predictions, h)
      else
        match nucleus with
        | [] => (Throw TypeError, h)    (* [nucleus[0].isSampled] on undefined *)
        | i0 :: _ => (Ret (alter set_isSampled i0 predictions), h)
        end
  end.

(** *** Module state and the exported entry points *)

Record Token := { id : nat; text : string }.

(** An entry of [MODEL_CONFIGS]. *)
Record ModelConfig := {
  layers : nat;
  hidden_dim : N;
  ffn_dim : N;
  vocab_size : N;
  heads : N
}.

(** The values [config.get] returns for the three sampling keys. *)
Record Config := { temperature : A; topK : nat; topP : A }.

(** The [let] variables of the module, next to the heap of typed
    arrays; [None] is [null]. *)
Record State := {
  arrays : heap A;
  lastLogits : option loc;
  lastTokens : option (list Token);
  lastModelConfig : option ModelConfig;
  currentText : string
}.

Definition with_arrays (h : heap A) (s : State) : State :=
  {| arrays := h; lastLogits := lastLogits s; lastTokens := lastTokens s;
     lastModelConfig := lastModelConfig s; currentText := currentText s |}.

(** The external inference provider: [models.tokenize] and
    [models.forward] either throw or return; [forward] returns the
    contents of a [Float32Array] it has just allocated. *)
Variable Encoded : Type.
Variable tokenize : string -> outcome (list Token * Encoded).
Variable forward : Encoded -> outcome (list A).
Variable getConfig : option ModelConfig.

Record RunResult := {
  tokens : list Token;
  predictions : list Prediction;
  modelConfig : option ModelConfig
}.

(** [run(text)].  The [await] is taken as one step: nothing else
    runs between the call of [forward] and its result. *)
Definition run (text : string) (cfg : Config) (r : A) (s : State)
  : outcome RunResult * State :=
  let s := {| arrays := arrays s; lastLogits := lastLogits s;
              lastTokens := lastTokens s; lastModelConfig := getConfig;
              currentText := text |} in
  match tokenize text with
  | Throw e => (Throw e, s)
  | Ret (toks, encoded) =>
      let s := {| arrays := arrays s; lastLogits := lastLogits s;
                  lastTokens := Some toks; lastModelConfig := lastModelConfig s;
                  currentText := currentText s |} in
      match forward encoded with
      | Throw e => (Throw e, s)
      | Ret contents =>
          let logits := fresh (dom (arrays s)) in
          let s := {| arrays := <[logits := contents]> (arrays s);
                      lastLogits := Some logits;
                      lastTokens := lastTokens s;
                      lastModelConfig := lastModelConfig s;
                      currentText := currentText s |} in
          match computePredictions logits (temperature cfg) (topK cfg) (topP cfg) r
                  (arrays s) with
          | (Throw e, h) => (Throw e, with_arrays h s)
          | (Ret preds, h) =>
              (Ret {| tokens := toks; predictions := preds;
                      modelConfig := lastModelConfig s |},
               with_arrays h s)
          end
      end
  end.

(** [recomputePredictions()]: [None] is the [null] it returns when
    there are no cached logits. *)
Definition recomputePredictions (cfg : Config) (r : A) (s : State)
  : outcome (option (list Prediction)) * State :=
  match lastLogits s with
  | None => (Ret None, s)
  | Some logits =>
      match computePredictions logits (temperature cfg) (topK cfg) (topP cfg) r
              (arrays s) with
      | (Throw e, h) => (Throw e, with_arrays h s)
      | (Ret preds, h) => (Ret (Some preds), with_arrays h s)
      end
  end.

(** The object [generateMore] returns. *)
Record MoreResult := { newText : string; topWord : string }.

(** [generateMore()]: [None] is the [null] it returns without cached
    logits or tokens (an empty array is truthy).  The last [Throw] is
    the read of [sampled.word] when [predictions] is empty and both
    [find] and [predictions[0]] give [undefined]. *)
Definition generateMore (cfg : Config) (r : A) (s : State)
  : outcome (option MoreResult) * State :=
  match lastLogits s, lastTokens s with
  | Some logits, Some _ =>
      match computePredictions logits (temperature cfg) (topK cfg) (topP cfg) r
              (arrays s) with
      | (Throw e, h) => (Throw e, with_arrays h s)
      | (Ret predictions, h) =>
          (* predictions.find(p => p.isSampled) || predictions[0] *)
          let sampled :=
            match List.find isSampled predictions with
            | Some p => Some p
            | None => head predictions
            end in
          match sampled with
          | Some p =>
              (Ret (Some {| newText := currentText s ++ word p; topWord := word p |}),
               with_arrays h s)
          | None => (Throw TypeError, with_arrays h s)
          end
      end
  | _, _ => (Ret None, s)
  end.

Definition getLastTokens (s : State) : option (list Token) := lastTokens s.

Definition getCurrentText (s : State) : string := currentText s.

(** [hasResults()]: [lastLogits !== null]. *)
Definition hasResults (s : State) : bool :=
  match lastLogits s with Some _ => true | None => false end.

End WithNum.

Arguments Item : clear implicits.
Arguments Prediction : clear implicits.
Arguments Config : clear implicits.
Arguments State : clear implicits.
Arguments RunResult : clear implicits.

End Pipeline.

(* ===================================================================== *)
(** * Part III: [js/viz.js] and the helpers of [js/utils.js] it calls     *)
(* ===================================================================== *)

(** Scene and screen coordinates are rationals: the layout and the
  camera are built from integer constants with [+ - * /], [Math.min]
  and [Math.max].  A pan offset can also be NaN (see [resetView]),
  which is [None] below.  Drawing, the tooltip and the travel
  particle write none of the state modelled here and are left out. *)
Module Viz.

Open Scope Q_scope.

Definition Qnat (n : nat) : Q := inject_Z (Z.of_nat n).

(** Layout constants *)
Definition NODE_RADIUS : Q := 6.
Definition COLUMN_GAP : Q := 70.
Definition ROW_GAP : Q := 36.
Definition TOP_PADDING : Q := 50.
Definition LEFT_PADDING : Q := 100.
Definition MIN_LOGIT_GAP : Q := 22.

(** [utils.js]: [clamp(val, min, max)] is
    [Math.min(Math.max(val, min), max)]. *)
Definition clamp (val min max : Q) : Q := Qmin (Qmax val min) max.

Inductive NodeType : Type := token | embedding | transformer | logit.

Global Instance NodeType_eq_dec : EqDecision NodeType.
Proof. solve_decision. Defined.

(** The hover zone: a column type or ['sampling']. *)
Inductive Zone : Type := zone_of (t : NodeType) | sampling.

Definition COLORS_token : string := "#4ea8de".
Definition COLORS_embedding : string := "#34d399".
Definition COLORS_transformer : string := "#a78bfa".
Definition COLORS_logit : string := "#f472b6".

Section WithPayload.
Context {A : Type} `{Num A}.

(** [utils.js]: [fmt(num, decimals)] is [num.toFixed(decimals)];
    [String.prototype.trim]. *)
Variable toFixed : A -> nat -> string.
Variable trim : string -> string.

Definition fmt (num : A) (decimals : nat) : string := toFixed num decimals.

(** A node object; the fields a node type does not carry are [None]. *)
Record Node := {
  node_x : Q;
  node_y : Q;
  node_label : string;
  node_id : option nat;
  node_type : NodeType;
  node_index : nat;
  node_tokenText : option string;
  node_layer : option nat;
  node_word : option string;
  node_prob : option A;
  node_logit : option A
}.

Record Column := {
  col_label : string;
  col_color : string;
  col_nodes : list Node;
  col_type : NodeType
}.

Record OutputBar := {
  bar_x : Q;
  bar_y : Q;
  bar_word : string;
  bar_prob : A;
  bar_logit : A;
  bar_inNucleus : bool;
  bar_isSampled : bool;
  bar_nucleusProb : A;
  bar_isWinner : bool
}.

(** What the hover loop leaves in [found]: a copy of a bar tagged
    ['output'] ([{ ...bar, type: 'output' }]), or a node of a column,
    and then the node object itself ([found = node]); both with their
    position in [outputBars] or [columns].  The state keeps the value
    of the node and, in [hoveredInScene], whether the object is still
    one of [columns]: the writes [updatePredictions] makes to a node
    in place are seen through [hoveredNode] for as long as it is. *)
Inductive Found : Type :=
| FoundBar (i : nat) (bar : OutputBar)
| FoundNode (c i : nat) (node : Node).

Record State := {
  columns : list Column;
  outputBars : list OutputBar;
  animProgress : Q;
  animTarget : Q;
  isAnimating : bool;
  currentModelCfg : option Pipeline.ModelConfig;
  zoom : Q;
  panX : option Q;
  panY : option Q;
  isDragging : bool;
  dragStartX : Q;
  dragStartY : Q;
  panStartX : option Q;
  panStartY : option Q;
  hoveredNode : option Found;
  (* [hoveredNode] is a node object of [columns], not a copy of a bar
     nor a node of a scene that [build] has since replaced *)
  hoveredInScene : bool;
  currentHoverZone : option Zone;
  (* the canvas element *)
  clientWidth : Q;
  clientHeight : Q;
  rect_left : Q;
  rect_top : Q
}.

(** The module's initial bindings, for a canvas of the given place
    and size. *)
Definition initial (w h rl rt : Q) : State := {|
  columns := []; outputBars := [];
  animProgress := 0; animTarget := 1; isAnimating := false;
  currentModelCfg := None;
  zoom := 1; panX := Some 0; panY := Some 0;
  isDragging := false; dragStartX := 0; dragStartY := 0;
  panStartX := Some 0; panStartY := Some 0;
  hoveredNode := None; hoveredInScene := false; currentHoverZone := None;
  clientWidth := w; clientHeight := h; rect_left := rl; rect_top := rt
|}.

(** The camera: the three variables the transform
    [screen = scene * zoom + pan] reads. *)
Definition camera (s : State) : Q * option Q * option Q := (zoom s, panX s, panY s).

Definition with_camera (z : Q) (px py : option Q) (s : State) : State := {|
  columns := columns s; outputBars := outputBars s;
  animProgress := animProgress s; animTarget := animTarget s;
  isAnimating := isAnimating s; currentModelCfg := currentModelCfg s;
  zoom := z; panX := px; panY := py;
  isDragging := isDragging s; dragStartX := dragStartX s; dragStartY := dragStartY s;
  panStartX := panStartX s; panStartY := panStartY s;
  hoveredNode := hoveredNode s; hoveredInScene := hoveredInScene s;
  currentHoverZone := currentHoverZone s;
  clientWidth := clientWidth s; clientHeight := clientHeight s;
  rect_left := rect_left s; rect_top := rect_top s
|}.

(** ** [build] *)

Definition token_node (x startY : Q) (i : nat) (t : Pipeline.Token) : Node := {|
  node_x := x; node_y := startY + Qnat i * ROW_GAP;
  node_label := (if String.eqb (trim (Pipeline.text t)) EmptyString
                 then "⎵"%string else trim (Pipeline.text t));
  node_id := Some (Pipeline.id t);
  node_type := token; node_index := i;
  node_tokenText := None; node_layer := None;
  node_word := None; node_prob := None; node_logit := None
|}.

Definition embed_node (x startY : Q) (i : nat) (t : Pipeline.Token) : Node := {|
  node_x := x; node_y := startY + Qnat i * ROW_GAP;
  node_label := EmptyString;
  node_id := Some (Pipeline.id t);
  node_type := embedding; node_index := i;
  node_tokenText := Some (trim (Pipeline.text t)); node_layer := None;
  node_word := None; node_prob := None; node_logit := None
|}.

Definition layer_node (x startY : Q) (l i : nat) : Node := {|
  node_x := x; node_y := startY + Qnat i * ROW_GAP;
  node_label := EmptyString;
  node_id := None;
  node_type := transformer; node_index := i;
  node_tokenText := None; node_layer := Some l;
  node_word := None; node_prob := None; node_logit := None
|}.

Definition logit_node (x logitStartY actualLogitGap : Q) (i : nat)
    (p : Pipeline.Prediction A) : Node := {|
  node_x := x; node_y := logitStartY + Qnat i * actualLogitGap;
  node_label := fmt (Pipeline.logit p) 2;
  node_id := None;
  node_type := logit; node_index := i;
  node_tokenText := None; node_layer := None;
  node_word := Some (Pipeline.word p);
  node_prob := Some (Pipeline.prob p);
  node_logit := Some (Pipeline.logit p)
|}.

Definition output_bar (x logitStartY actualLogitGap : Q) (i : nat)
    (p : Pipeline.Prediction A) : OutputBar := {|
  bar_x := x; bar_y := logitStartY + Qnat i * actualLogitGap;
  bar_word := Pipeline.word p;
  bar_prob := Pipeline.prob p;
  bar_logit := Pipeline.logit p;
  bar_inNucleus := Pipeline.inNucleus p;
  bar_isSampled := Pipeline.isSampled p;
  bar_nucleusProb := or_zero (Pipeline.nucleusProb p);
  bar_isWinner := Nat.eqb i 0
|}.

(** One turn of [for (let l = 0; l < numLayers; l++)]: push the
    column of layer [l] at the running [x], then [x += COLUMN_GAP]. *)
Definition layer_step (startY : Q) (nodesPerLayer : nat)
    (acc : Q * list Column) (l : nat) : Q * list Column :=
  let '(x, cols) := acc in
  (x + COLUMN_GAP,
   cols ++ [{| col_label := "L" ++ NilEmpty.string_of_uint (Nat.to_uint (l + 1));
               col_color := COLORS_transformer;
               col_nodes := map (layer_node x startY l) (seq 0 nodesPerLayer);
               col_type := transformer |}]).

Definition actualLogitGap (numTokens numPreds : nat) : Q :=
  Qmax MIN_LOGIT_GAP
    (Qmin ROW_GAP (((Qnat numTokens - 1) * ROW_GAP) / Qmax (Qnat numPreds - 1) 1)).

Definition build (tokens : list Pipeline.Token) (modelConfig : Pipeline.ModelConfig)
    (predictions : list (Pipeline.Prediction A)) (s : State) : State :=
  let numTokens := length tokens in
  let numLayers := Pipeline.layers modelConfig in
  let nodesPerLayer := numTokens in
  let startY := TOP_PADDING + 30 in
  let x := LEFT_PADDING in
  (* 1. Tokens column *)
  let cols := [{| col_label := "TOKENS"; col_color := COLORS_token;
                  col_nodes := imap (token_node x startY) tokens;
                  col_type := token |}] in
  let x := x + COLUMN_GAP in
  (* 2. Embeddings column *)
  let cols := cols ++ [{| col_label := "EMBEDDINGS"; col_color := COLORS_embedding;
                          col_nodes := imap (embed_node x startY) tokens;
                          col_type := embedding |}] in
  let x := x + COLUMN_GAP in
  (* 3. Transformer layers *)
  let '(x, cols) :=
    fold_left (layer_step startY nodesPerLayer) (seq 0 numLayers) (x, cols) in
  (* 4. Logits column *)
  let numPreds := length predictions in
  let logitStartY := startY in
  let gap := actualLogitGap numTokens numPreds in
  let cols := cols ++ [{| col_label := "LOGITS"; col_color := COLORS_logit;
                          col_nodes := imap (logit_node x logitStartY gap) predictions;
                          col_type := logit |}] in
  let x := x + (COLUMN_GAP + 10) in
  (* 5. Output bars *)
  let bars := imap (output_bar x logitStartY gap) predictions in
  (* Auto-fit zoom *)
  let totalWidth := x + 280 in
  let totalNodeHeight :=
    Qmax ((Qnat numTokens - 1) * ROW_GAP + TOP_PADDING + 80)
         ((Qnat numPreds - 1) * gap + TOP_PADDING + 80) in
  let canvasW := clientWidth s in
  let canvasH := clientHeight s in
  let z := Qmin (Qmin (canvasW / totalWidth) (canvasH / totalNodeHeight)) (15 # 10) in
  let z := Qmax z (3 # 10) in
  let px := (canvasW - totalWidth * z) / 2 in
  let py := (canvasH - totalNodeHeight * z) / 2 in
  let py := Qmax py 10 in
  (* startAnimation(), whose first [animate()] runs at once *)
  {| columns := cols; outputBars := bars;
     animProgress := 0 + (8 # 1000); animTarget := 1; isAnimating := true;
     currentModelCfg := Some modelConfig;
     zoom := z; panX := Some px; panY := Some py;
     isDragging := isDragging s; dragStartX := dragStartX s;
     dragStartY := dragStartY s;
     panStartX := panStartX s; panStartY := panStartY s;
     (* the columns are new objects: a node hovered before is none of them *)
     hoveredNode := hoveredNode s; hoveredInScene := false;
     currentHoverZone := currentHoverZone s;
     clientWidth := clientWidth s; clientHeight := clientHeight s;
     rect_left := rect_left s; rect_top := rect_top s |}.

(** [animate()], run by the frame callback that [startAnimation]
    or the previous [animate] scheduled; none is pending once
    [isAnimating] is false. *)
Definition animate (s : State) : State :=
  if isAnimating s then
    let p := animProgress s + (8 # 1000) in
    let done := Qle_bool (animTarget s) p in
    {| columns := columns s; outputBars := outputBars s;
       animProgress := (if done then animTarget s else p);
       animTarget := animTarget s;
       isAnimating := negb done;
       currentModelCfg := currentModelCfg s;
       zoom := zoom s; panX := panX s; panY := panY s;
       isDragging := isDragging s; dragStartX := dragStartX s;
       dragStartY := dragStartY s;
       panStartX := panStartX s; panStartY := panStartY s;
       hoveredNode := hoveredNode s; hoveredInScene := hoveredInScene s;
       currentHoverZone := currentHoverZone s;
       clientWidth := clientWidth s; clientHeight := clientHeight s;
       rect_left := rect_left s; rect_top := rect_top s |}
  else s.

(** ** [updatePredictions] *)

Definition patch_node (p : Pipeline.Prediction A) (n : Node) : Node := {|
  node_x := node_x n; node_y := node_y n;
  node_label := fmt (Pipeline.logit p) 2;
  node_id := node_id n;
  node_type := node_type n; node_index := node_index n;
  node_tokenText := node_tokenText n; node_layer := node_layer n;
  node_word := Some (Pipeline.word p);
  node_prob := Some (Pipeline.prob p);
  node_logit := Some (Pipeline.logit p)
|}.

Definition patch_bar (i : nat) (p : Pipeline.Prediction A) (bar : OutputBar)
  : OutputBar := {|
  bar_x := bar_x bar; bar_y := bar_y bar;
  bar_word := Pipeline.word p;
  bar_prob := Pipeline.prob p;
  bar_logit := Pipeline.logit p;
  bar_inNucleus := Pipeline.inNucleus p;
  bar_isSampled := Pipeline.isSampled p;
  bar_nucleusProb := or_zero (Pipeline.nucleusProb p);
  bar_isWinner := Nat.eqb i 0
|}.

(** [predictions.forEach((p, i) => { if (i < logitCol.nodes.length) ... })]:
    the node objects are written in place. *)
Definition update_nodes (predictions : list (Pipeline.Prediction A))
    (nodes : list Node) : list Node :=
  fold_left
    (fun ns ip =>
       if (fst ip <? length ns)%nat then alter (patch_node (snd ip)) (fst ip) ns
       else ns)
    (imap pair predictions) nodes.

Definition update_column (predictions : list (Pipeline.Prediction A))
    (c : Column) : Column :=
  {| col_label := col_label c; col_color := col_color c;
     col_nodes := update_nodes predictions (col_nodes c);
     col_type := col_type c |}.

(** [outputBars.forEach((bar, i) => { if (i < predictions.length) ... })]. *)
Definition update_bars (predictions : list (Pipeline.Prediction A))
    (bars : list OutputBar) : list OutputBar :=
  imap (fun i bar => match predictions !! i with
                     | Some p => patch_bar i p bar
                     | None => bar
                     end) bars.

(** [hoveredNode] once nodes of [columns] have been written in place:
    a node of the scene is the object at its position, with what was
    written to it; a copy of a bar, and a node of a scene [build] has
    replaced, are as they were. *)
Definition hovered_after_writes (cols : list Column) (s : State) : option Found :=
  match hoveredNode s with
  | Some (FoundNode c i n) =>
      if hoveredInScene s then
        match cols !! c with
        | Some col =>
            match col_nodes col !! i with
            | Some n' => Some (FoundNode c i n')
            | None => hoveredNode s
            end
        | None => hoveredNode s
        end
      else hoveredNode s
  | h => h
  end.

Definition with_scene (cols : list Column) (bars : list OutputBar) (s : State)
  : State := {|
  columns := cols; outputBars := bars;
  animProgress := animProgress s; animTarget := animTarget s;
  isAnimating := isAnimating s; currentModelCfg := currentModelCfg s;
  zoom := zoom s; panX := panX s; panY := panY s;
  isDragging := isDragging s; dragStartX := dragStartX s; dragStartY := dragStartY s;
  panStartX := panStartX s; panStartY := panStartY s;
  hoveredNode := hovered_after_writes cols s; hoveredInScene := hoveredInScene s;
  currentHoverZone := currentHoverZone s;
  clientWidth := clientWidth s; clientHeight := clientHeight s;
  rect_left := rect_left s; rect_top := rect_top s
|}.

Definition updatePredictions (predictions : list (Pipeline.Prediction A))
    (s : State) : State :=
  match columns s with
  | [] => s
  | _ :: _ =>
      (* columns.find(c => c.type === 'logit') *)
      let cols :=
        match list_find (fun c => col_type c = logit) (columns s) with
        | Some (k, _) => alter (update_column predictions) k (columns s)
        | None => columns s
        end in
      with_scene cols (update_bars predictions (outputBars s)) s
  end.

(** ** Zoom / pan *)

Definition handleWheel (clientX clientY deltaY : Q) (s : State) : State :=
  let mx := clientX - rect_left s in
  let my := clientY - rect_top s in
  let prevZoom := zoom s in
  let delta := if ExactNum.Qlt_bool 0 deltaY then 9 # 10 else 11 # 10 in
  let z := clamp (zoom s * delta) (15 # 100) 4 in
  with_camera z
    (option_map (fun px => mx - (mx - px) * (z / prevZoom)) (panX s))
    (option_map (fun py => my - (my - py) * (z / prevZoom)) (panY s))
    s.

Definition handleMouseDown (clientX clientY : Q) (s : State) : State := {|
  columns := columns s; outputBars := outputBars s;
  animProgress := animProgress s; animTarget := animTarget s;
  isAnimating := isAnimating s; currentModelCfg := currentModelCfg s;
  zoom := zoom s; panX := panX s; panY := panY s;
  isDragging := true; dragStartX := clientX; dragStartY := clientY;
  panStartX := panX s; panStartY := panY s;
  hoveredNode := hoveredNode s; hoveredInScene := hoveredInScene s;
  currentHoverZone := currentHoverZone s;
  clientWidth := clientWidth s; clientHeight := clientHeight s;
  rect_left := rect_left s; rect_top := rect_top s
|}.

(** The two hover loops, on a pointer already in scene space. *)
Definition in_circle (mx my cx cy r2 : Q) : bool :=
  let dx := mx - cx in
  let dy := my - cy in
  ExactNum.Qlt_bool (dx * dx + dy * dy) r2.

Definition node_hit_radius : Q := NODE_RADIUS + 4.

Fixpoint find_bar (mx my : Q) (i : nat) (bars : list OutputBar) : option Found :=
  match bars with
  | [] => None
  | bar :: rest =>
      if in_circle mx my (bar_x bar) (bar_y bar) 64 then Some (FoundBar i bar)
      else find_bar mx my (S i) rest
  end.

Fixpoint find_node (mx my : Q) (c i : nat) (nodes : list Node) : option Found :=
  match nodes with
  | [] => None
  | node :: rest =>
      if in_circle mx my (node_x node) (node_y node)
           (node_hit_radius * node_hit_radius)
      then Some (FoundNode c i node)
      else find_node mx my c (S i) rest
  end.

Fixpoint find_in_columns (mx my : Q) (c : nat) (cols : list Column) : option Found :=
  match cols with
  | [] => None
  | col :: rest =>
      match find_node mx my c 0 (col_nodes col) with
      | Some f => Some f
      | None => find_in_columns mx my (S c) rest
      end
  end.

Definition hit_test (cols : list Column) (bars : list OutputBar) (mx my : Q)
  : option Found :=
  match find_bar mx my 0 bars with
  | Some f => Some f
  | None => find_in_columns mx my 0 cols
  end.

(** Zone detection by x position in column ranges. *)
Fixpoint zone_of_columns (mx : Q) (cols : list Column) : option Zone :=
  match cols with
  | [] => None
  | col :: rest =>
      match col_nodes col with
      | n0 :: _ =>
          let colX := node_x n0 in
          let halfGap := COLUMN_GAP / 2 in
          if Qle_bool (colX - halfGap) mx && Qle_bool mx (colX + halfGap)
          then Some (zone_of (col_type col))
          else zone_of_columns mx rest
      | [] => zone_of_columns mx rest
      end
  end.

Definition detect_zone (found : option Found) (cols : list Column)
    (bars : list OutputBar) (mx : Q) : option Zone :=
  match found with
  | Some (FoundBar _ _) => Some sampling
  | Some (FoundNode _ _ node) => Some (zone_of (node_type node))
  | None =>
      match cols with
      | [] => None
      | _ :: _ =>
          match zone_of_columns mx cols with
          | Some z => Some z
          | None =>
              match bars with
              | bar0 :: _ =>
                  if Qle_bool (bar_x bar0 - COLUMN_GAP / 2) mx then Some sampling
                  else None
              | [] => None
              end
          end
      end
  end.

(** The pointer in scene space, [(clientX - rect.left - panX) / zoom];
    [None] when a pan offset is NaN, and then every comparison of
    the hover code is false. *)
Definition scene_point (clientX clientY : Q) (s : State) : option (Q * Q) :=
  match panX s, panY s with
  | Some px, Some py =>
      Some ((clientX - rect_left s - px) / zoom s,
            (clientY - rect_top s - py) / zoom s)
  | _, _ => None
  end.

Definition handleMouseMove (clientX clientY : Q) (s : State) : State :=
  if isDragging s then
    with_camera (zoom s)
      (option_map (fun p => p + (clientX - dragStartX s)) (panStartX s))
      (option_map (fun p => p + (clientY - dragStartY s)) (panStartY s))
      s
  else
    let '(found, newZone) :=
      match scene_point clientX clientY s with
      | Some (mx, my) =>
          let found := hit_test (columns s) (outputBars s) mx my in
          (found, detect_zone found (columns s) (outputBars s) mx)
      | None => (None, None)
      end in
    {| columns := columns s; outputBars := outputBars s;
       animProgress := animProgress s; animTarget := animTarget s;
       isAnimating := isAnimating s; currentModelCfg := currentModelCfg s;
       zoom := zoom s; panX := panX s; panY := panY s;
       isDragging := isDragging s; dragStartX := dragStartX s;
       dragStartY := dragStartY s;
       panStartX := panStartX s; panStartY := panStartY s;
       hoveredNode := found;
       (* [found = node] is the object of [columns]; a bar is copied *)
       hoveredInScene := match found with
                         | Some (FoundNode _ _ _) => true
                         | _ => false
                         end;
       currentHoverZone := newZone;
       clientWidth := clientWidth s; clientHeight := clientHeight s;
       rect_left := rect_left s; rect_top := rect_top s |}.

Definition handleMouseUp (s : State) : State := {|
  columns := columns s; outputBars := outputBars s;
  animProgress := animProgress s; animTarget := animTarget s;
  isAnimating := isAnimating s; currentModelCfg := currentModelCfg s;
  zoom := zoom s; panX := panX s; panY := panY s;
  isDragging := false; dragStartX := dragStartX s; dragStartY := dragStartY s;
  panStartX := panStartX s; panStartY := panStartY s;
  hoveredNode := hoveredNode s; hoveredInScene := hoveredInScene s;
  currentHoverZone := currentHoverZone s;
  clientWidth := clientWidth s; clientHeight := clientHeight s;
  rect_left := rect_left s; rect_top := rect_top s
|}.

Definition handleMouseLeave (s : State) : State := {|
  columns := columns s; outputBars := outputBars s;
  animProgress := animProgress s; animTarget := animTarget s;
  isAnimating := isAnimating s; currentModelCfg := currentModelCfg s;
  zoom := zoom s; panX := panX s; panY := panY s;
  isDragging := false; dragStartX := dragStartX s; dragStartY := dragStartY s;
  panStartX := panStartX s; panStartY := panStartY s;
  hoveredNode := None; hoveredInScene := false; currentHoverZone := None;
  clientWidth := clientWidth s; clientHeight := clientHeight s;
  rect_left := rect_left s; rect_top := rect_top s
|}.

(** Zoom controls *)
Definition zoomIn (s : State) : State :=
  with_camera (clamp (zoom s * (13 # 10)) (15 # 100) 4) (panX s) (panY s) s.

Definition zoomOut (s : State) : State :=
  with_camera (clamp (zoom s * (7 # 10)) (15 # 100) 4) (panX s) (panY s) s.

Definition clear (s : State) : State := {|
  columns := []; outputBars := [];
  animProgress := 0; animTarget := animTarget s;
  isAnimating := isAnimating s; currentModelCfg := None;
  zoom := zoom s; panX := panX s; panY := panY s;
  isDragging := isDragging s; dragStartX := dragStartX s;
  dragStartY := dragStartY s;
  panStartX := panStartX s; panStartY := panStartY s;
  hoveredNode := None; hoveredInScene := false;
  currentHoverZone := currentHoverZone s;
  clientWidth := clientWidth s; clientHeight := clientHeight s;
  rect_left := rect_left s; rect_top := rect_top s
|}.

(** [Math.min(...xs)] and [Math.max(...xs)] of a non-empty spread. *)
Definition min_of (x : Q) (xs : list Q) : Q := fold_left Qmin xs x.
Definition max_of (x : Q) (xs : list Q) : Q := fold_left Qmax xs x.

(** [resetView()].  With columns but neither node nor bar, the
    spreads are empty: [Math.min()] is [Infinity] and [Math.max()]
    is [-Infinity], the content extents are [-Infinity], both
    ratios are [-0], so [zoom] becomes [Math.max(-0, 0.3) = 0.3],
    and each pan is [Infinity - Infinity], NaN. *)
Definition resetView (s : State) : State :=
  match columns s with
  | [] => s
  | _ :: _ =>
      let allNodes := flat_map col_nodes (columns s) in
      let allX := map node_x allNodes ++ map (fun b => bar_x b + 280) (outputBars s) in
      let allY := map node_y allNodes ++ map bar_y (outputBars s) in
      match allX, allY with
      | x0 :: xs, y0 :: ys =>
          let minX := min_of x0 xs - 80 in
          let maxX := max_of x0 xs + 80 in
          let minY := min_of y0 ys - 60 in
          let maxY := max_of y0 ys + 60 in
          let contentW := maxX - minX in
          let contentH := maxY - minY in
          let canvasW := clientWidth s in
          let canvasH := clientHeight s in
          let z := Qmin (Qmin (canvasW / contentW) (canvasH / contentH)) (15 # 10) in
          let z := Qmax z (3 # 10) in
          with_camera z
            (Some ((canvasW - contentW * z) / 2 - minX * z))
            (Some ((canvasH - contentH * z) / 2 - minY * z))
            s
      | _, _ => with_camera (3 # 10) None None s
      end
  end.

(** ** The calls the page makes on the module *)
Inductive Event : Type :=
| Build (tokens : list Pipeline.Token) (modelConfig : Pipeline.ModelConfig)
        (predictions : list (Pipeline.Prediction A))
| UpdatePredictions (predictions : list (Pipeline.Prediction A))
| Wheel (clientX clientY deltaY : Q)
| MouseDown (clientX clientY : Q)
| MouseMove (clientX clientY : Q)
| MouseUp
| MouseLeave
| ZoomIn
| ZoomOut
| Clear
| ResetView
| AnimationFrame
| Layout (w h rl rt : Q)   (* the browser resizes or moves the canvas *).

Definition step (s : State) (e : Event) : State :=
  match e with
  | Build toks cfg preds => build toks cfg preds s
  | UpdatePredictions preds => updatePredictions preds s
  | Wheel cx cy dy => handleWheel cx cy dy s
  | MouseDown cx cy => handleMouseDown cx cy s
  | MouseMove cx cy => handleMouseMove cx cy s
  | MouseUp => handleMouseUp s
  | MouseLeave => handleMouseLeave s
  | ZoomIn => zoomIn s
  | ZoomOut => zoomOut s
  | Clear => clear s
  | ResetView => resetView s
  | AnimationFrame => animate s
  | Layout w h rl rt =>
      {| columns := columns s; outputBars := outputBars s;
         animProgress := animProgress s; animTarget := animTarget s;
         isAnimating := isAnimating s; currentModelCfg := currentModelCfg s;
         zoom := zoom s; panX := panX s; panY := panY s;
         isDragging := isDragging s; dragStartX := dragStartX s;
         dragStartY := dragStartY s;
         panStartX := panStartX s; panStartY := panStartY s;
         hoveredNode := hoveredNode s; hoveredInScene := hoveredInScene s;
         currentHoverZone := currentHoverZone s;
         clientWidth := w; clientHeight := h; rect_left := rl; rect_top := rt |}
  end.

Definition run (evs : list Event) (s : State) : State := fold_left step evs s.

(** [getModelConfig()]. *)
Definition getModelConfig (s : State) : option Pipeline.ModelConfig :=
  currentModelCfg s.

(** [handleClick]: the call [onEmbeddingClick(hoveredNode.id,
    hoveredNode.tokenText)] it makes, if any; the callback is the one
    [init] was given.  A hovered bar has type ['output']. *)
Definition handleClick (s : State) : option (option nat * option string) :=
  match hoveredNode s with
  | Some (FoundNode _ _ node) =>
      if decide (node_type node = embedding)
      then Some (node_id node, node_tokenText node)
      else None
  | _ => None
  end.

End WithPayload.

Arguments Node : clear implicits.
Arguments Column : clear implicits.
Arguments OutputBar : clear implicits.
Arguments Found : clear implicits.
Arguments State : clear implicits.
Arguments Event : clear implicits.

End Viz.

(* ===================================================================== *)
(** * Part III, continued: [js/utils.js], [js/config.js] and their callers *)
(* ===================================================================== *)

(** [js/utils.js], and [generateEmbedding] of [js/embeddings.js], which
  draws from [seededRandom]. *)
Module Utils.

Open Scope Z_scope.

(** ** The 32-bit integer operators

    Their operands here are integers below 2^53 in magnitude, which
    doubles hold exactly, as are the sums and differences taken in
    between; they are modelled in [Z]. *)
Definition ToInt32 (x : Z) : Z := (x + 2 ^ 31) mod 2 ^ 32 - 2 ^ 31.

Definition ToUint32 (x : Z) : Z := x mod 2 ^ 32.

(** [a ^ b] and [a | b]. *)
Definition bit_xor (a b : Z) : Z := Z.lxor (ToInt32 a) (ToInt32 b).

Definition bit_or (a b : Z) : Z := Z.lor (ToInt32 a) (ToInt32 b).

(** [a << n] and [a >>> n]; the shift count is taken modulo 32. *)
Definition shift_left (a n : Z) : Z :=
  ToInt32 (Z.shiftl (ToInt32 a) (Z.land n 31)).

Definition shift_right_unsigned (a n : Z) : Z :=
  Z.shiftr (ToUint32 a) (Z.land n 31).

Definition Math_imul (a b : Z) : Z := ToInt32 (ToInt32 a * ToInt32 b).

(** ** [hash(str)]

    A string is the list of its UTF-16 code units, the values
    [charCodeAt] returns. *)
Definition hash_step (h c : Z) : Z := bit_or (shift_left h 5 - h + c) 0.

Definition hash (str : list Z) : Z := Z.abs (fold_left hash_step str 0).

(** ** [seededRandom(seed)]

    The closure is its variable [t]: [seededRandom] gives the value
    [t] starts from, and [rng] is one call of the returned function,
    with the number it returns and the value it leaves in [t]. *)
Definition seededRandom (seed : Z) : Z := shift_right_unsigned seed 0 + 0x6D2B79F5.

Definition rng (t : Z) : Q * Z :=
  let t := Math_imul (bit_xor t (shift_right_unsigned t 15)) (bit_or t 1) in
  let t := bit_xor t (t + Math_imul (bit_xor t (shift_right_unsigned t 7)) (bit_or t 61)) in
  ((inject_Z (shift_right_unsigned (bit_xor t (shift_right_unsigned t 14)) 0)
    / 4294967296)%Q,
   t).

(** [embeddings.js]: [generateEmbedding(tokenId)].  [rng() * 2 - 1]
    is exact in doubles: [rng()] is a multiple of 2^-32 below 1. *)
Definition DIMS : nat := 8.

Definition embedding_step (acc : list Q * Z) (i : nat) : list Q * Z :=
  let '(x, t) := rng (snd acc) in (fst acc ++ [(x * 2 - 1)%Q], t).

Definition generateEmbedding (tokenId : Z) : list Q :=
  fst (fold_left embedding_step (seq 0 DIMS) ([], seededRandom tokenId)).

(** ** [getTokenColor(index)] *)
Definition TOKEN_COLORS : list string :=
  [ "#f87171"; "#fb923c"; "#fbbf24"; "#a3e635"; "#34d399";
    "#22d3ee"; "#60a5fa"; "#a78bfa"; "#f472b6"; "#e879f9" ]%string.

(** [%] is the remainder that takes the sign of the dividend; an
    array read at a negative index is [undefined], here [None], and
    [-0] names the entry [0]. *)
Definition getTokenColor (index : Z) : option string :=
  let i := Z.rem index (Z.of_nat (length TOKEN_COLORS)) in
  if i <? 0 then None else TOKEN_COLORS !! Z.to_nat i.

(** ** [lerp(a, b, t)] *)
Definition lerp (a b t : Q) : Q := (a + (b - a) * t)%Q.

(** ** [softmax(logits, temperature)]

    [Math.max(...scaled)] starts from [-Infinity] and is the maximum
    of a non-empty spread; on an empty array both [map] calls run
    over no element and the result is empty, whatever [maxVal]. *)
Section WithNum.
Context {A : Type} `{Num A}.

Definition softmax (logits : list A) (temperature : A) : list A :=
  let t := num_max temperature num_min_temperature in
  let scaled := map (fun l => num_div l t) logits in
  match scaled with
  | [] => []
  | s0 :: rest =>
      let maxVal := fold_left num_max rest s0 in
      let exps := map (fun s => Math_exp (num_sub s maxVal)) scaled in
      let sum := fold_left num_add exps num_zero in
      map (fun e => num_div e sum) exps
  end.

End WithNum.

End Utils.

(** [js/config.js]: the store of the sliders, with its listeners. *)
Module ConfigStore.

(** The values the page stores: numbers and strings. *)
Inductive value : Type :=
| Number (x : float)
| Str (s : string).

(** What a read [state[key]] gives: a value the object holds itself,
    or the member of [Object.prototype] of that name, an object or a
    function, which the object inherits. *)
Inductive member : Type :=
| Own (v : value)
| Inherited (name : string).

Coercion Own : value >-> member.

(** The names of [Object.prototype]: writable data properties, all
    but [__proto__], which is an accessor. *)
Definition Object_prototype_names : list string :=
  [ "constructor"; "__defineGetter__"; "__defineSetter__"; "hasOwnProperty";
    "__lookupGetter__"; "__lookupSetter__"; "isPrototypeOf";
    "propertyIsEnumerable"; "toString"; "valueOf"; "__proto__";
    "toLocaleString" ]%string.

(** [a === b], for [a] read from the object and [b] a value: on
    numbers the IEEE equality, under which NaN differs from itself
    and the two zeros are equal; an inherited member is an object or
    a function, equal to no number and to no string. *)
Definition strict_equal (a : member) (b : value) : bool :=
  match a, b with
  | Own (Number x), Number y => PrimFloat.eqb x y
  | Own (Str s), Str t => String.eqb s t
  | _, _ => false
  end.

Section WithListeners.
(** The functions passed to [onChange], compared by identity as the
    [Set] does.  A listener is taken not to call back into the store
    while [forEach] runs; the one listener of [app.js] only reads. *)
Context {Listener : Type} `{EqDecision Listener}.

(** [state] holds the properties the object has itself; its
    prototype is [Object.prototype]. *)
Record Store := {
  state : gmap string value;
  listeners : list Listener     (* the [Set], in insertion order *)
}.

Definition initial : Store := {|
  state := {[ "temperature"%string := Number 1;
              "topK"%string := Number 10;
              "topP"%string := Number 0x1.ccccccccccccdp-1;   (* 0.9 *)
              "modelId"%string := Str "onnx-community/gpt2-ONNX" ]};
  listeners := []
|}.

(** [get(key)] is [state[key]]: the object's own property, else the
    inherited member, else [undefined], here [None]. *)
Definition get (key : string) (s : Store) : option member :=
  match state s !! key with
  | Some v => Some (Own v)
  | None =>
      if bool_decide (key ∈ Object_prototype_names) then Some (Inherited key)
      else None
  end.

(** [state[key] = value] for a number or a string: an own property
    is written, an absent or inherited name becomes an own property,
    except [__proto__], whose inherited setter ignores a value that
    is neither an object nor [null]. *)
Definition assign (key : string) (v : value) (st : gmap string value)
  : gmap string value :=
  match st !! key with
  | Some _ => <[key := v]> st
  | None => if String.eqb key "__proto__" then st else <[key := v]> st
  end.

(** [set(key, value)]: the store after the call, and the calls
    [fn(key, value)] that [forEach] made, in order. *)
Definition set (key : string) (v : value) (s : Store)
  : Store * list (Listener * string * value) :=
  let same :=
    match get key s with
    | Some old => strict_equal old v
    | None => false
    end in
  if same then (s, [])
  else ({| state := assign key v (state s); listeners := listeners s |},
        map (fun fn => (fn, key, v)) (listeners s)).

(** [onChange(fn)]: [listeners.add(fn)]; the function it returns is
    [unsubscribe fn], which gives what [listeners.delete(fn)] does. *)
Definition onChange (fn : Listener) (s : Store) : Store :=
  if decide (fn ∈ listeners s) then s
  else {| state := state s; listeners := listeners s ++ [fn] |}.

Definition unsubscribe (fn : Listener) (s : Store) : bool * Store :=
  (bool_decide (fn ∈ listeners s),
   {| state := state s;
      listeners := List.filter (fun g => negb (bool_decide (g = fn))) (listeners s) |}).

(** [getAll()]: a copy of the object's own properties. *)
Definition getAll (s : Store) : gmap string value := state s.

End WithListeners.

Arguments Store : clear implicits.

End ConfigStore.

(** [js/viz.js], continued: the token that travels from the sampled
  bar back to the token column.  The particle is followed while no
  [clear] comes between two of its frames; its constant [color] is
  left out. *)
Module Travel.
Import Viz.
Open Scope Q_scope.

Record Particle := {
  startX : Q;
  startY : Q;
  targetX : Q;
  targetY : Q;
  particle_x : Q;
  particle_y : Q;
  progress : Q;
  particle_word : string
}.

Section WithPayload.
Context {A : Type} `{Num A}.

(** [animateTokenTravel(word)], up to the first frame request: the
    particle it installs; [Ret None] when it resolves at once, and
    [Throw] when the executor throws on the read of
    [lastTokenNode.x], the token column having no node. *)
Definition animateTokenTravel (word : string) (s : State A)
  : outcome (option Particle) :=
  match columns s, outputBars s with
  | tokenCol :: _, bar0 :: _ =>
      (* outputBars.find(b => b.isSampled) || outputBars[0] *)
      let sampled :=
        match List.find bar_isSampled (outputBars s) with
        | Some b => b
        | None => bar0
        end in
      match last (col_nodes tokenCol) with
      | Some lastTokenNode =>
          Ret (Some {| startX := bar_x sampled; startY := bar_y sampled;
                       targetX := node_x lastTokenNode;
                       targetY := node_y lastTokenNode + ROW_GAP;
                       particle_x := bar_x sampled; particle_y := bar_y sampled;
                       progress := 0; particle_word := word |})
      | None => Throw TypeError
      end
  | _, _ => Ret None
  end.

End WithPayload.

(** The eased progress; [Math.pow(v, 2)] is [v * v]. *)
Definition ease (t : Q) : Q :=
  if ExactNum.Qlt_bool t (1 # 2) then 2 * t * t
  else 1 - ((-2 * t + 2) * (-2 * t + 2)) / 2.

(** One frame of [tick] on the particle: [None] when the frame sets
    [travelParticle] to [null] and resolves the promise. *)
Definition tick (p : Particle) : option Particle :=
  let progress := progress p + (25 # 1000) in
  if Qle_bool 1 progress then None
  else
    let t := progress in
    Some {| startX := startX p; startY := startY p;
            targetX := targetX p; targetY := targetY p;
            particle_x := Utils.lerp (startX p) (targetX p) (ease t);
            particle_y := Utils.lerp (startY p) (targetY p) (ease t);
            progress := progress; particle_word := particle_word p |}.

(** The particle after [n] frames, if the animation still runs. *)
Fixpoint frames (n : nat) (p : Particle) : option Particle :=
  match n with
  | O => Some p
  | S n => match tick p with Some p' => frames n p' | None => None end
  end.

End Travel.

(* ===================================================================== *)
(** * Part IV: the vocabulary of the statements                           *)
(* ===================================================================== *)

(** What the theorems of Part V say about the sampler. *)
Module SamplerSpec.
Import Pipeline.

Section WithNum.
Context {A : Type} `{Num A}.
Variable decodeToken : nat -> string.

(** The position of the first element at which the running sum of
    [masses], started from [cum], reaches [bound]; [None] when it
    never does.  With [bound := topP] over the probabilities it is the
    crossing element of the nucleus; with [bound := r] over the
    renormalised masses of the nucleus it is the sampled member. *)
Fixpoint crossing (bound cum : A) (masses : list A) : option nat :=
  match masses with
  | [] => None
  | m :: rest =>
      let cum := num_add cum m in
      if num_le bound cum then Some 0%nat else S <$> crossing bound cum rest
  end.

(** The number of members the nucleus takes: up to and including the
    crossing element, or all when the sum never reaches [topP]. *)
Definition nucleus_size (topP cum : A) (probs : list A) : nat :=
  match crossing topP cum probs with
  | Some j => S j
  | None => length probs
  end.

(** [computePredictions] in closed form, stage by stage. *)
Definition scale_value (t x : A) : A := to_float32 (num_div x t).

Definition indexed_of (t : A) (scores : list A) : list (Item A) :=
  imap (fun i x => {| val := scale_value t x; rawLogit := x; idx := i |}) scores.

Definition top_items (t : A) (topK : nat) (scores : list A) : list (Item A) :=
  take topK (sort (indexed_of t scores)).

Definition softmax_of (items : list (Item A)) : list (Prediction A) :=
  match items with
  | [] => []
  | first :: _ =>
      let es := exps (val first) items in
      map (make_prediction decodeToken (sumExp es)) es
  end.

Definition mass (ps : list (Prediction A)) : A :=
  fold_left (fun s p => num_add s (prob p)) ps num_zero.

Definition with_nucleus (topP : A) (ps : list (Prediction A)) : list (Prediction A) :=
  let k := nucleus_size topP num_zero (map prob ps) in
  let nsum := mass (take k ps) in
  map (fun p => set_nucleusProb (num_div (prob p) nsum) (set_inNucleus p)) (take k ps)
  ++ drop k ps.

Definition sampled_index (r : A) (k : nat) (ps : list (Prediction A)) : nat :=
  default 0%nat (crossing r num_zero (map nucleusProb (take k ps))).

Definition predictions_of (scores : list A) (temperature : A) (topK : nat)
    (topP r : A) : list (Prediction A) :=
  let t := num_max temperature num_min_temperature in
  let ps0 := softmax_of (top_items t topK scores) in
  let k := nucleus_size topP num_zero (map prob ps0) in
  let ps1 := with_nucleus topP ps0 in
  alter set_isSampled (sampled_index r k ps1) ps1.

(** The module state after a run of [recomputePredictions] calls, one
    per entry: the configuration read and the number drawn. *)
Definition recompute_many (calls : list (Config A * A)) (s : State A) : State A :=
  fold_left (fun s c => snd (recomputePredictions decodeToken (fst c) (snd c) s)) calls s.

End WithNum.

Open Scope Q_scope.

(** [a] is ranked before [b]: a larger scaled score, or the same
    score and a smaller original index. *)
Definition item_before (a b : Item Q) : Prop :=
  val b < val a \/ (val a == val b /\ (idx a < idx b)%nat).

(** Candidate [i] with raw score [x] is ranked before candidate [j]
    with raw score [y], where [scaled] takes a raw score to the
    temperature-scaled score the [scaled] array holds for it. *)
Definition outranks (scaled : Q -> Q) (i : nat) (x : Q) (j : nat) (y : Q) : Prop :=
  scaled y < scaled x \/ (scaled x == scaled y /\ (i < j)%nat).

Definition Qsum (l : list Q) : Q := fold_right Qplus 0 l.

End SamplerSpec.

(** What the theorems of Part V say about the camera and the scene. *)
Module SceneSpec.
Import Viz.
Open Scope Q_scope.

(** Squared distance between the pointer and a centre. *)
Definition dist2 (mx my cx cy : Q) : Q :=
  (mx - cx) * (mx - cx) + (my - cy) * (my - cy).

Section WithPayload.
Context {A : Type} `{Num A}.

(** The camera's scale bounds. *)
Definition zoom_ok (s : State A) : Prop := 15 # 100 <= zoom s <= 4.


(** The fields of a node a patch leaves alone. *)
Definition node_same_place (n n' : Node A) : Prop :=
  node_x n' = node_x n /\ node_y n' = node_y n /\ node_id n' = node_id n /\
  node_type n' = node_type n /\ node_index n' = node_index n /\
  node_tokenText n' = node_tokenText n /\ node_layer n' = node_layer n.

(** The fields a patch writes, taken from the prediction [p]. *)
Definition node_shows (toFixed : A -> nat -> string)
    (p : Pipeline.Prediction A) (n' : Node A) : Prop :=
  node_label n' = fmt toFixed (Pipeline.logit p) 2 /\
  node_word n' = Some (Pipeline.word p) /\
  node_prob n' = Some (Pipeline.prob p) /\
  node_logit n' = Some (Pipeline.logit p).

(** Column [c] is the one [columns.find(c => c.type === 'logit')]
    returns. *)
Definition first_logit_column (s : State A) (c : nat) (col : Column A) : Prop :=
  list_find (fun c => col_type c = logit) (columns s) = Some (c, col).

(** A hovered node of the scene is the node at its position. *)
Definition hover_aliased (s : State A) : Prop :=
  hoveredInScene s = true ->
  exists c i n col,
    hoveredNode s = Some (FoundNode c i n) /\
    columns s !! c = Some col /\ col_nodes col !! i = Some n.

(** The pointer is within the hit radius of a bar, of a node. *)
Definition bar_hit (mx my : Q) (bar : OutputBar A) : Prop :=
  dist2 mx my (bar_x bar) (bar_y bar) < 64.

Definition node_hit (mx my : Q) (node : Node A) : Prop :=
  dist2 mx my (node_x node) (node_y node) < node_hit_radius * node_hit_radius.

(** A column whose nodes sit at abscissa [X], below each other from
    ordinate 80 at a constant gap of at least [MIN_LOGIT_GAP]. *)
Definition col_at (X : Q) (col : Column A) : Prop :=
  exists g, MIN_LOGIT_GAP <= g /\
    forall i n, col_nodes col !! i = Some n ->
      node_x n == X /\ node_y n == 80 + Qnat i * g.

(** Columns at [X], [X + COLUMN_GAP], ... *)
Fixpoint grid (X : Q) (cols : list (Column A)) : Prop :=
  match cols with
  | [] => True
  | col :: rest => col_at X col /\ grid (X + COLUMN_GAP) rest
  end.

(** The layout every scene has: the columns on the grid from
    [LEFT_PADDING], the bars to the right of the last column. *)
Definition scene_ok (cols : list (Column A)) (bars : list (OutputBar A)) : Prop :=
  grid LEFT_PADDING cols /\
  Forall (fun b => bar_x b == LEFT_PADDING + Qnat (length cols) * COLUMN_GAP + 10) bars.

End WithPayload.
End SceneSpec.

(** Concrete inputs, for the examples of Part V. *)
Module Examples.
Import Pipeline.

Definition decode (i : nat) : string :=
  "#" ++ NilEmpty.string_of_uint (Nat.to_uint i).

(** A positive, increasing rational function in the place of
    [Math.exp] for the exact instance. *)
Definition rational_exp (x : Q) : Q :=
  if Qle_bool x 0 then 1 / (1 - x) else 1 + x.

(** Heaps with one array, at reference 0. *)
Definition no_rounding (x : Q) : Q := x.

Definition exact : Num Q := ExactNum.instance rational_exp no_rounding.

Definition float_heap (scores : list float) : heap float := {[ 0%nat := scores ]}.
Definition exact_heap (scores : list Q) : heap Q := {[ 0%nat := scores ]}.

Definition peaked_scores : list float := [5; 1; 1; 1]%float.
Definition far_scores : list float := [40; 0]%float.
Definition exact_scores : list Q := [5; 1; 1; 1]%Q.
Definition tied_scores : list Q := [1; 5; 5; 2]%Q.

Definition toFixed (x : float) (decimals : nat) : string := "0.00".
Definition trim (s : string) : string := s.

Definition gpt2 : ModelConfig :=
  {| layers := 12; hidden_dim := 768; ffn_dim := 3072; vocab_size := 50257; heads := 12 |}.

Definition two_tokens : list Token :=
  [ {| id := 464; text := "The" |}; {| id := 3797; text := " cat" |} ].

Definition prediction (w : string) (p l : float) (i : nat) (n s : bool) (np : float)
  : Prediction float :=
  {| word := w; prob := p; logit := l; tokenId := i;
     inNucleus := n; isSampled := s; nucleusProb := np |}.

Definition three_predictions : list (Prediction float) :=
  [ prediction " sat" 0.5 3 318 true true 1;
    prediction " is" 0.25 2.5 11 false false 0;
    prediction " ran" 0.25 2 4966 false false 0 ]%float.

(** The module state of [pipeline.js] before any run. *)
Definition no_results : State float :=
  {| arrays := ∅; lastLogits := None; lastTokens := None;
     lastModelConfig := None; currentText := EmptyString |}.

Definition sliders : Config float :=
  {| temperature := 1%float; topK := 10; topP := 0.75%float |}.

Definition canvas : Viz.State float := Viz.initial 800 600 0 0.


(** The scene of a two-token prompt with three predictions. *)
Definition built : Viz.State float :=
  Viz.build toFixed trim two_tokens gpt2 three_predictions canvas.

End Examples.

(** What the further theorems of Part V speak of. *)
Module UtilsSpec.
Open Scope Z_scope.

(** The value of the polynomial hash before the wrap to 32 bits:
    [c0 * 31^(n-1) + ... + c(n-1)] for the code units [c0 ... c(n-1)]. *)
Definition poly31 (str : list Z) : Z := fold_left (fun h c => 31 * h + c) str 0.

(** The signed 32-bit integers. *)
Definition int32 (x : Z) : Prop := - 2 ^ 31 <= x < 2 ^ 31.

End UtilsSpec.

Module LayoutSpec.
Import Viz.
Open Scope Q_scope.

(** Where [build] puts column [c] and row [i] of a column whose rows
    are [g] apart. *)
Definition column_x (c : nat) : Q := LEFT_PADDING + Qnat c * COLUMN_GAP.

Definition row_y (g : Q) (i : nat) : Q := 80 + Qnat i * g.

(** The extent [build] fits to the canvas: [totalWidth] and
    [totalNodeHeight]. *)
Definition content_width (numLayers : nat) : Q :=
  column_x (numLayers + 2) + 80 + 280.

Definition content_height (numTokens numPreds : nat) : Q :=
  Qmax ((Qnat numTokens - 1) * ROW_GAP + TOP_PADDING + 80)
       ((Qnat numPreds - 1) * actualLogitGap numTokens numPreds + TOP_PADDING + 80).

Section WithPayload.
Context {A : Type} `{Num A}.

(** The type of column [c] in a scene of [numLayers] layers. *)
Definition column_type (numLayers c : nat) : NodeType :=
  if (c =? 0)%nat then token
  else if (c =? 1)%nat then embedding
  else if (c <? numLayers + 2)%nat then transformer
  else logit.

(** The scene point [(x, y)] is drawn inside the canvas. *)
Definition on_canvas (s : State A) (x y : Q) : Prop :=
  exists px py, panX s = Some px /\ panY s = Some py /\
    0 <= x * zoom s + px <= clientWidth s /\
    0 <= y * zoom s + py <= clientHeight s.

End WithPayload.
End LayoutSpec.

Module GestureSpec.
Import Viz.
Open Scope Q_scope.

(** What one click on a zoom button makes of the scale. *)
Definition zoom_in_step (z : Q) : Q := clamp (z * (13 # 10)) (15 # 100) 4.
Definition zoom_out_step (z : Q) : Q := clamp (z * (7 # 10)) (15 # 100) 4.

Section WithPayload.
Context {A : Type} `{Num A}.

(** The pointer moves of a gesture, as events. *)
Definition moves_of (moves : list (Q * Q)) : list (Event A) :=
  map (fun m => MouseMove (fst m) (snd m)) moves.

(** The animation progress is a fraction of the target 1. *)
Definition anim_ok (s : State A) : Prop :=
  0 <= animProgress s <= 1 /\ animTarget s = 1.

End WithPayload.
End GestureSpec.

Module ViewSpec.
Import Viz.
Open Scope Q_scope.

Section WithPayload.
Context {A : Type} `{Num A}.

(** The abscissas and ordinates [resetView] fits: [allX] and [allY]. *)
Definition content_xs (s : State A) : list Q :=
  map node_x (flat_map col_nodes (columns s))
  ++ map (fun b => bar_x b + 280) (outputBars s).

Definition content_ys (s : State A) : list Q :=
  map node_y (flat_map col_nodes (columns s)) ++ map bar_y (outputBars s).

End WithPayload.
End ViewSpec.

Module ZoneSpec.
Import Viz.
Open Scope Q_scope.

(** The band of abscissas around a column at [X] that belongs to it:
    half a column gap on both sides. *)
Definition in_band (mx X : Q) : Prop :=
  X - COLUMN_GAP / 2 <= mx /\ mx <= X + COLUMN_GAP / 2.

End ZoneSpec.

Module ConfigSpec.
Import ConfigStore.

(** The assignment [state[key] = value] runs the setter of
    [__proto__] that every object inherits: the key is [__proto__]
    and the object has no property of its own by that name. *)
Definition prototype_setter {Listener : Type} (key : string) (s : Store Listener) : Prop :=
  key = "__proto__"%string /\ state s !! key = None.

End ConfigSpec.

Module TravelSpec.
Import Travel.

(** The particle keeps its end points and its word. *)
Definition same_journey (p p' : Particle) : Prop :=
  startX p' = startX p /\ startY p' = startY p /\
  targetX p' = targetX p /\ targetY p' = targetY p /\
  particle_word p' = particle_word p.

End TravelSpec.

Module MoreExamples.
Import Examples.

(** A particle as [animateTokenTravel] installs it. *)
Definition travelling : Travel.Particle :=
  {| Travel.startX := 1160; Travel.startY := 80;
     Travel.targetX := 100; Travel.targetY := 152;
     Travel.particle_x := 1160; Travel.particle_y := 80;
     Travel.progress := 0; Travel.particle_word := " sat" |}.

(** A tokenizer and two models for [pipeline.run]. *)
Definition tokenize_two (text : string) : outcome (list Pipeline.Token * unit) :=
  Ret (two_tokens, tt).

Definition tokenize_fails (text : string) : outcome (list Pipeline.Token * unit) :=
  Throw TypeError.

Definition forward_peaked (encoded : unit) : outcome (list float) :=
  Ret peaked_scores.

Definition forward_nothing (encoded : unit) : outcome (list float) :=
  Ret [].

Definition one_token : list Pipeline.Token :=
  [ {| Pipeline.id := 314; Pipeline.text := "Hello" |} ].

Definition tokenize_one (text : string) : outcome (list Pipeline.Token * unit) :=
  Ret (one_token, tt).

Definition forward_fails (encoded : unit) : outcome (list float) :=
  Throw (Error "Model not loaded").

(** The module state of [pipeline.js] after a run on [peaked_scores]. *)
Definition after_run : Pipeline.State float :=
  snd (Pipeline.run decode unit tokenize_two forward_peaked (Some gpt2)
         "The cat" sliders 0.5%float no_results).

(** The pointer on the first node of the logits column of [built]. *)
Definition hovering_logit : Viz.State float :=
  Viz.handleMouseMove 600 (2665 # 9) built.

(** A shorter list of other candidates. *)
Definition two_predictions : list (Pipeline.Prediction float) :=
  [ prediction " slept" 0.75 4 311 true true 1;
    prediction " was" 0.25 3 373 false false 0 ]%float.

(** [updatePredictions] with them while the pointer is on that node. *)
Definition repatched : Viz.State float :=
  Viz.updatePredictions toFixed two_predictions hovering_logit.

(** The same predictions, resampled. *)
Definition resampled : list (Pipeline.Prediction float) :=
  [ prediction " sat" 0.5 3 318 true false 1;
    prediction " is" 0.25 2.5 11 false false 0;
    prediction " ran" 0.25 2 4966 false false 0 ]%float.

End MoreExamples.

(* ===================================================================== *)
(** * Part V: the properties                                              *)
(* ===================================================================== *)

(** ** Lists, and the sampler whatever the numbers *)
Module ListFacts.

Lemma filter_seq_lt (f : nat -> bool) (n k : nat) :
  (k <= n)%nat -> (forall i, (i < n)%nat -> f i = (i <? k)%nat) ->
  List.filter f (seq 0 n) = seq 0 k.
Proof.
  revert k. induction n as [|n IH]; intros k Hk Hf.
  - assert (k = 0%nat) as -> by lia. reflexivity.
  - rewrite seq_S, List.filter_app. simpl.
    destruct (decide (k = S n)) as [->|Hne].
    + rewrite (IH n); [|lia|].
      2:{ intros i Hi. rewrite Hf by lia.
          destruct (Nat.ltb_spec i (S n)), (Nat.ltb_spec i n); try lia; reflexivity. }
      rewrite Hf by lia.
      destruct (Nat.ltb_spec n (S n)); [|lia]. rewrite seq_S. reflexivity.
    + rewrite (IH k); [|lia|intros i Hi; apply Hf; lia].
      rewrite Hf by lia. destruct (Nat.ltb_spec n k); [lia|].
      apply app_nil_r.
Qed.

Lemma fold_seq_lookup {X S : Type} (g : S -> X -> S) (l : list X) (k : nat) (z : S) :
  (k <= length l)%nat ->
  fold_left (fun s i => match l !! i with Some p => g s p | None => s end) (seq 0 k) z
  = fold_left g (take k l) z.
Proof.
  induction k as [|k IH]; intros Hk.
  - reflexivity.
  - destruct (lookup_lt_is_Some_2 l k) as [x Hx]; [lia|].
    rewrite seq_S, fold_left_app, IH by lia. simpl. rewrite Hx.
    rewrite (take_S_r _ _ _ Hx), fold_left_app. reflexivity.
Qed.

Lemma fold_alter_seq {X : Type} (f : X -> X) (l : list X) (k : nat) :
  (k <= length l)%nat ->
  fold_left (fun ps i => alter f i ps) (seq 0 k) l = map f (take k l) ++ drop k l.
Proof.
  induction k as [|k IH]; intros Hk.
  - simpl. rewrite drop_0. reflexivity.
  - destruct (lookup_lt_is_Some_2 l k) as [x Hx]; [lia|].
    rewrite seq_S, fold_left_app, IH by lia. simpl.
    rewrite (take_S_r _ _ _ Hx), map_app, <- app_assoc. simpl.
    rewrite (drop_S _ _ _ Hx).
    rewrite alter_app_r_alt.
    2:{ rewrite length_map, length_take. lia. }
    rewrite length_map, length_take.
    replace (k - k `min` length l)%nat with 0%nat by lia. reflexivity.
Qed.

Lemma filter_prefix_of {X : Type} (f : X -> bool) (l : list X) : forall k,
  (k <= length l)%nat ->
  (forall j x, l !! j = Some x -> f x = (j <? k)%nat) ->
  List.filter f l = take k l.
Proof.
  induction l as [|x rest IH]; intros k Hk Hf.
  - rewrite take_nil. reflexivity.
  - simpl. rewrite (Hf 0%nat x eq_refl). destruct k as [|k].
    + simpl. rewrite (IH 0%nat); [apply take_0|lia|].
      intros j y Hj. apply (Hf (S j)) in Hj. exact Hj.
    + simpl. f_equal. apply IH; [simpl in Hk; lia|].
      intros j y Hj. apply (Hf (S j)) in Hj. exact Hj.
Qed.

Lemma filter_alter_one {X : Type} (f : X -> bool) (g : X -> X) (l : list X) j :
  (j < length l)%nat ->
  Forall (fun x => f x = false) l -> (forall x, f (g x) = true) ->
  length (List.filter f (alter g j l)) = 1%nat.
Proof.
  revert j. induction l as [|x rest IH]; intros j Hj Hall Hg; [simpl in Hj; lia|].
  apply Forall_cons in Hall as [Hx Hrest].
  destruct j as [|j]; simpl.
  - rewrite Hg. simpl. f_equal.
    clear -Hrest. induction rest as [|y rest IH]; [reflexivity|].
    apply Forall_cons in Hrest as [Hy Hrest]. simpl. rewrite Hy. auto.
  - rewrite Hx. apply IH; [simpl in Hj; lia|done|done].
Qed.


End ListFacts.

Module SamplerFacts.
Import Pipeline SamplerSpec.

Section Generic.
Context {A : Type} `{Num A}.
Variable decodeToken : nat -> string.

Lemma crossing_lt bound cum masses j :
  crossing bound cum masses = Some j -> (j < length masses)%nat.
Proof.
  revert cum j. induction masses as [|m rest IH]; intros cum j; simpl; [discriminate|].
  destruct (num_le bound (num_add cum m)).
  - intros [= <-]. lia.
  - destruct (crossing bound (num_add cum m) rest) as [j'|] eqn:E; simpl; [|discriminate].
    intros [= <-]. apply IH in E. lia.
Qed.

Lemma nucleus_size_le topP cum probs : (nucleus_size topP cum probs <= length probs)%nat.
Proof.
  unfold nucleus_size. destruct (crossing _ _ _) eqn:E; [|lia].
  apply crossing_lt in E. lia.
Qed.

Lemma nucleus_size_pos topP cum probs :
  probs <> [] -> (0 < nucleus_size topP cum probs)%nat.
Proof.
  unfold nucleus_size. destruct (crossing _ _ _); [lia|].
  destruct probs; [congruence|simpl; lia].
Qed.

Lemma nucleus_loop_spec topP cum (ps : list (Prediction A)) :
  let k := nucleus_size topP cum (map prob ps) in
  nucleus_loop topP cum ps = map set_inNucleus (take k ps) ++ drop k ps.
Proof.
  revert cum. induction ps as [|p rest IH]; intros cum; [reflexivity|].
  simpl. unfold nucleus_size. simpl.
  destruct (num_le topP (num_add cum (prob p))) eqn:E.
  - simpl. rewrite ?take_0, ?drop_0. reflexivity.
  - rewrite IH. unfold nucleus_size.
    destruct (crossing topP (num_add cum (prob p)) (map prob rest)) as [j|]; simpl.
    + reflexivity.
    + rewrite length_map. reflexivity.
Qed.

Lemma sample_loop_seq r (ps : list (Prediction A)) (m : nat) : forall a cum,
  (a + m <= length ps)%nat ->
  sample_loop r cum (seq a m) ps =
  match crossing r cum (map nucleusProb (take m (drop a ps))) with
  | Some j => alter set_isSampled (a + j)%nat ps
  | None => ps
  end.
Proof.
  induction m as [|m IH]; intros a cum Hle; [reflexivity|].
  destruct (lookup_lt_is_Some_2 ps a) as [p Hp]; [lia|].
  simpl. rewrite Hp. rewrite (drop_S _ _ _ Hp). simpl.
  destruct (num_le r (num_add cum (nucleusProb p))).
  - rewrite Nat.add_0_r. reflexivity.
  - rewrite IH by lia.
    destruct (crossing r _ _) as [j|]; simpl; [|reflexivity].
    f_equal. lia.
Qed.


Lemma scale_loop_prefix (h : heap A) logits scaled t scores k :
  h !! logits = Some scores -> scaled <> logits ->
  (k <= length scores)%nat ->
  fold_left (scale_body logits scaled t) (seq 0 k)
    (<[scaled := replicate (length scores) num_zero]> h)
  = <[scaled := map (scale_value t) (take k scores)
                 ++ replicate (length scores - k) num_zero]> h.
Proof.
  intros Hl Hne. induction k as [|k IH]; intros Hk.
  - simpl. rewrite Nat.sub_0_r. reflexivity.
  - destruct (lookup_lt_is_Some_2 scores k) as [x Hx]; [lia|].
    rewrite seq_S, fold_left_app, IH by lia. simpl.
    unfold scale_body, arr_get, arr_set.
    rewrite lookup_insert_ne by done. rewrite Hl. simpl. rewrite Hx.
    rewrite lookup_insert_eq, insert_insert_eq. f_equal.
    rewrite (take_S_r _ _ _ Hx), map_app, <- app_assoc. simpl.
    replace (length scores - k)%nat with (S (length scores - S k)) by lia.
    simpl.
    rewrite insert_app_r_alt by (rewrite length_map, length_take; lia).
    rewrite length_map, length_take.
    replace (k - k `min` length scores)%nat with 0%nat by lia. reflexivity.
Qed.

Lemma scale_loop_spec (h : heap A) logits scaled t scores :
  h !! logits = Some scores -> scaled <> logits ->
  scale_loop logits scaled t (<[scaled := replicate (length scores) num_zero]> h)
  = <[scaled := map (scale_value t) scores]> h.
Proof.
  intros Hl Hne. unfold scale_loop, arr_length.
  rewrite lookup_insert_ne by done. rewrite Hl.
  rewrite (scale_loop_prefix h logits scaled t scores (length scores)) by (done || lia).
  rewrite firstn_all, Nat.sub_diag. simpl. rewrite app_nil_r. reflexivity.
Qed.

Lemma push_loop_spec (h : heap A) logits scaled t scores :
  h !! logits = Some scores -> scaled <> logits ->
  push_loop (<[scaled := map (scale_value t) scores]> h) logits scaled
  = indexed_of t scores.
Proof.
  intros Hl Hne. unfold push_loop, arr_length.
  rewrite lookup_insert_eq, length_map.
  assert (forall k, (k <= length scores)%nat ->
    fold_left (push_body (<[scaled := map (scale_value t) scores]> h) logits scaled)
      (seq 0 k) [] = take k (indexed_of t scores)) as Hk.
  { induction k as [|k IH]; intros Hk; [reflexivity|].
    destruct (lookup_lt_is_Some_2 scores k) as [x Hx]; [lia|].
    rewrite seq_S, fold_left_app, IH by lia. simpl.
    unfold push_body, arr_get.
    rewrite lookup_insert_eq, lookup_insert_ne by done. rewrite Hl. simpl.
    rewrite list_lookup_fmap, Hx. simpl.
    symmetry. apply take_S_r. unfold indexed_of.
    rewrite list_lookup_imap, Hx. reflexivity. }
  rewrite Hk by lia. unfold indexed_of.
  rewrite <- (length_imap (fun i x => {| val := scale_value t x; rawLogit := x; idx := i |}) scores) at 1.
  apply firstn_all.
Qed.

Lemma some_sampled_false (ps : list (Prediction A)) nucleus :
  Forall (fun p => isSampled p = false) ps -> some_sampled ps nucleus = false.
Proof.
  intros Hall. unfold some_sampled. induction nucleus as [|i rest IH]; [reflexivity|].
  simpl. rewrite IH, orb_false_r.
  destruct (ps !! i) as [p|] eqn:E; [|reflexivity].
  eapply Forall_lookup_1 in Hall; eauto.
Qed.

Lemma some_sampled_alter (ps : list (Prediction A)) j k :
  (j < k)%nat -> (k <= length ps)%nat ->
  some_sampled (alter set_isSampled j ps) (seq 0 k) = true.
Proof.
  intros Hj Hk. unfold some_sampled. apply existsb_exists. exists j. split.
  - apply in_seq. lia.
  - rewrite list_lookup_alter_eq.
    destruct (lookup_lt_is_Some_2 ps j) as [p ->]; [lia|]. reflexivity.
Qed.

Lemma softmax_of_unsampled items :
  Forall (fun p => inNucleus p = false /\ isSampled p = false) (softmax_of decodeToken items).
Proof.
  unfold softmax_of. destruct items as [|first rest]; [constructor|].
  apply Forall_forall. intros p Hp.
  apply list_elem_of_In, in_map_iff in Hp as (e & <- & _).
  split; reflexivity.
Qed.

Lemma computePredictions_eq (h : heap A) logits scores temperature topK topP r :
  h !! logits = Some scores ->
  computePredictions decodeToken logits temperature topK topP r h =
  (match top_items (num_max temperature num_min_temperature) topK scores with
   | [] => Throw TypeError
   | _ :: _ => Ret (predictions_of decodeToken scores temperature topK topP r)
   end,
   <[fresh (dom h) := map (scale_value (num_max temperature num_min_temperature)) scores]> h).
Proof.
  intros Hl.
  assert (fresh (dom h) <> logits) as Hne.
  { intros Heq. apply (is_fresh (dom h)). rewrite Heq. apply elem_of_dom. eauto. }
  unfold computePredictions, new_Float32Array, arr_length. rewrite Hl.
  rewrite (scale_loop_spec h logits _ _ scores Hl Hne).
  rewrite (push_loop_spec h logits _ _ scores Hl Hne).
  set (t := num_max temperature num_min_temperature).
  unfold predictions_of. fold t. unfold top_items.
  destruct (take topK (sort (indexed_of t scores))) as [|first rest] eqn:Etop; [reflexivity|].
  unfold softmax_of.
  set (es := exps (val first) (first :: rest)).
  set (ps0 := map (make_prediction decodeToken (sumExp es)) es).
  assert (Forall (fun p => inNucleus p = false /\ isSampled p = false) ps0) as Hfresh.
  { apply (softmax_of_unsampled (first :: rest)). }
  rewrite nucleus_loop_spec.
  set (k := nucleus_size topP num_zero (map prob ps0)).
  assert (k <= length ps0)%nat as Hk.
  { subst k. etransitivity; [apply nucleus_size_le|]. rewrite length_map. done. }
  assert (0 < k)%nat as Hk0.
  { subst k. apply nucleus_size_pos. subst ps0 es. discriminate. }
  set (ps' := map set_inNucleus (take k ps0) ++ drop k ps0).
  assert (length ps' = length ps0) as Hlen'.
  { subst ps'. rewrite length_app, length_map, length_take, length_drop. lia. }
  assert (nucleus_of ps' = seq 0 k) as Hnuc.
  { unfold nucleus_of. apply ListFacts.filter_seq_lt; [lia|].
    intros i Hi. subst ps'. destruct (Nat.ltb_spec i k) as [Hik|Hik].
    - rewrite lookup_app_l by (rewrite length_map, length_take; lia).
      rewrite list_lookup_fmap, lookup_take_lt by lia.
      destruct (lookup_lt_is_Some_2 ps0 i) as [p ->]; [lia|]. reflexivity.
    - rewrite lookup_app_r by (rewrite length_map, length_take; lia).
      rewrite length_map, length_take, lookup_drop.
      destruct (ps0 !! _) as [p|] eqn:E; [|reflexivity].
      eapply Forall_lookup_1 in Hfresh; eauto. tauto. }
  rewrite Hnuc.
  assert (nucleusSum ps' (seq 0 k) = mass (take k ps0)) as Hsum.
  { unfold nucleusSum.
    rewrite (ListFacts.fold_seq_lookup (fun s p => num_add s (prob p))) by lia.
    subst ps'. rewrite take_app_le by (rewrite length_map, length_take; lia).
    rewrite take_ge by (rewrite length_map, length_take; lia).
    unfold mass. generalize (take k ps0) (@num_zero A _).
    induction l as [|p l IHl]; intros z; [reflexivity|]. simpl. apply IHl. }
  rewrite Hsum.
  assert (renormalize (mass (take k ps0)) ps' (seq 0 k) = with_nucleus topP ps0) as Hren.
  { unfold renormalize. rewrite ListFacts.fold_alter_seq by lia.
    unfold with_nucleus. fold k. subst ps'.
    rewrite take_app_le by (rewrite length_map, length_take; lia).
    rewrite (take_ge (map set_inNucleus (take k ps0)))
      by (rewrite length_map, length_take; lia).
    rewrite drop_app_ge by (rewrite length_map, length_take; lia).
    rewrite length_map, length_take.
    replace (k - k `min` length ps0)%nat with 0%nat by lia. rewrite drop_0.
    rewrite map_map. reflexivity. }
  rewrite Hren.
  set (ps1 := with_nucleus topP ps0).
  assert (length ps1 = length ps0) as Hlen1.
  { subst ps1. unfold with_nucleus. fold k.
    rewrite length_app, length_map, length_take, length_drop. lia. }
  assert (Forall (fun p => isSampled p = false) ps1) as Hun.
  { subst ps1. unfold with_nucleus. fold k. apply Forall_app. split.
    - apply Forall_forall. intros p Hp.
      apply list_elem_of_In, in_map_iff in Hp as (q & <- & Hq).
      simpl. apply list_elem_of_In in Hq.
      assert (q ∈ ps0) as Hq0 by (eapply subseteq_take; eauto).
      eapply Forall_forall in Hfresh; [|eauto]. tauto.
    - apply Forall_forall. intros p Hp.
      assert (p ∈ ps0) as Hq0 by (eapply subseteq_drop; eauto).
      eapply Forall_forall in Hfresh; [|eauto]. tauto. }
  rewrite (sample_loop_seq r ps1 k 0 num_zero) by lia.
  rewrite drop_0. unfold sampled_index.
  destruct (crossing r num_zero (map nucleusProb (take k ps1))) as [j|] eqn:Ecross; simpl.
  - assert (j < k)%nat as Hj.
    { apply crossing_lt in Ecross. rewrite length_map, length_take in Ecross. lia. }
    rewrite some_sampled_alter by lia. reflexivity.
  - rewrite some_sampled_false by done.
    destruct k as [|k']; [lia|]. reflexivity.
Qed.


(** *** The sort: a permutation, whatever the comparator answers *)

Lemma sort_insert_perm (x : Item A) l : Permutation (sort_insert x l) (x :: l).
Proof.
  induction l as [|y rest IH]; simpl; [reflexivity|].
  destruct (num_lt _ _); [reflexivity|].
  rewrite IH. apply perm_swap.
Qed.

Lemma sort_perm (l : list (Item A)) : Permutation (sort l) l.
Proof.
  unfold sort.
  assert (forall acc, Permutation (fold_left (fun acc x => sort_insert x acc) l acc)
                        (l ++ acc)) as Hacc.
  { induction l as [|x rest IH]; intros acc; simpl; [reflexivity|].
    rewrite IH, sort_insert_perm. symmetry. apply Permutation_middle. }
  rewrite Hacc, app_nil_r. reflexivity.
Qed.

Lemma length_top_items t topK scores :
  length (top_items t topK scores) = (topK `min` length scores)%nat.
Proof.
  unfold top_items. rewrite length_take.
  rewrite (Permutation_length (sort_perm _)).
  unfold indexed_of. rewrite length_imap. reflexivity.
Qed.

Lemma length_softmax_of items : length (softmax_of decodeToken items) = length items.
Proof.
  unfold softmax_of. destruct items as [|first rest]; [reflexivity|].
  unfold exps. rewrite !length_map. reflexivity.
Qed.

Lemma length_with_nucleus topP ps : length (with_nucleus topP ps) = length ps.
Proof.
  unfold with_nucleus.
  rewrite length_app, length_map, length_take, length_drop. lia.
Qed.

Lemma length_predictions_of scores temperature topK topP r :
  length (predictions_of decodeToken scores temperature topK topP r)
  = (topK `min` length scores)%nat.
Proof.
  unfold predictions_of.
  rewrite length_alter, length_with_nucleus, length_softmax_of.
  apply length_top_items.
Qed.

(** The marks of the returned list, position by position. *)
Lemma with_nucleus_lookup topP ps j p :
  Forall (fun p => inNucleus p = false /\ isSampled p = false) ps ->
  with_nucleus topP ps !! j = Some p ->
  inNucleus p = (j <? nucleus_size topP num_zero (map prob ps))%nat /\
  isSampled p = false /\
  exists q, ps !! j = Some q /\ prob p = prob q /\ logit p = logit q /\
            tokenId p = tokenId q /\ word p = word q.
Proof.
  intros Hall. unfold with_nucleus.
  set (k := nucleus_size topP num_zero (map prob ps)).
  assert (k <= length ps)%nat as Hk.
  { subst k. etransitivity; [apply nucleus_size_le|]. rewrite length_map. done. }
  destruct (Nat.ltb_spec j k) as [Hjk|Hjk].
  - rewrite lookup_app_l by (rewrite length_map, length_take; lia).
    rewrite list_lookup_fmap, lookup_take_lt by lia.
    destruct (ps !! j) as [q|] eqn:E; simpl; [|discriminate].
    intros [= <-]. simpl. split; [reflexivity|]. split.
    + eapply Forall_lookup_1 in Hall; eauto. apply Hall.
    + exists q. auto.
  - rewrite lookup_app_r by (rewrite length_map, length_take; lia).
    rewrite length_map, length_take, lookup_drop.
    replace (k + (j - k `min` length ps))%nat with j by lia.
    intros E. pose proof E as E'. eapply Forall_lookup_1 in E'; eauto.
    destruct E' as [E1 E2].
    split; [exact E1|]. split; [exact E2|]. exists p. auto.
Qed.

Lemma top_items_nonempty t topK scores :
  scores <> [] -> (0 < topK)%nat -> top_items t topK scores <> [].
Proof.
  intros Hs Hk Habs. apply (f_equal length) in Habs.
  rewrite length_top_items in Habs. destruct scores; [congruence|].
  simpl in Habs. lia.
Qed.

Lemma computePredictions_returns (h : heap A) logits scores temperature topK topP r :
  h !! logits = Some scores -> scores <> [] -> (0 < topK)%nat ->
  computePredictions decodeToken logits temperature topK topP r h =
  (Ret (predictions_of decodeToken scores temperature topK topP r),
   <[fresh (dom h) := map (scale_value (num_max temperature num_min_temperature)) scores]> h).
Proof.
  intros Hl Hs Hk. rewrite (computePredictions_eq h logits scores) by done.
  pose proof (top_items_nonempty (num_max temperature num_min_temperature) topK scores Hs Hk).
  destruct (top_items _ _ _); [congruence|reflexivity].
Qed.

Lemma computePredictions_result (h : heap A) logits scores temperature topK topP r preds h' :
  h !! logits = Some scores ->
  computePredictions decodeToken logits temperature topK topP r h = (Ret preds, h') ->
  preds = predictions_of decodeToken scores temperature topK topP r /\ preds <> [].
Proof.
  intros Hl. rewrite (computePredictions_eq h logits scores) by done.
  destruct (top_items _ _ _) eqn:E; [discriminate|]. intros [= <- _].
  split; [reflexivity|]. intros Habs. apply (f_equal length) in Habs.
  rewrite length_predictions_of,
    <- (length_top_items (num_max temperature num_min_temperature)), E in Habs.
  discriminate.
Qed.

Lemma map_nucleusProb_alter (ps : list (Prediction A)) j :
  map nucleusProb (alter set_isSampled j ps) = map nucleusProb ps.
Proof.
  revert j. induction ps as [|p rest IH]; intros [|j]; simpl; try reflexivity.
  f_equal. apply IH.
Qed.

(** The structure of every returned list. *)
Lemma predictions_of_shape scores temperature topK topP r :
  let t := num_max temperature num_min_temperature in
  let ps0 := softmax_of decodeToken (top_items t topK scores) in
  let preds := predictions_of decodeToken scores temperature topK topP r in
  let k := nucleus_size topP num_zero (map prob ps0) in
  let chosen := sampled_index r k (with_nucleus topP ps0) in
  preds <> [] ->
  (0 < k <= length preds)%nat /\ (chosen < k)%nat /\
  (forall j p, preds !! j = Some p ->
     inNucleus p = (j <? k)%nat /\ isSampled p = (j =? chosen)%nat /\
     exists q, ps0 !! j = Some q /\ prob p = prob q /\ logit p = logit q /\
               tokenId p = tokenId q /\ word p = word q) /\
  map nucleusProb preds = map nucleusProb (with_nucleus topP ps0).
Proof.
  intros t ps0 preds k chosen Hne.
  assert (length preds = length ps0) as Hlen.
  { subst preds. unfold predictions_of. rewrite length_alter, length_with_nucleus. done. }
  assert (ps0 <> []) as Hne0.
  { intros E. rewrite E in Hlen. destruct preds; [congruence|discriminate]. }
  assert (k <= length ps0)%nat as Hk.
  { subst k. etransitivity; [apply nucleus_size_le|]. rewrite length_map. done. }
  assert (0 < k)%nat as Hk0.
  { subst k. apply nucleus_size_pos. destruct ps0; [congruence|discriminate]. }
  assert (chosen < k)%nat as Hc.
  { subst chosen. unfold sampled_index.
    destruct (crossing _ _ _) as [j|] eqn:E; simpl; [|lia].
    apply crossing_lt in E. rewrite length_map, length_take in E. lia. }
  split; [lia|]. split; [exact Hc|]. split.
  - intros j p Hj. subst preds. unfold predictions_of in Hj.
    fold t ps0 k chosen in Hj.
    pose proof (softmax_of_unsampled (top_items t topK scores)) as Hall. fold ps0 in Hall.
    rewrite list_lookup_alter in Hj. destruct (decide (chosen = j)) as [->|Hcj].
    + destruct (with_nucleus topP ps0 !! j) as [q|] eqn:Eq; simpl in Hj; [|discriminate].
      injection Hj as <-.
      destruct (with_nucleus_lookup topP ps0 j q Hall Eq) as (Hn & _ & q0 & Hq0).
      simpl. rewrite Nat.eqb_refl. split; [exact Hn|]. split; [reflexivity|].
      exists q0. exact Hq0.
    + destruct (with_nucleus_lookup topP ps0 j p Hall Hj) as (Hn & Hs & q0 & Hq0).
      split; [exact Hn|]. split.
      * rewrite Hs. symmetry. apply Nat.eqb_neq. congruence.
      * exists q0. exact Hq0.
  - subst preds. unfold predictions_of. apply map_nucleusProb_alter.
Qed.


Lemma softmax_of_lookup items j q :
  softmax_of decodeToken items !! j = Some q ->
  exists first it,
    head items = Some first /\ items !! j = Some it /\
    tokenId q = idx it /\ logit q = rawLogit it /\ word q = decodeToken (idx it) /\
    prob q = num_div (Math_exp (num_sub (val it) (val first)))
                     (sumExp (exps (val first) items)).
Proof.
  unfold softmax_of. destruct items as [|first rest]; [discriminate|].
  unfold exps at 2. rewrite !list_lookup_fmap.
  destruct ((first :: rest) !! j) as [it|] eqn:E; simpl; [|discriminate].
  intros [= <-]. exists first, it. simpl. auto 10.
Qed.

Lemma indexed_of_lookup t scores i it :
  indexed_of t scores !! i = Some it <->
  exists x, scores !! i = Some x /\
            it = {| val := scale_value t x; rawLogit := x; idx := i |}.
Proof.
  unfold indexed_of. rewrite list_lookup_imap.
  destruct (scores !! i) as [x|]; simpl; split.
  - intros [= <-]. eauto.
  - intros (y & [= <-] & ->). reflexivity.
  - discriminate.
  - intros (y & [=] & _).
Qed.

(** Every returned prediction is the candidate at its position in the
    top-k slice of the sorted array. *)
Lemma predictions_of_item scores temperature topK topP r j p :
  predictions_of decodeToken scores temperature topK topP r !! j = Some p ->
  exists it,
    top_items (num_max temperature num_min_temperature) topK scores !! j = Some it /\
    tokenId p = idx it /\ logit p = rawLogit it /\ word p = decodeToken (idx it).
Proof.
  intros Hj.
  assert (predictions_of decodeToken scores temperature topK topP r <> []) as Hne.
  { intros E. rewrite E in Hj. discriminate. }
  destruct (predictions_of_shape scores temperature topK topP r Hne)
    as (_ & _ & Hshape & _).
  destruct (Hshape j p Hj) as (_ & _ & q & Hq & _ & Hlog & Htok & Hw).
  apply softmax_of_lookup in Hq as (first & it & _ & Hit & Ht & Hl & Hw' & _).
  exists it. split; [exact Hit|]. split; [congruence|]. split; congruence.
Qed.

Lemma predictions_of_probs scores temperature topK topP r :
  map prob (predictions_of decodeToken scores temperature topK topP r)
  = map prob (softmax_of decodeToken
                (top_items (num_max temperature num_min_temperature) topK scores)).
Proof.
  set (preds := predictions_of decodeToken scores temperature topK topP r).
  set (ps0 := softmax_of decodeToken _).
  assert (length preds = length ps0) as Hlen.
  { subst preds. unfold predictions_of.
    rewrite length_alter, length_with_nucleus. done. }
  destruct (decide (preds = [])) as [E|Hne].
  { rewrite E in *. destruct ps0; [reflexivity|discriminate]. }
  destruct (predictions_of_shape scores temperature topK topP r Hne)
    as (_ & _ & Hshape & _).
  fold preds ps0 in Hshape.
  apply list_eq. intros j. rewrite !list_lookup_fmap.
  destruct (preds !! j) as [p|] eqn:Ej.
  - destruct (Hshape j p Ej) as (_ & _ & q & Hq & Hp & _).
    rewrite Hq. simpl. rewrite Hp. reflexivity.
  - apply lookup_ge_None in Ej.
    rewrite (proj2 (lookup_ge_None ps0 j)) by lia. reflexivity.
Qed.

(** C1.  For a non-empty scores array and a positive [topK] --
    whatever the temperature, [topP] and the draw [r], and whatever
    the arithmetic rounds to -- [computePredictions] returns a list
    with exactly one member whose [isSampled] is true.  The nucleus
    members are a prefix of the list; walking them in order and
    accumulating [nucleusProb], the sampled one is the first whose
    cumulative sum is [>= r], and the first nucleus member when no
    cumulative sum reaches [r]. *)
Theorem sampled_exactly_one (h : heap A) logits scores temperature topK topP r :
  h !! logits = Some scores -> scores <> [] -> (0 < topK)%nat ->
  exists preds h',
    computePredictions decodeToken logits temperature topK topP r h = (Ret preds, h') /\
    length (List.filter isSampled preds) = 1%nat /\
    let nucleus := List.filter inNucleus preds in
    let chosen := default 0%nat (crossing r num_zero (map nucleusProb nucleus)) in
    nucleus = take (length nucleus) preds /\
    (chosen < length nucleus)%nat /\
    forall j p, preds !! j = Some p -> (isSampled p = true <-> j = chosen).
Proof.
  intros Hl Hs Hk. eexists _, _. split; [apply computePredictions_returns; done|].
  set (preds := predictions_of decodeToken scores temperature topK topP r).
  assert (preds <> []) as Hne.
  { intros E. apply (f_equal length) in E. subst preds.
    rewrite length_predictions_of in E. destruct scores; [congruence|simpl in E; lia]. }
  destruct (predictions_of_shape scores temperature topK topP r Hne)
    as (Hk' & Hc & Hshape & Hmass).
  fold preds in Hk', Hshape, Hmass.
  set (ps0 := softmax_of decodeToken (top_items (num_max temperature num_min_temperature) topK scores))
    in *.
  set (k := nucleus_size topP num_zero (map prob ps0)) in *.
  set (c := sampled_index r k (with_nucleus topP ps0)) in *.
  assert (List.filter inNucleus preds = take k preds) as Hnuc.
  { apply ListFacts.filter_prefix_of; [lia|]. intros j p Hj. apply (Hshape j p Hj). }
  assert (length (take k preds) = k) as Hlenk by (rewrite length_take; lia).
  assert (default 0%nat (crossing r num_zero (map nucleusProb (take k preds))) = c) as Hch.
  { subst c. unfold sampled_index. rewrite <- !firstn_map.
    rewrite Hmass. reflexivity. }
  split.
  - subst preds. unfold predictions_of.
    apply ListFacts.filter_alter_one.
    + rewrite length_with_nucleus. fold ps0 k.
      replace (length ps0) with (length (predictions_of decodeToken scores temperature topK topP r)).
      * fold ps0 k c. lia.
      * unfold predictions_of. rewrite length_alter, length_with_nucleus. done.
    + apply Forall_forall. intros p Hp. apply list_elem_of_lookup in Hp as [j Hj].
      apply (with_nucleus_lookup topP ps0 j p) in Hj; [tauto|].
      apply softmax_of_unsampled.
    + reflexivity.
  - cbv zeta. rewrite Hnuc, Hlenk, Hch. split; [reflexivity|]. split; [exact Hc|].
    intros j p Hj. destruct (Hshape j p Hj) as (_ & Hsam & _). rewrite Hsam.
    split; [intros E; apply Nat.eqb_eq in E; exact E | intros ->; apply Nat.eqb_refl].
Qed.

(** The nucleus is a non-empty prefix, up to and including the
    crossing element: this holds of every implementation of the
    numbers. *)
Lemma nucleus_prefix (h : heap A) logits scores temperature topK topP r preds h' :
  h !! logits = Some scores ->
  computePredictions decodeToken logits temperature topK topP r h = (Ret preds, h') ->
  let k := nucleus_size topP num_zero (map prob preds) in
  (0 < k <= length preds)%nat /\
  forall j p, preds !! j = Some p -> inNucleus p = (j <? k)%nat.
Proof.
  intros Hl Hres. destruct (computePredictions_result _ _ _ _ _ _ _ _ _ Hl Hres) as [-> Hne].
  destruct (predictions_of_shape scores temperature topK topP r Hne)
    as (Hk' & Hc & Hshape & Hmass).
  set (preds := predictions_of decodeToken scores temperature topK topP r) in *.
  set (ps0 := softmax_of decodeToken (top_items (num_max temperature num_min_temperature) topK scores))
    in *.
  assert (map prob preds = map prob ps0) as Hprob.
  { apply list_eq. intros j. rewrite !list_lookup_fmap.
    destruct (preds !! j) as [p|] eqn:Ej.
    - destruct (Hshape j p Ej) as (_ & _ & q & Hq & Hp & _).
      rewrite Hq. simpl. rewrite Hp. reflexivity.
    - apply lookup_ge_None in Ej.
      assert (length preds = length ps0) as Hlen.
      { subst preds. unfold predictions_of.
        rewrite length_alter, length_with_nucleus. done. }
      rewrite (proj2 (lookup_ge_None ps0 j)) by lia. reflexivity. }
  cbv zeta. rewrite Hprob. split; [exact Hk'|].
  intros j p Hj. apply (Hshape j p Hj).
Qed.

(** *** The heap *)

Lemma scale_loop_others logits scaled t (h : heap A) l :
  l <> scaled -> scale_loop logits scaled t h !! l = h !! l.
Proof.
  intros Hne. unfold scale_loop. generalize (seq 0 (arr_length h logits)) as ixs.
  intros ixs. revert h. induction ixs as [|i ixs IH]; intros h; [reflexivity|].
  simpl. rewrite IH. unfold scale_body, arr_set.
  destruct (arr_get h logits i); [|reflexivity].
  destruct (h !! scaled); [|reflexivity].
  apply lookup_insert_ne. congruence.
Qed.

Lemma computePredictions_heap (h : heap A) logits temperature topK topP r :
  snd (computePredictions decodeToken logits temperature topK topP r h)
  = scale_loop logits (fresh (dom h)) (num_max temperature num_min_temperature)
      (<[fresh (dom h) := replicate (arr_length h logits) num_zero]> h).
Proof.
  unfold computePredictions, new_Float32Array.
  destruct (take topK _); [reflexivity|].
  destruct (some_sampled _ _); [reflexivity|].
  destruct (nucleus_of _); reflexivity.
Qed.

Lemma computePredictions_frame (h : heap A) logits temperature topK topP r :
  h ⊆ snd (computePredictions decodeToken logits temperature topK topP r h).
Proof.
  rewrite computePredictions_heap. apply map_subseteq_spec. intros l x Hl.
  assert (l <> fresh (dom h)) as Hne.
  { intros ->. apply (is_fresh (dom h)). apply elem_of_dom. eauto. }
  rewrite scale_loop_others by done. rewrite lookup_insert_ne by done. exact Hl.
Qed.


(** *** Empty scores, and no scores at all *)

Lemma computePredictions_empty (h : heap A) logits temperature topK topP r :
  h !! logits = Some [] ->
  fst (computePredictions decodeToken logits temperature topK topP r h) = Throw TypeError.
Proof.
  intros Hl. rewrite (computePredictions_eq h logits []) by exact Hl.
  unfold top_items, indexed_of. simpl. destruct topK; reflexivity.
Qed.

Variable Encoded : Type.
Variable tokenize : string -> outcome (list Token * Encoded).
Variable forward : Encoded -> outcome (list A).
Variable getConfig : option ModelConfig.

Lemma run_empty (text : string) (cfg : Config A) (r : A) (s : State A) toks encoded :
  tokenize text = Ret (toks, encoded) -> forward encoded = Ret [] ->
  fst (run decodeToken Encoded tokenize forward getConfig text cfg r s) = Throw TypeError.
Proof.
  intros Ht Hf. unfold run. rewrite Ht, Hf. cbn [arrays lastLogits].
  set (l := fresh (dom (arrays s))).
  pose proof (computePredictions_empty (<[l := []]> (arrays s)) l
                (temperature cfg) (topK cfg) (topP cfg) r) as He.
  rewrite lookup_insert_eq in He. specialize (He eq_refl).
  destruct (computePredictions _ _ _ _ _ _ _) as [[preds|e] h'].
  - discriminate He.
  - simpl in He. injection He as ->. reflexivity.
Qed.

Lemma recompute_without_logits (cfg : Config A) (r : A) (s : State A) :
  lastLogits s = None -> recomputePredictions decodeToken cfg r s = (Ret None, s).
Proof. intros Hl. unfold recomputePredictions. rewrite Hl. reflexivity. Qed.

(** *** The cached logits under repeated recomputation *)

Lemma recompute_frame (cfg : Config A) (r : A) (s : State A) :
  lastLogits (snd (recomputePredictions decodeToken cfg r s)) = lastLogits s /\
  arrays s ⊆ arrays (snd (recomputePredictions decodeToken cfg r s)).
Proof.
  unfold recomputePredictions. destruct (lastLogits s) as [logits|] eqn:El.
  - pose proof (computePredictions_frame (arrays s) logits
                  (temperature cfg) (topK cfg) (topP cfg) r) as Hf.
    destruct (computePredictions _ _ _ _ _ _ _) as [[preds|e] h']; simpl in *;
      (split; [exact El|exact Hf]).
  - simpl. split; [exact El|reflexivity].
Qed.

Lemma recompute_many_frame (calls : list (Config A * A)) (s : State A) :
  lastLogits (recompute_many decodeToken calls s) = lastLogits s /\
  arrays s ⊆ arrays (recompute_many decodeToken calls s).
Proof.
  unfold recompute_many. revert s. induction calls as [|c calls IH]; intros s.
  - split; reflexivity.
  - simpl. destruct (IH (snd (recomputePredictions decodeToken (fst c) (snd c) s)))
      as [IH1 IH2].
    destruct (recompute_frame (fst c) (snd c) s) as [H1 H2].
    split; [congruence|]. etransitivity; eassumption.
Qed.

(** C10.  [computePredictions] never writes the array it is given:
    after the call, returned or thrown, [logits] holds the scores it
    held before, and so does every other array that existed (the
    scaled scores go to an array allocated by the call).  Hence after
    any run of [recomputePredictions] calls, [lastLogits] is the same
    reference and still holds the raw scores of the last inference. *)
Theorem logits_not_mutated :
  (forall (h : heap A) logits scores temperature topK topP r,
     h !! logits = Some scores ->
     snd (computePredictions decodeToken logits temperature topK topP r h) !! logits
     = Some scores) /\
  (forall (h : heap A) logits temperature topK topP r l a,
     h !! l = Some a ->
     snd (computePredictions decodeToken logits temperature topK topP r h) !! l = Some a) /\
  (forall (calls : list (Config A * A)) (s : State A) logits scores,
     lastLogits s = Some logits -> arrays s !! logits = Some scores ->
     lastLogits (recompute_many decodeToken calls s) = Some logits /\
     arrays (recompute_many decodeToken calls s) !! logits = Some scores).
Proof.
  split; [|split].
  - intros h logits scores temperature topK topP r Hl.
    eapply lookup_weaken; [exact Hl|apply computePredictions_frame].
  - intros h logits temperature topK topP r l a Hl.
    eapply lookup_weaken; [exact Hl|apply computePredictions_frame].
  - intros calls s logits scores Hl Ha.
    destruct (recompute_many_frame calls s) as [H1 H2]. split; [congruence|].
    eapply lookup_weaken; eassumption.
Qed.

End Generic.
End SamplerFacts.

(** ** The sampler in exact arithmetic *)
Module ExactFacts.
Import Pipeline SamplerSpec SamplerFacts.

Lemma Qlt_bool_iff (a b : Q) : ExactNum.Qlt_bool a b = true <-> (a < b)%Q.
Proof.
  unfold ExactNum.Qlt_bool. rewrite negb_true_iff. split.
  - intros E. apply Qnot_le_lt. intros Hle. apply Qle_bool_iff in Hle. congruence.
  - intros Hlt. destruct (Qle_bool b a) eqn:E; [|reflexivity].
    apply Qle_bool_iff in E. apply Qlt_not_le in Hlt. contradiction.
Qed.

Lemma Qlt_bool_false (a b : Q) : ExactNum.Qlt_bool a b = false <-> (b <= a)%Q.
Proof.
  unfold ExactNum.Qlt_bool. rewrite negb_false_iff. apply Qle_bool_iff.
Qed.

Lemma Qle_bool_false (a b : Q) : Qle_bool a b = false <-> (b < a)%Q.
Proof.
  split.
  - intros E. apply Qnot_le_lt. intros Hle. apply Qle_bool_iff in Hle. congruence.
  - intros Hlt. destruct (Qle_bool a b) eqn:E; [|reflexivity].
    apply Qle_bool_iff in E. apply Qlt_not_le in Hlt. contradiction.
Qed.

Section Exact.
Variable exp : Q -> Q.
Variable round32 : Q -> Q.
Variable decodeToken : nat -> string.

#[local] Hint Extern 0 (Num Q) =>
  exact (ExactNum.instance exp round32) : typeclass_instances.

Open Scope Q_scope.

Lemma sort_insert_sorted (x : Item Q) (acc : list (Item Q)) :
  StronglySorted item_before acc ->
  Forall (fun y => (idx y < idx x)%nat) acc ->
  StronglySorted item_before (sort_insert x acc).
Proof.
  induction acc as [|y rest IH]; intros Hs Hidx; simpl.
  - repeat constructor.
  - apply StronglySorted_inv in Hs as [Hs Hy].
    apply Forall_cons in Hidx as [Hyx Hidx].
    change (num_lt num_zero (compare_items y x))
      with (ExactNum.Qlt_bool 0 (val x - val y)).
    destruct (ExactNum.Qlt_bool 0 (val x - val y)) eqn:E.
    + apply Qlt_bool_iff in E. constructor; [constructor; assumption|].
      constructor.
      * left. lra.
      * eapply Forall_impl; [exact Hy|]. intros z [Hz|[Hz _]]; left; lra.
    + apply Qlt_bool_false in E. constructor; [apply IH; assumption|].
      rewrite (sort_insert_perm x rest). constructor; [|exact Hy].
      destruct (Qlt_le_dec (val x) (val y)) as [Hlt|Hle].
      * left. exact Hlt.
      * right. split; [lra|exact Hyx].
Qed.

Lemma sort_fold_sorted (l acc : list (Item Q)) :
  StronglySorted item_before acc ->
  StronglySorted (fun a b => (idx a < idx b)%nat) l ->
  (forall y x, y ∈ acc -> x ∈ l -> (idx y < idx x)%nat) ->
  StronglySorted item_before (fold_left (fun acc x => sort_insert x acc) l acc).
Proof.
  revert acc. induction l as [|x rest IH]; intros acc Hs Hl Hlt; simpl; [exact Hs|].
  apply StronglySorted_inv in Hl as [Hl Hx].
  apply IH; [|exact Hl|].
  - apply sort_insert_sorted; [exact Hs|].
    apply Forall_forall. intros y Hy. apply Hlt; [exact Hy|left].
  - intros y z Hy Hz. rewrite (sort_insert_perm x acc) in Hy.
    apply elem_of_cons in Hy as [->|Hy].
    + eapply Forall_forall in Hx; eauto.
    + apply Hlt; [exact Hy|right; exact Hz].
Qed.

Lemma indexed_of_increasing (t : Q) (scores : list Q) :
  StronglySorted (fun a b => (idx a < idx b)%nat) (indexed_of t scores).
Proof.
  unfold indexed_of.
  assert (forall n, StronglySorted (fun a b : Item Q => (idx a < idx b)%nat)
            (imap (fun i x => {| val := scale_value t x; rawLogit := x; idx := n + i |})
                  scores)) as Hn.
  { induction scores as [|x rest IH]; intros n; [constructor|].
    rewrite imap_cons. constructor.
    - erewrite imap_ext; [apply (IH (S n))|]. intros i y _. simpl. f_equal. lia.
    - apply Forall_forall. intros it Hit.
      apply list_elem_of_lookup in Hit as [i Hi].
      rewrite list_lookup_imap in Hi.
      destruct (rest !! i); simpl in Hi; [|discriminate].
      injection Hi as <-. simpl. lia. }
  exact (Hn 0%nat).
Qed.

Lemma sort_sorted (t : Q) (scores : list Q) :
  StronglySorted item_before (sort (indexed_of t scores)).
Proof.
  unfold sort. apply sort_fold_sorted.
  - constructor.
  - apply indexed_of_increasing.
  - intros y x Hy. inversion Hy.
Qed.


Lemma StronglySorted_lookup {X : Type} (R : X -> X -> Prop) (l : list X) i j a b :
  StronglySorted R l -> (i < j)%nat -> l !! i = Some a -> l !! j = Some b -> R a b.
Proof.
  intros Hs. revert i j. induction Hs as [|x l Hs IH Hx]; intros i j Hij Hi Hj.
  - discriminate.
  - destruct j as [|j]; [lia|]. simpl in Hj. destruct i as [|i].
    + injection Hi as <-. eapply Forall_lookup_1; eauto.
    + simpl in Hi. eapply (IH i j); eauto. lia.
Qed.

(** C2, for a non-empty scores array.  With exact arithmetic, a
    non-empty scores array and a positive [topK], [computePredictions]
    returns [min topK |scores|] predictions; each is a candidate of
    the input, with its raw score; the list is in descending order of
    the scaled score held in [scaled], equal scores in ascending order
    of original index; and every candidate left out is ranked after
    every candidate returned. *)
Theorem top_k_ranked (h : heap Q) logits scores temperature topK topP r :
  h !! logits = Some scores -> scores <> [] -> (0 < topK)%nat ->
  let scaled x := round32 (x / ExactNum.Qmax_bool temperature (1 # 100)) in
  exists preds h',
    computePredictions decodeToken logits temperature topK topP r h = (Ret preds, h') /\
    length preds = (topK `min` length scores)%nat /\
    (forall j p, preds !! j = Some p -> scores !! tokenId p = Some (logit p)) /\
    (forall i j p q, (i < j)%nat -> preds !! i = Some p -> preds !! j = Some q ->
       outranks scaled (tokenId p) (logit p) (tokenId q) (logit q)) /\
    (forall c x, scores !! c = Some x -> c ∉ map tokenId preds ->
       forall p, p ∈ preds -> outranks scaled (tokenId p) (logit p) c x).
Proof.
  intros Hl Hs Hk scaled.
  set (t := ExactNum.Qmax_bool temperature (1 # 100)). eexists _, _.
  split; [apply computePredictions_returns; done|].
  split; [apply length_predictions_of|].
  set (preds := predictions_of decodeToken scores temperature topK topP r).
  pose proof (sort_sorted t scores) as Hsorted.
  pose proof (sort_perm (indexed_of t scores)) as Hperm.
  assert (forall it, it ∈ sort (indexed_of t scores) ->
            scores !! idx it = Some (rawLogit it) /\ val it = scaled (rawLogit it)) as Hmem.
  { intros it Hit. rewrite Hperm in Hit. apply list_elem_of_lookup in Hit as [i Hi].
    apply indexed_of_lookup in Hi as (x & Hx & ->). simpl. split; [exact Hx|reflexivity]. }
  assert (forall j p, preds !! j = Some p ->
            exists it, take topK (sort (indexed_of t scores)) !! j = Some it /\
                       tokenId p = idx it /\ logit p = rawLogit it) as Hitem.
  { intros j p Hj. apply predictions_of_item in Hj as (it & Hit & Ht & Hlg & _).
    exists it. split; [exact Hit|]. split; assumption. }
  assert (forall a b, item_before a b ->
            val a = scaled (rawLogit a) -> val b = scaled (rawLogit b) ->
            outranks scaled (idx a) (rawLogit a) (idx b) (rawLogit b)) as Hout.
  { intros a b Hab Ha Hb. unfold outranks. rewrite <- Ha, <- Hb. exact Hab. }
  split; [|split].
  - intros j p Hj. destruct (Hitem j p Hj) as (it & Hit & -> & ->).
    apply Hmem. apply list_elem_of_lookup_2 in Hit.
    eapply subseteq_take; eauto.
  - intros i j p q Hij Hp Hq.
    destruct (Hitem i p Hp) as (a & Ha & -> & ->).
    destruct (Hitem j q Hq) as (b & Hb & -> & ->).
    assert (a ∈ sort (indexed_of t scores)) as Hain
      by (eapply subseteq_take, list_elem_of_lookup_2; eauto).
    assert (b ∈ sort (indexed_of t scores)) as Hbin
      by (eapply subseteq_take, list_elem_of_lookup_2; eauto).
    apply Hout; [|apply Hmem; done|apply Hmem; done].
    rewrite <- (take_drop topK (sort (indexed_of t scores))) in Hsorted.
    apply StronglySorted_app_1_l in Hsorted.
    eapply StronglySorted_lookup; eauto.
  - intros c x Hc Hnot p Hp.
    apply list_elem_of_lookup in Hp as [j Hj].
    destruct (Hitem j p Hj) as (a & Ha & -> & ->).
    assert (a ∈ take topK (sort (indexed_of t scores))) as Hain
      by (eapply list_elem_of_lookup_2; eauto).
    set (b := {| val := scale_value t x; rawLogit := x; idx := c |}).
    assert (b ∈ sort (indexed_of t scores)) as Hbin.
    { rewrite Hperm. apply list_elem_of_lookup. exists c.
      apply indexed_of_lookup. eauto. }
    rewrite <- (take_drop topK (sort (indexed_of t scores))) in Hbin, Hsorted.
    apply elem_of_app in Hbin as [Hbin|Hbin].
    + exfalso. apply Hnot. apply list_elem_of_lookup in Hbin as [i Hi].
      assert (exists p', preds !! i = Some p') as [p' Hp'].
      { apply lookup_lt_is_Some. subst preds. rewrite length_predictions_of.
        apply lookup_lt_Some in Hi. rewrite length_take in Hi.
        rewrite (Permutation_length Hperm) in Hi. unfold indexed_of in Hi.
        rewrite length_imap in Hi. lia. }
      destruct (Hitem i p' Hp') as (b' & Hb' & Htok & _).
      rewrite Hi in Hb'. injection Hb' as <-.
      apply list_elem_of_In, in_map_iff. exists p'. split; [exact Htok|].
      apply list_elem_of_In. eapply list_elem_of_lookup_2; eauto.
    + change c with (idx b). change x with (rawLogit b). apply Hout.
      * eapply StronglySorted_app_1_elem_of; eauto.
      * apply Hmem. eapply subseteq_take; eauto.
      * reflexivity.
Qed.


(** *** The nucleus for [topP >= 1] *)

Lemma Qsum_pos (l : list Q) : Forall (fun e => 0 < e) l -> l <> [] -> 0 < Qsum l.
Proof.
  induction 1 as [|e rest He Hrest IH]; intros Hne; [congruence|].
  simpl. destruct rest as [|e' rest'].
  - simpl. lra.
  - assert (0 < Qsum (e' :: rest')) by (apply IH; discriminate). lra.
Qed.

Lemma fold_left_Qsum (l : list (Item Q * Q)) (c : Q) :
  fold_left (fun sum e => sum + snd e) l c == c + Qsum (map snd l).
Proof.
  revert c. induction l as [|e rest IH]; intros c; simpl; [lra|].
  rewrite IH. lra.
Qed.

Lemma crossing_last (bound S : Q) (es : list Q) : forall (c cum : Q) (j : nat),
  0 < S -> 1 <= bound -> Forall (fun e => 0 < e) es ->
  c + Qsum es == S -> cum == c / S ->
  crossing bound cum (map (fun e => e / S) es) = Some j ->
  Datatypes.S j = length es.
Proof.
  induction es as [|e rest IH]; intros c cum j HS Hb Hpos Hsum Hcum; simpl; [discriminate|].
  apply Forall_cons in Hpos as [He Hrest].
  change (num_le bound (num_add cum (e / S))) with (Qle_bool bound (cum + e / S)).
  change (num_add cum (e / S)) with (cum + e / S).
  assert (cum + e / S == (c + e) / S) as Hcum'.
  { rewrite Hcum. field. lra. }
  destruct (Qle_bool bound (cum + e / S)) eqn:E.
  - intros [= <-]. apply Qle_bool_iff in E.
    destruct rest as [|e' rest']; [reflexivity|exfalso].
    assert (0 < Qsum (e' :: rest')) as Hp by (apply Qsum_pos; [done|discriminate]).
    simpl in Hsum.
    assert (1 <= (c + e) / S) as H1 by (rewrite <- Hcum'; lra).
    apply (Qmult_le_compat_r _ _ S) in H1; [|lra].
    rewrite Qmult_1_l in H1.
    assert ((c + e) / S * S == c + e) as Hd by (field; lra).
    rewrite Hd in H1. simpl in Hp. lra.
  - destruct (crossing bound (cum + e / S) (map (fun e0 => e0 / S) rest)) as [j'|] eqn:Ec;
      simpl; [|discriminate].
    intros [= <-]. f_equal.
    apply (IH (c + e) (cum + e / S) j'); try assumption.
    simpl in Hsum. lra.
Qed.

Lemma nucleus_all (topP : Q) (items : list (Item Q)) :
  (forall x, 0 < exp x) -> 1 <= topP ->
  nucleus_size topP num_zero (map prob (softmax_of decodeToken items))
  = length (softmax_of decodeToken items).
Proof.
  intros Hexp Hp. unfold nucleus_size.
  destruct (crossing _ _ _) as [j|] eqn:E; [|apply length_map].
  unfold softmax_of in *. destruct items as [|first rest]; [discriminate|].
  set (es := exps (val first) (first :: rest)) in *.
  rewrite map_map in E. simpl in E.
  change (map (fun x : Item Q * Q => num_div (snd x) (sumExp es)) es)
    with (map (fun x : Item Q * Q => snd x / sumExp es) es) in E.
  rewrite <- (map_map snd (fun e => e / sumExp es)) in E.
  assert (Forall (fun e => 0 < e) (map snd es)) as Hpos.
  { apply Forall_forall. intros e He.
    apply list_elem_of_In, in_map_iff in He as (x & <- & Hx).
    subst es. unfold exps in Hx. apply in_map_iff in Hx as (it & <- & _).
    simpl. apply Hexp. }
  assert (sumExp es == 0 + Qsum (map snd es)) as Hsum.
  { unfold sumExp. apply fold_left_Qsum. }
  assert (0 < sumExp es) as HS.
  { rewrite Hsum.
    assert (0 < Qsum (map snd es)); [|lra].
    apply Qsum_pos; [exact Hpos|]. subst es. discriminate. }
  rewrite !length_map.
  rewrite <- (length_map snd es).
  apply (crossing_last topP (sumExp es) (map snd es) 0 0 j); try assumption.
  - symmetry. exact Hsum.
  - field. lra.
Qed.


Lemma sumExp_pos (first : Item Q) (items : list (Item Q)) :
  (forall x, 0 < exp x) -> items <> [] -> 0 < sumExp (exps (val first) items).
Proof.
  intros Hexp Hne. unfold sumExp.
  rewrite (fold_left_Qsum (exps (val first) items) 0).
  assert (0 < Qsum (map snd (exps (val first) items))); [|lra].
  apply Qsum_pos.
  - apply Forall_forall. intros e He.
    apply list_elem_of_In, in_map_iff in He as (x & <- & Hx).
    unfold exps in Hx. apply in_map_iff in Hx as (it & <- & _). simpl. apply Hexp.
  - destruct items; [congruence|discriminate].
Qed.

(** With exact arithmetic and a positive, monotone [exp]: the list
    is in descending order of probability, and [topP >= 1] takes the
    whole list into the nucleus. *)
Lemma exact_nucleus (h : heap Q) logits scores temperature topK topP r preds h' :
  (forall x, 0 < exp x) -> (forall x y, x <= y -> exp x <= exp y) ->
  h !! logits = Some scores ->
  computePredictions decodeToken logits temperature topK topP r h = (Ret preds, h') ->
  (forall i j p q, (i < j)%nat -> preds !! i = Some p -> preds !! j = Some q ->
     prob q <= prob p) /\
  (1 <= topP -> Forall (fun p => inNucleus p = true) preds).
Proof.
  intros Hpos Hmono Hl Hres.
  destruct (computePredictions_result _ _ _ _ _ _ _ _ _ _ Hl Hres) as [-> Hne].
  set (t := num_max temperature num_min_temperature).
  destruct (predictions_of_shape decodeToken scores temperature topK topP r Hne)
    as (Hk & _ & Hshape & _).
  fold t in Hk, Hshape.
  set (items := top_items t topK scores) in *.
  split.
  - intros i j p q Hij Hp Hq.
    destruct (Hshape i p Hp) as (_ & _ & p0 & Hp0 & -> & _).
    destruct (Hshape j q Hq) as (_ & _ & q0 & Hq0 & -> & _).
    apply softmax_of_lookup in Hp0 as (first & a & Hfirst & Ha & _ & _ & _ & ->).
    apply softmax_of_lookup in Hq0 as (first' & b & Hfirst' & Hb & _ & _ & _ & ->).
    rewrite Hfirst in Hfirst'. injection Hfirst' as <-.
    assert (item_before a b) as Hab.
    { pose proof (sort_sorted t scores) as Hs.
      rewrite <- (take_drop topK (sort (indexed_of t scores))) in Hs.
      apply StronglySorted_app_1_l in Hs.
      eapply StronglySorted_lookup; eauto. }
    assert (val b <= val a) as Hle by (destruct Hab as [Hlt|[Heq _]]; lra).
    assert (0 < sumExp (exps (val first) items)) as HS.
    { apply sumExp_pos; [exact Hpos|]. intros E. rewrite E in Ha. discriminate. }
    change (exp (val b - val first) / sumExp (exps (val first) items)
            <= exp (val a - val first) / sumExp (exps (val first) items)).
    apply Qmult_le_compat_r.
    + apply Hmono. lra.
    + apply Qlt_le_weak, Qinv_lt_0_compat, HS.
  - intros Htop. apply Forall_lookup. intros j p Hj.
    destruct (Hshape j p Hj) as (Hn & _). rewrite Hn.
    apply Nat.ltb_lt. apply lookup_lt_Some in Hj.
    rewrite (nucleus_all topP items Hpos Htop).
    rewrite length_predictions_of in Hj. rewrite length_softmax_of.
    subst items. rewrite length_top_items. exact Hj.
Qed.

End Exact.
End ExactFacts.

(** ** The camera *)
Module CameraFacts.
Import Viz SceneSpec.
Open Scope Q_scope.

Lemma clamp_bounds (v lo hi : Q) : lo <= hi -> lo <= clamp v lo hi <= hi.
Proof.
  intros Hle. unfold clamp.
  destruct (Q.min_spec (Qmax v lo) hi) as [[H1 H2]|[H1 H2]]; rewrite H2.
  - split; [apply Q.le_max_r|apply Qlt_le_weak; exact H1].
  - split; [exact Hle|apply Qle_refl].
Qed.

Lemma autofit_bounds (a b : Q) :
  3 # 10 <= Qmax (Qmin (Qmin a b) (15 # 10)) (3 # 10) <= 15 # 10.
Proof.
  split; [apply Q.le_max_r|].
  apply Q.max_lub; [apply Q.le_min_r|]. unfold Qle. simpl. lia.
Qed.

Section WithPayload.
Context {A : Type} `{Num A}.
Variable toFixed : A -> nat -> string.
Variable trim : string -> string.

Lemma step_zoom_ok (s : State A) (e : Event A) :
  zoom_ok s -> zoom_ok (step toFixed trim s e).
Proof.
  unfold zoom_ok. intros Hs. destruct e; simpl; try exact Hs.
  - unfold build.
    destruct (fold_left _ _ _) as [x cols]. simpl.
    match goal with |- _ <= Qmax (Qmin (Qmin ?a ?b) _) _ <= _ =>
      pose proof (autofit_bounds a b) as [H1 H2] end.
    split; lra.
  - unfold updatePredictions. destruct (columns s); [exact Hs|]. exact Hs.
  - apply clamp_bounds. unfold Qle. simpl. lia.
  - unfold handleMouseMove. destruct (isDragging s); simpl; [exact Hs|].
    destruct (scene_point _ _ _) as [[mx my]|]; simpl; exact Hs.
  - apply clamp_bounds. unfold Qle. simpl. lia.
  - apply clamp_bounds. unfold Qle. simpl. lia.
  - unfold resetView. destruct (columns s); [exact Hs|].
    destruct (_ ++ _) as [|x0 xs]; [simpl; split; unfold Qle; simpl; lia|].
    destruct (_ ++ _) as [|y0 ys]; [simpl; split; unfold Qle; simpl; lia|].
    simpl.
    match goal with |- _ <= Qmax (Qmin (Qmin ?a ?b) _) _ <= _ =>
      pose proof (autofit_bounds a b) as [H1 H2] end.
    split; lra.
  - unfold animate. destruct (isAnimating s); exact Hs.
Qed.

Lemma run_zoom_ok (evs : list (Event A)) (s : State A) :
  zoom_ok s -> zoom_ok (run toFixed trim evs s).
Proof.
  revert s. induction evs as [|e evs IH]; intros s Hs; simpl; [exact Hs|].
  apply IH, step_zoom_ok, Hs.
Qed.

(** C5.  From the initial scale 1, after any sequence of calls --
    wheel zoom, [zoomIn], [zoomOut], the auto-fit of [build],
    [resetView], and all the calls that do not write the scale --
    the camera scale is within [0.15, 4]. *)
Theorem zoom_always_in_bounds (w h rl rt : Q) (evs : list (Event A)) :
  15 # 100 <= zoom (run toFixed trim evs (initial w h rl rt)) <= 4.
Proof.
  apply run_zoom_ok. unfold zoom_ok. simpl. split; unfold Qle; simpl; lia.
Qed.

(** C6.  [handleWheel] sets [zoom] to the clamped new scale and each
    pan offset to [m - (m - pan) * (zoom / prevZoom)]; the inverse
    transform [(m - pan) / zoom] then gives the scene coordinate under
    the pointer it gave before, exactly, on both axes.  The scale
    before the call is not zero (it never is, by C5) and the pan
    offsets are numbers. *)
Theorem wheel_keeps_anchor (s : State A) (clientX clientY deltaY px py : Q) :
  panX s = Some px -> panY s = Some py -> ~ zoom s == 0 ->
  let s' := handleWheel clientX clientY deltaY s in
  let mx := clientX - rect_left s in
  let my := clientY - rect_top s in
  let delta := if ExactNum.Qlt_bool 0 deltaY then 9 # 10 else 11 # 10 in
  zoom s' = clamp (zoom s * delta) (15 # 100) 4 /\
  exists px' py',
    panX s' = Some px' /\ panY s' = Some py' /\
    px' = mx - (mx - px) * (zoom s' / zoom s) /\
    py' = my - (my - py) * (zoom s' / zoom s) /\
    (mx - px') / zoom s' == (mx - px) / zoom s /\
    (my - py') / zoom s' == (my - py) / zoom s.
Proof.
  intros Hpx Hpy Hz. cbv zeta. unfold handleWheel. simpl. rewrite Hpx, Hpy. simpl.
  split; [reflexivity|]. eexists _, _. split; [reflexivity|]. split; [reflexivity|].
  split; [reflexivity|]. split; [reflexivity|].
  set (z' := clamp _ _ _).
  assert (15 # 100 <= z' <= 4) as Hz'.
  { apply clamp_bounds. unfold Qle. simpl. lia. }
  assert (~ z' == 0) as Hz0 by lra.
  split; field; split; assumption.
Qed.

End WithPayload.
End CameraFacts.

(** ** The scene and its partial update *)
Module SceneFacts.
Import Viz SceneSpec.
Open Scope Q_scope.

Section WithPayload.
Context {A : Type} `{Num A}.
Variable toFixed : A -> nat -> string.
Variable trim : string -> string.


(** *** [updatePredictions] *)

Lemma length_update_nodes preds (nodes : list (Node A)) :
  length (update_nodes toFixed preds nodes) = length nodes.
Proof.
  unfold update_nodes. generalize (imap pair preds) as ips. intros ips. revert nodes.
  induction ips as [|ip ips IH]; intros nodes; [reflexivity|].
  simpl. rewrite IH. destruct (_ <? _)%nat; [apply length_alter|reflexivity].
Qed.

Lemma patch_step_lookup (ns : list (Node A)) (k : nat) p i :
  (if (k <? length ns)%nat then alter (patch_node toFixed p) k ns else ns) !! i =
  if decide (i = k) then patch_node toFixed p <$> ns !! i else ns !! i.
Proof.
  destruct (decide (i = k)) as [->|Hik].
  - destruct (Nat.ltb_spec k (length ns)) as [Hlt|Hge].
    + apply list_lookup_alter_eq.
    + rewrite (proj2 (lookup_ge_None ns k)) by lia. reflexivity.
  - destruct (k <? length ns)%nat; [|reflexivity].
    apply list_lookup_alter_ne. congruence.
Qed.

Lemma update_nodes_lookup preds (nodes : list (Node A)) i :
  update_nodes toFixed preds nodes !! i =
  match preds !! i with
  | Some p => patch_node toFixed p <$> nodes !! i
  | None => nodes !! i
  end.
Proof.
  revert i. induction preds as [|p preds IH] using rev_ind; intros i.
  - reflexivity.
  - unfold update_nodes. rewrite imap_app, fold_left_app.
    fold (update_nodes toFixed preds nodes). simpl.
    rewrite (patch_step_lookup (update_nodes toFixed preds nodes)), !IH.
    rewrite Nat.add_0_r.
    destruct (decide (i = length preds)) as [->|Hik].
    + rewrite lookup_app_r by lia. rewrite Nat.sub_diag. simpl.
      rewrite (proj2 (lookup_ge_None preds (length preds))) by lia. reflexivity.
    + destruct (Nat.lt_ge_cases i (length preds)) as [Hlt|Hge].
      * rewrite lookup_app_l by lia. reflexivity.
      * rewrite (proj2 (lookup_ge_None preds i)) by lia.
        rewrite (proj2 (lookup_ge_None (preds ++ [p]) i)); [reflexivity|].
        rewrite length_app. simpl. lia.
Qed.


Lemma updatePredictions_columns_eq predictions (s : State A) :
  columns (updatePredictions toFixed predictions s) =
  match columns s with
  | [] => []
  | _ :: _ =>
      match list_find (fun c => col_type c = logit) (columns s) with
      | Some (k, _) => alter (update_column toFixed predictions) k (columns s)
      | None => columns s
      end
  end.
Proof.
  unfold updatePredictions. destruct (columns s) eqn:E; [exact E|reflexivity].
Qed.

Lemma updatePredictions_columns predictions (s : State A) c col :
  columns s !! c = Some col ->
  exists col',
    columns (updatePredictions toFixed predictions s) !! c = Some col' /\
    (col' = col \/
     (col_type col = logit /\ col' = update_column toFixed predictions col /\
      exists col0, list_find (fun c => col_type c = logit) (columns s) = Some (c, col0))).
Proof.
  intros Hc. rewrite updatePredictions_columns_eq.
  destruct (columns s) as [|c0 cs] eqn:Ecols; [discriminate|].
  rewrite <- Ecols in *.
  destruct (list_find _ (columns s)) as [[k colk]|] eqn:Efind.
  - destruct (decide (k = c)) as [->|Hne].
    + rewrite list_lookup_alter_eq, Hc. simpl. eexists. split; [reflexivity|].
      right. apply list_find_Some in Efind as (Hk & Ht & _).
      rewrite Hc in Hk. injection Hk as <-. eauto.
    + rewrite list_lookup_alter_ne by done. eauto.
  - eauto.
Qed.

Lemma updatePredictions_bars predictions (s : State A) i :
  outputBars (updatePredictions toFixed predictions s) !! i =
  match columns s with
  | [] => outputBars s !! i
  | _ :: _ =>
      (fun bar => match predictions !! i with
                  | Some p => patch_bar i p bar
                  | None => bar
                  end) <$> outputBars s !! i
  end.
Proof.
  unfold updatePredictions. destruct (columns s); [reflexivity|].
  simpl. unfold update_bars. apply list_lookup_imap.
Qed.

Lemma updatePredictions_length predictions (s : State A) :
  length (columns (updatePredictions toFixed predictions s)) = length (columns s).
Proof.
  rewrite updatePredictions_columns_eq. destruct (columns s) eqn:E; [reflexivity|].
  destruct (list_find _ _) as [[k colk]|]; [apply length_alter|reflexivity].
Qed.

(** A bar is the winner exactly when it is the first: [build] writes
    the flag so and [updatePredictions] rewrites it so. *)
Lemma step_winner_first (s : State A) (e : Event A) :
  (forall i bar, outputBars s !! i = Some bar -> bar_isWinner bar = Nat.eqb i 0) ->
  forall i bar, outputBars (step toFixed trim s e) !! i = Some bar ->
                bar_isWinner bar = Nat.eqb i 0.
Proof.
  intros Hs i bar. destruct e; simpl; try apply Hs.
  - unfold build. destruct (fold_left _ _ _) as [x cols]. simpl.
    rewrite list_lookup_imap.
    destruct (predictions !! i); simpl; [|discriminate]. intros [= <-]. reflexivity.
  - rewrite updatePredictions_bars. destruct (columns s); [apply Hs|].
    destruct (outputBars s !! i) as [b|] eqn:Eb; simpl; [|discriminate].
    destruct (predictions !! i); intros [= <-]; [reflexivity|apply Hs, Eb].
  - unfold handleMouseMove. destruct (isDragging s); simpl; [apply Hs|].
    destruct (scene_point _ _ _) as [[mx my]|]; apply Hs.
  - discriminate.
  - unfold resetView. destruct (columns s); [apply Hs|].
    destruct (_ ++ _); [apply Hs|]. destruct (_ ++ _); apply Hs.
  - unfold animate. destruct (isAnimating s); apply Hs.
Qed.

Lemma run_winner_first (evs : list (Event A)) (s : State A) :
  (forall i bar, outputBars s !! i = Some bar -> bar_isWinner bar = Nat.eqb i 0) ->
  forall i bar, outputBars (run toFixed trim evs s) !! i = Some bar ->
                bar_isWinner bar = Nat.eqb i 0.
Proof.
  revert s. induction evs as [|e evs IH]; intros s Hs; simpl; [exact Hs|].
  apply IH. apply step_winner_first. exact Hs.
Qed.

(** *** The hovered node is the node object *)

Lemma find_bar_is_bar mx my (bars : list (OutputBar A)) : forall i0 f,
  find_bar mx my i0 bars = Some f -> exists i b, f = FoundBar i b.
Proof.
  induction bars as [|b bars IH]; intros i0 f Hf; [discriminate Hf|].
  cbn [find_bar] in Hf. destruct (in_circle _ _ _ _ _).
  - injection Hf as <-. eauto.
  - eapply IH. exact Hf.
Qed.

Lemma find_node_member mx my c (nodes : list (Node A)) : forall i0 f,
  find_node mx my c i0 nodes = Some f ->
  exists i n, f = FoundNode c (i0 + i) n /\ nodes !! i = Some n.
Proof.
  induction nodes as [|n nodes IH]; intros i0 f Hf; [discriminate Hf|].
  cbn [find_node] in Hf. destruct (in_circle _ _ _ _ _).
  - injection Hf as <-. exists 0%nat, n. rewrite Nat.add_0_r. split; reflexivity.
  - destruct (IH (S i0) f Hf) as (i & n' & -> & Hn).
    exists (S i), n'. split; [f_equal; lia|exact Hn].
Qed.

Lemma find_in_columns_member mx my (cols : list (Column A)) : forall c0 f,
  find_in_columns mx my c0 cols = Some f ->
  exists c col i n, f = FoundNode (c0 + c) i n /\
    cols !! c = Some col /\ col_nodes col !! i = Some n.
Proof.
  induction cols as [|col cols IH]; intros c0 f Hf; [discriminate Hf|].
  cbn [find_in_columns] in Hf.
  destruct (find_node mx my c0 0 (col_nodes col)) as [f'|] eqn:E.
  - injection Hf as <-. destruct (find_node_member _ _ _ _ _ _ E) as (i & n & -> & Hn).
    exists 0%nat, col, i, n. rewrite Nat.add_0_r. repeat split. exact Hn.
  - destruct (IH (S c0) f Hf) as (c & col' & i & n & -> & Hc & Hn).
    exists (S c), col', i, n. split; [f_equal; lia|]. split; [exact Hc|exact Hn].
Qed.

Lemma hit_test_member (cols : list (Column A)) bars mx my c i n :
  hit_test cols bars mx my = Some (FoundNode c i n) ->
  exists col, cols !! c = Some col /\ col_nodes col !! i = Some n.
Proof.
  unfold hit_test. intros Hf.
  destruct (find_bar mx my 0 bars) as [f|] eqn:E.
  - destruct (find_bar_is_bar _ _ _ _ _ E) as (j & b & ->). discriminate Hf.
  - destruct (find_in_columns_member _ _ _ _ _ Hf) as (c' & col & i' & n' & E' & Hc & Hn).
    injection E' as -> -> ->. exists col. split; [exact Hc|exact Hn].
Qed.

(** A node after the update: where it was, and what it shows. *)
Lemma updatePredictions_node predictions (s : State A) c col i n :
  columns s !! c = Some col -> col_nodes col !! i = Some n ->
  exists col' n',
    columns (updatePredictions toFixed predictions s) !! c = Some col' /\
    col_nodes col' !! i = Some n' /\
    node_same_place n n' /\
    ((forall colc, ~ first_logit_column s c colc) -> n' = n) /\
    (predictions !! i = None -> n' = n) /\
    (forall p, predictions !! i = Some p -> first_logit_column s c col ->
       node_shows toFixed p n').
Proof.
  intros Hc Hn.
  destruct (updatePredictions_columns predictions s c col Hc) as (col' & Hc' & Hcases).
  destruct Hcases as [->|(Ht & -> & col0 & Hfind)].
  - exists col, n. split; [exact Hc'|]. split; [exact Hn|]. split; [repeat split|].
    split; [reflexivity|]. split; [reflexivity|].
    intros p Hp Hfirst.
    unfold first_logit_column in Hfirst.
    rewrite updatePredictions_columns_eq in Hc'.
    destruct (columns s) as [|c0 cs] eqn:Ecols; [discriminate Hc|].
    rewrite <- Ecols in *. rewrite Hfirst in Hc'.
    rewrite list_lookup_alter_eq, Hc in Hc'. cbn in Hc'. injection Hc' as Hcol.
    apply (f_equal (fun x => col_nodes x !! i)) in Hcol.
    cbn [col_nodes update_column] in Hcol.
    rewrite update_nodes_lookup, Hp, Hn in Hcol. cbn in Hcol.
    (* the column is its own patch, and so is the node *)
    injection Hcol as Hnode.
    rewrite <- Hnode. repeat split.
  - pose proof (update_nodes_lookup predictions (col_nodes col) i) as Hi.
    rewrite Hn in Hi.
    destruct (predictions !! i) as [p|] eqn:Ep; cbn in Hi.
    + exists (update_column toFixed predictions col), (patch_node toFixed p n).
      split; [exact Hc'|]. split; [exact Hi|]. split; [repeat split|]. split.
      * intros Hnot. exfalso. exact (Hnot col0 Hfind).
      * split; [discriminate|]. intros p' [= <-] _. repeat split.
    + exists (update_column toFixed predictions col), n.
      split; [exact Hc'|]. split; [exact Hi|]. split; [repeat split|].
      split; [reflexivity|]. split; [reflexivity|]. discriminate.
Qed.

Lemma updatePredictions_hovered predictions (s : State A) :
  hoveredNode (updatePredictions toFixed predictions s)
  = hovered_after_writes (columns (updatePredictions toFixed predictions s)) s \/
  (columns s = [] /\ updatePredictions toFixed predictions s = s).
Proof.
  unfold updatePredictions. destruct (columns s); [right; split; reflexivity|left; reflexivity].
Qed.

Lemma updatePredictions_flag predictions (s : State A) :
  hoveredInScene (updatePredictions toFixed predictions s) = hoveredInScene s.
Proof. unfold updatePredictions. destruct (columns s); reflexivity. Qed.

(** What [hoveredNode] is after the update, by what it was. *)
Lemma updatePredictions_hover_cases predictions (s : State A) :
  let s' := updatePredictions toFixed predictions s in
  (hoveredInScene s = false -> hoveredNode s' = hoveredNode s) /\
  (hoveredNode s = None -> hoveredNode s' = None) /\
  (forall i bar, hoveredNode s = Some (FoundBar i bar) -> hoveredNode s' = hoveredNode s) /\
  (forall c i n col,
     hoveredInScene s = true -> hoveredNode s = Some (FoundNode c i n) ->
     columns s !! c = Some col -> col_nodes col !! i = Some n ->
     exists col' n',
       columns s' !! c = Some col' /\ col_nodes col' !! i = Some n' /\
       hoveredNode s' = Some (FoundNode c i n')).
Proof.
  intros s'. subst s'.
  destruct (updatePredictions_hovered predictions s) as [E|[_ E]].
  - rewrite E. unfold hovered_after_writes. split; [|split; [|split]].
    + intros ->. destruct (hoveredNode s) as [[?|? ? ?]|]; reflexivity.
    + intros ->. reflexivity.
    + intros i bar ->. reflexivity.
    + intros c i n col Hlive Hh Hc Hn. rewrite Hh, Hlive.
      destruct (updatePredictions_node predictions s c col i n Hc Hn)
        as (col' & n' & Hc' & Hn' & _).
      exists col', n'. rewrite Hc', Hn'. repeat split.
  - rewrite E. split; [reflexivity|]. split; [intros ->; reflexivity|].
    split; [reflexivity|].
    intros c i n col _ Hh Hc Hn. exists col, n. repeat split; assumption.
Qed.

Lemma step_hover_aliased (s : State A) (e : Event A) :
  hover_aliased s -> hover_aliased (step toFixed trim s e).
Proof.
  intros Hs. destruct e; cbn [step]; try exact Hs.
  - intros Hlive. unfold build in Hlive. destruct (fold_left _ _ _). discriminate Hlive.
  - intros Hlive. rewrite updatePredictions_flag in Hlive.
    destruct (Hs Hlive) as (c & i & n & col & Hh & Hc & Hn).
    destruct (proj2 (proj2 (proj2 (updatePredictions_hover_cases predictions s)))
                c i n col Hlive Hh Hc Hn) as (col' & n' & Hc' & Hn' & Hh').
    exists c, i, n', col'. repeat split; assumption.
  - unfold handleMouseMove. destruct (isDragging s); [exact Hs|].
    destruct (scene_point _ _ _) as [[mx my]|]; [|intros Hlive; discriminate Hlive].
    intros Hlive. cbn in Hlive |- *.
    destruct (hit_test (columns s) (outputBars s) mx my) as [[j b|c i n]|] eqn:E;
      try discriminate Hlive.
    destruct (hit_test_member _ _ _ _ _ _ _ E) as (col & Hc & Hn).
    exists c, i, n, col. repeat split; assumption.
  - intros Hlive. discriminate Hlive.
  - intros Hlive. discriminate Hlive.
  - unfold resetView. destruct (columns s) eqn:Ec; [exact Hs|].
    rewrite <- Ec. destruct (_ ++ _); [exact Hs|]. destruct (_ ++ _); exact Hs.
  - unfold animate. destruct (isAnimating s); exact Hs.
Qed.

Lemma run_hover_aliased (evs : list (Event A)) (s : State A) :
  hover_aliased s -> hover_aliased (run toFixed trim evs s).
Proof.
  revert s. induction evs as [|e evs IH]; intros s Hs; [exact Hs|].
  apply IH, step_hover_aliased, Hs.
Qed.

(** C9.  [updatePredictions] keeps the number of columns, each
    column's label, colour, type and node count, and every node's
    position, id, type, index, token text and layer.  It writes label,
    word, prob and logit, by index, to the nodes of the column
    [columns.find] returns (the first of type logit) that the new list
    reaches: such a node shows the prediction of its index, and every
    other node of every column is as it was.  The bars keep their
    number and positions and take word, prob, logit, nucleus, sampled
    and winner fields by index.  Predictions past the existing count
    are ignored, and nodes and bars past the new list keep their
    previous data.  Camera, model configuration and animation are
    untouched.  [hoveredNode] is the hovered node object itself, so a
    hovered node that is written shows the new prediction too; a
    hovered bar is a copy and keeps the old one. *)
Theorem update_patches_in_place predictions (s : State A) :
  let s' := updatePredictions toFixed predictions s in
  (* no column structure change, no node count change *)
  length (columns s') = length (columns s) /\
  (forall c col, columns s !! c = Some col ->
     exists col',
       columns s' !! c = Some col' /\
       col_label col' = col_label col /\ col_color col' = col_color col /\
       col_type col' = col_type col /\
       length (col_nodes col') = length (col_nodes col) /\
       (* only the first logit column is written *)
       ((forall colc, ~ first_logit_column s c colc) -> col' = col) /\
       (* node by node *)
       forall i n, col_nodes col !! i = Some n ->
         exists n',
           col_nodes col' !! i = Some n' /\
           node_same_place n n' /\
           (predictions !! i = None -> n' = n) /\
           (forall p, predictions !! i = Some p -> first_logit_column s c col ->
              node_label n' = fmt toFixed (Pipeline.logit p) 2 /\
              node_word n' = Some (Pipeline.word p) /\
              node_prob n' = Some (Pipeline.prob p) /\
              node_logit n' = Some (Pipeline.logit p))) /\
  (* the bars *)
  length (outputBars s') = length (outputBars s) /\
  (forall i bar, outputBars s !! i = Some bar ->
     exists bar',
       outputBars s' !! i = Some bar' /\
       bar_x bar' = bar_x bar /\ bar_y bar' = bar_y bar /\
       (predictions !! i = None -> bar' = bar) /\
       (columns s = [] -> bar' = bar) /\
       (forall p, predictions !! i = Some p -> columns s <> [] ->
          bar_word bar' = Pipeline.word p /\ bar_prob bar' = Pipeline.prob p /\
          bar_logit bar' = Pipeline.logit p /\
          bar_inNucleus bar' = Pipeline.inNucleus p /\
          bar_isSampled bar' = Pipeline.isSampled p /\
          bar_nucleusProb bar' = or_zero (Pipeline.nucleusProb p) /\
          bar_isWinner bar' = Nat.eqb i 0)) /\
  (* nothing else of the scene and the camera *)
  (camera s' = camera s /\ currentModelCfg s' = currentModelCfg s /\
   animProgress s' = animProgress s /\ hoveredInScene s' = hoveredInScene s) /\
  (* the hovered node: the object itself when it is a node of the
     scene, and then it shows what was written to it *)
  (forall c i n col p,
     hoveredInScene s = true -> hoveredNode s = Some (FoundNode c i n) ->
     first_logit_column s c col -> col_nodes col !! i = Some n ->
     predictions !! i = Some p ->
     exists n',
       hoveredNode s' = Some (FoundNode c i n') /\
       node_same_place n n' /\
       node_label n' = fmt toFixed (Pipeline.logit p) 2 /\
       node_word n' = Some (Pipeline.word p) /\
       node_prob n' = Some (Pipeline.prob p) /\
       node_logit n' = Some (Pipeline.logit p)) /\
  (forall c i n col,
     hoveredNode s = Some (FoundNode c i n) ->
     columns s !! c = Some col -> col_nodes col !! i = Some n ->
     (forall colc, ~ first_logit_column s c colc) \/ predictions !! i = None ->
     hoveredNode s' = hoveredNode s) /\
  (hoveredInScene s = false -> hoveredNode s' = hoveredNode s) /\
  (forall i bar, hoveredNode s = Some (FoundBar i bar) ->
     hoveredNode s' = hoveredNode s) /\
  (hoveredNode s = None -> hoveredNode s' = None) /\
  (* in every scene the page can reach, the winner flag is the one
     the patch writes, and a hovered node of the scene is the node at
     its position *)
  (forall w h rl rt (evs : list (Event A)) i bar,
     outputBars (run toFixed trim evs (initial w h rl rt)) !! i = Some bar ->
     bar_isWinner bar = Nat.eqb i 0) /\
  (forall w h rl rt (evs : list (Event A)),
     hover_aliased (run toFixed trim evs (initial w h rl rt))).
Proof.
  cbv zeta.
  destruct (updatePredictions_hover_cases predictions s) as (Hdead & Hnone & Hbar & Hlive).
  cbv zeta in Hdead, Hnone, Hbar, Hlive.
  split; [apply updatePredictions_length|].
  split.
  { intros c col Hc.
    destruct (updatePredictions_columns predictions s c col Hc) as (col' & Hc' & Hcases).
    exists col'. split; [exact Hc'|].
    assert (col_label col' = col_label col /\ col_color col' = col_color col /\
            col_type col' = col_type col /\
            length (col_nodes col') = length (col_nodes col) /\
            ((forall colc, ~ first_logit_column s c colc) -> col' = col)) as Hshape.
    { destruct Hcases as [->|(Ht & -> & col0 & Hfind)].
      - repeat split.
      - cbn. do 3 (split; [reflexivity|]). split; [apply length_update_nodes|].
        intros Hnot. exfalso. exact (Hnot col0 Hfind). }
    destruct Hshape as (H1 & H2 & H3 & H4 & H5).
    do 5 (split; [assumption|]).
    intros i n Hn.
    destruct (updatePredictions_node predictions s c col i n Hc Hn)
      as (col'' & n' & Hc'' & Hn' & Hsame & _ & Hstale & Hshows).
    rewrite Hc' in Hc''. injection Hc'' as <-.
    exists n'. split; [exact Hn'|]. split; [exact Hsame|]. split; [exact Hstale|].
    exact Hshows. }
  split.
  { unfold updatePredictions. destruct (columns s) eqn:E; [reflexivity|].
    simpl. unfold update_bars. apply length_imap. }
  split.
  { intros i bar Hbar'. rewrite updatePredictions_bars, Hbar'.
    destruct (columns s) as [|c0 cs] eqn:Ecols.
    - exists bar. split; [reflexivity|]. split; [reflexivity|]. split; [reflexivity|].
      split; [intros _; reflexivity|]. split; [intros _; reflexivity|].
      intros p _ Habs. congruence.
    - simpl. destruct (predictions !! i) as [p|] eqn:Ep.
      + eexists. split; [reflexivity|]. simpl.
        split; [reflexivity|]. split; [reflexivity|].
        split; [intros Habs; discriminate|]. split; [intros Habs; discriminate|].
        intros p' [= <-] _. repeat split.
      + exists bar. split; [reflexivity|]. split; [reflexivity|]. split; [reflexivity|].
        split; [intros _; reflexivity|]. split; [intros Habs; discriminate|].
        intros p' Habs. discriminate. }
  split.
  { unfold updatePredictions. destruct (columns s); repeat split. }
  split.
  { intros c i n col p Hl Hh Hfirst Hn Hp.
    pose proof Hfirst as Hfirst'. unfold first_logit_column in Hfirst'.
    apply list_find_Some in Hfirst' as (Hc & _ & _).
    destruct (Hlive c i n col Hl Hh Hc Hn) as (col' & n' & Hc' & Hn' & Hh').
    destruct (updatePredictions_node predictions s c col i n Hc Hn)
      as (col'' & n'' & Hc'' & Hn'' & Hsame & _ & _ & Hshows).
    rewrite Hc' in Hc''. injection Hc'' as <-.
    rewrite Hn' in Hn''. injection Hn'' as <-.
    exists n'. split; [exact Hh'|]. split; [exact Hsame|]. exact (Hshows p Hp Hfirst). }
  split.
  { intros c i n col Hh Hc Hn Hcase.
    destruct (hoveredInScene s) eqn:Hl; [|apply Hdead; reflexivity].
    destruct (Hlive c i n col eq_refl Hh Hc Hn) as (col' & n' & Hc' & Hn' & Hh').
    destruct (updatePredictions_node predictions s c col i n Hc Hn)
      as (col'' & n'' & Hc'' & Hn'' & _ & Hother & Hstale & _).
    rewrite Hc' in Hc''. injection Hc'' as <-.
    rewrite Hn' in Hn''. injection Hn'' as <-.
    rewrite Hh', Hh. f_equal. f_equal.
    destruct Hcase as [Hnot|Hno]; [apply Hother; exact Hnot|apply Hstale; exact Hno]. }
  split; [exact Hdead|]. split; [exact Hbar|]. split; [exact Hnone|].
  split.
  { intros w h rl rt evs. apply run_winner_first. intros i bar Hi. discriminate Hi. }
  intros w h rl rt evs. apply run_hover_aliased. intros Hl. discriminate Hl.
Qed.

End WithPayload.
End SceneFacts.

(** ** The hover hit test *)
Module HoverFacts.
Import Viz SceneSpec ExactFacts.
Open Scope Q_scope.

Lemma in_circle_true mx my cx cy r2 :
  in_circle mx my cx cy r2 = true <-> dist2 mx my cx cy < r2.
Proof. unfold in_circle, dist2. apply Qlt_bool_iff. Qed.

Lemma in_circle_false mx my cx cy r2 :
  in_circle mx my cx cy r2 = false <-> r2 <= dist2 mx my cx cy.
Proof. unfold in_circle, dist2. apply Qlt_bool_false. Qed.

Lemma Qsquare_nonneg (x : Q) : 0 <= x * x.
Proof. unfold Qle, Qmult. simpl. nia. Qed.

Lemma Qsquare_ge (d r : Q) : 0 <= r -> r <= d -> r * r <= d * d.
Proof. intros Hr Hd. nra. Qed.

Lemma Qprod_ge (a g r : Q) : 0 <= r -> 1 <= a -> r <= g -> r <= a * g.
Proof. intros Hr Ha Hg. nra. Qed.

Lemma dist2_far_x (mx my cx cy r : Q) :
  0 <= r -> r <= mx - cx \/ r <= cx - mx -> r * r <= dist2 mx my cx cy.
Proof.
  intros Hr Hd. unfold dist2.
  pose proof (Qsquare_nonneg (my - cy)) as Hy.
  destruct Hd as [Hd|Hd].
  - pose proof (Qsquare_ge (mx - cx) r Hr Hd). lra.
  - pose proof (Qsquare_ge (cx - mx) r Hr Hd) as Hs.
    assert ((cx - mx) * (cx - mx) == (mx - cx) * (mx - cx)) as Heq by ring.
    lra.
Qed.

Lemma dist2_far_y (mx my cx cy r : Q) :
  0 <= r -> r <= my - cy \/ r <= cy - my -> r * r <= dist2 mx my cx cy.
Proof.
  intros Hr Hd. unfold dist2.
  pose proof (Qsquare_nonneg (mx - cx)) as Hx.
  destruct Hd as [Hd|Hd].
  - pose proof (Qsquare_ge (my - cy) r Hr Hd). lra.
  - pose proof (Qsquare_ge (cy - my) r Hr Hd) as Hs.
    assert ((cy - my) * (cy - my) == (my - cy) * (my - cy)) as Heq by ring.
    lra.
Qed.

Section WithPayload.
Context {A : Type} `{Num A}.
Variable toFixed : A -> nat -> string.
Variable trim : string -> string.

Lemma find_bar_first mx my (bars : list (OutputBar A)) : forall i0 i bar,
  bars !! i = Some bar -> bar_hit mx my bar ->
  (forall j b, (j < i)%nat -> bars !! j = Some b -> ~ bar_hit mx my b) ->
  find_bar mx my i0 bars = Some (FoundBar (i0 + i) bar).
Proof.
  induction bars as [|b rest IH]; intros i0 i bar Hi Hhit Hbefore; [discriminate|].
  simpl. destruct i as [|i].
  - injection Hi as ->. apply in_circle_true in Hhit. rewrite Hhit.
    rewrite Nat.add_0_r. reflexivity.
  - assert (in_circle mx my (bar_x b) (bar_y b) 64 = false) as ->.
    { apply in_circle_false. apply Qnot_lt_le. apply (Hbefore 0%nat b); [lia|reflexivity]. }
    rewrite (IH (S i0) i bar Hi Hhit).
    + f_equal. f_equal. lia.
    + intros j b' Hj Hb'. apply (Hbefore (S j) b'); [lia|exact Hb'].
Qed.

Lemma find_bar_none mx my (bars : list (OutputBar A)) i0 :
  (forall j b, bars !! j = Some b -> ~ bar_hit mx my b) ->
  find_bar mx my i0 bars = None.
Proof.
  revert i0. induction bars as [|b rest IH]; intros i0 Hno; [reflexivity|].
  simpl.
  assert (in_circle mx my (bar_x b) (bar_y b) 64 = false) as ->.
  { apply in_circle_false. apply Qnot_lt_le. apply (Hno 0%nat b). reflexivity. }
  apply IH. intros j b' Hb'. apply (Hno (S j) b'). exact Hb'.
Qed.

Lemma find_node_first mx my c (nodes : list (Node A)) : forall i0 i node,
  nodes !! i = Some node -> node_hit mx my node ->
  (forall j n, (j < i)%nat -> nodes !! j = Some n -> ~ node_hit mx my n) ->
  find_node mx my c i0 nodes = Some (FoundNode c (i0 + i) node).
Proof.
  induction nodes as [|n rest IH]; intros i0 i node Hi Hhit Hbefore; [discriminate|].
  simpl. destruct i as [|i].
  - injection Hi as ->. apply in_circle_true in Hhit. rewrite Hhit.
    rewrite Nat.add_0_r. reflexivity.
  - assert (in_circle mx my (node_x n) (node_y n) (node_hit_radius * node_hit_radius)
            = false) as ->.
    { apply in_circle_false. apply Qnot_lt_le. apply (Hbefore 0%nat n); [lia|reflexivity]. }
    rewrite (IH (S i0) i node Hi Hhit).
    + f_equal. f_equal. lia.
    + intros j n' Hj Hn'. apply (Hbefore (S j) n'); [lia|exact Hn'].
Qed.

Lemma find_node_none mx my c (nodes : list (Node A)) i0 :
  (forall j n, nodes !! j = Some n -> ~ node_hit mx my n) ->
  find_node mx my c i0 nodes = None.
Proof.
  revert i0. induction nodes as [|n rest IH]; intros i0 Hno; [reflexivity|].
  simpl.
  assert (in_circle mx my (node_x n) (node_y n) (node_hit_radius * node_hit_radius)
          = false) as ->.
  { apply in_circle_false. apply Qnot_lt_le. apply (Hno 0%nat n). reflexivity. }
  apply IH. intros j n' Hn'. apply (Hno (S j) n'). exact Hn'.
Qed.

Lemma find_in_columns_first mx my (cols : list (Column A)) : forall c0 c i col node,
  cols !! c = Some col -> col_nodes col !! i = Some node -> node_hit mx my node ->
  (forall c' col' j n, (c' < c)%nat -> cols !! c' = Some col' ->
     col_nodes col' !! j = Some n -> ~ node_hit mx my n) ->
  (forall j n, (j < i)%nat -> col_nodes col !! j = Some n -> ~ node_hit mx my n) ->
  find_in_columns mx my c0 cols = Some (FoundNode (c0 + c) i node).
Proof.
  induction cols as [|col0 rest IH]; intros c0 c i col node Hc Hi Hhit Hcols Hnodes;
    [discriminate|].
  simpl. destruct c as [|c].
  - injection Hc as ->.
    rewrite (find_node_first mx my c0 (col_nodes col) 0 i node Hi Hhit Hnodes).
    rewrite Nat.add_0_r. reflexivity.
  - rewrite find_node_none.
    + rewrite (IH (S c0) c i col node Hc Hi Hhit).
      * f_equal. f_equal. lia.
      * intros c' col' j n Hc' Hcol' Hn. apply (Hcols (S c') col' j n); [lia|done|done].
      * exact Hnodes.
    + intros j n Hn. apply (Hcols 0%nat col0 j n); [lia|reflexivity|exact Hn].
Qed.

Lemma find_in_columns_none mx my (cols : list (Column A)) c0 :
  (forall c col j n, cols !! c = Some col -> col_nodes col !! j = Some n ->
     ~ node_hit mx my n) ->
  find_in_columns mx my c0 cols = None.
Proof.
  revert c0. induction cols as [|col0 rest IH]; intros c0 Hno; [reflexivity|].
  simpl. rewrite find_node_none.
  - apply IH. intros c col j n Hc Hn. apply (Hno (S c) col j n); done.
  - intros j n Hn. apply (Hno 0%nat col0 j n); done.
Qed.


(** *** The layout [build] produces *)

Lemma Qnat_S n : Qnat (S n) == Qnat n + 1.
Proof.
  unfold Qnat. rewrite Nat2Z.inj_succ. unfold Z.succ. rewrite inject_Z_plus. reflexivity.
Qed.

Lemma Qnat_lt i j : (i < j)%nat -> Qnat i + 1 <= Qnat j.
Proof.
  intros Hij. rewrite <- Qnat_S. unfold Qnat. rewrite <- Zle_Qle. lia.
Qed.

Lemma Qnat_nonneg i : 0 <= Qnat i.
Proof. unfold Qnat. change 0 with (inject_Z 0). rewrite <- Zle_Qle. lia. Qed.

Lemma col_at_proper X X' (col : Column A) : X == X' -> col_at X col -> col_at X' col.
Proof.
  intros HX (g & Hg & Hn). exists g. split; [exact Hg|].
  intros i n Hi. destruct (Hn i n Hi) as [Hx Hy]. split; [lra|exact Hy].
Qed.

Lemma grid_proper (cols : list (Column A)) : forall X X', X == X' -> grid X cols -> grid X' cols.
Proof.
  induction cols as [|col rest IH]; intros X X' HX; simpl; [done|].
  intros [Hc Hr]. split; [eapply col_at_proper; eauto|].
  eapply IH; [|exact Hr]. lra.
Qed.

Lemma grid_app (l1 : list (Column A)) : forall X l2,
  grid X (l1 ++ l2) <-> grid X l1 /\ grid (X + Qnat (length l1) * COLUMN_GAP) l2.
Proof.
  induction l1 as [|col rest IH]; intros X l2; cbn [grid app length].
  - change (Qnat 0) with 0. split.
    + intros Hg. split; [done|]. eapply grid_proper; [|exact Hg].
      unfold COLUMN_GAP. lra.
    + intros [_ Hg]. eapply grid_proper; [|exact Hg].
      unfold COLUMN_GAP. lra.
  - rewrite IH. split.
    + intros (Hc & Hr & Hl2). split; [done|]. eapply grid_proper; [|exact Hl2].
      rewrite Qnat_S. unfold COLUMN_GAP. lra.
    + intros ((Hc & Hr) & Hl2). split; [done|]. split; [done|].
      eapply grid_proper; [|exact Hl2]. rewrite Qnat_S. unfold COLUMN_GAP. lra.
Qed.

Lemma grid_lookup (cols : list (Column A)) : forall X c col,
  grid X cols -> cols !! c = Some col -> col_at (X + Qnat c * COLUMN_GAP) col.
Proof.
  induction cols as [|col0 rest IH]; intros X c col Hg Hc; [discriminate|].
  destruct Hg as [H0 Hr]. destruct c as [|c].
  - injection Hc as <-. eapply col_at_proper; [|exact H0].
    change (Qnat 0) with 0. unfold COLUMN_GAP. lra.
  - simpl in Hc. eapply col_at_proper; [|apply (IH _ _ _ Hr Hc)].
    rewrite Qnat_S. unfold COLUMN_GAP. lra.
Qed.

Lemma layers_grid startY n X0 : forall m a x (cols : list (Column A)),
  startY == 80 ->
  grid X0 cols -> x == X0 + Qnat (length cols) * COLUMN_GAP ->
  grid X0 (snd (fold_left (layer_step startY n) (seq a m) (x, cols))) /\
  fst (fold_left (layer_step startY n) (seq a m) (x, cols))
  == X0 + Qnat (length (snd (fold_left (layer_step startY n) (seq a m) (x, cols))))
          * COLUMN_GAP.
Proof.
  induction m as [|m IH]; intros a x cols HY Hg Hx; [simpl; split; assumption|].
  simpl. apply IH; [exact HY| |].
  - apply grid_app. split; [exact Hg|]. simpl. split; [|done].
    eapply col_at_proper; [exact Hx|].
    exists ROW_GAP. split; [unfold MIN_LOGIT_GAP, ROW_GAP; lra|].
    intros i node Hi. simpl in Hi. rewrite list_lookup_fmap in Hi.
    destruct (seq 0 n !! i) as [i'|] eqn:Ei; simpl in Hi; [|discriminate].
    apply lookup_seq in Ei as [-> _]. injection Hi as <-. simpl.
    split; [reflexivity|]. rewrite HY. reflexivity.
  - rewrite length_app. simpl. rewrite Nat.add_1_r, Qnat_S. rewrite Hx. lra.
Qed.

Lemma build_scene_ok tokens modelConfig predictions (s : State A) :
  scene_ok (columns (build toFixed trim tokens modelConfig predictions s))
           (outputBars (build toFixed trim tokens modelConfig predictions s)).
Proof.
  unfold build.
  set (startY := TOP_PADDING + 30).
  assert (startY == 80) as HY by (unfold startY, TOP_PADDING; lra).
  set (two := [_] ++ [_]).
  assert (grid LEFT_PADDING two) as Htwo.
  { subst two. simpl. split; [|split; [|done]].
    - exists ROW_GAP. split; [unfold MIN_LOGIT_GAP, ROW_GAP; lra|].
      intros i n Hi. simpl in Hi. rewrite list_lookup_imap in Hi.
      destruct (tokens !! i); simpl in Hi; [|discriminate]. injection Hi as <-.
      simpl. split; [reflexivity|]. rewrite HY. reflexivity.
    - exists ROW_GAP. split; [unfold MIN_LOGIT_GAP, ROW_GAP; lra|].
      intros i n Hi. simpl in Hi. rewrite list_lookup_imap in Hi.
      destruct (tokens !! i); simpl in Hi; [|discriminate]. injection Hi as <-.
      simpl. split; [reflexivity|]. rewrite HY. reflexivity. }
  pose proof (layers_grid startY (length tokens) LEFT_PADDING
                (Pipeline.layers modelConfig) 0
                (LEFT_PADDING + COLUMN_GAP + COLUMN_GAP) two HY Htwo) as Hl.
  destruct (fold_left _ _ _) as [x cols] eqn:Efold. simpl in Hl.
  destruct Hl as [Hg Hx].
  { subst two. cbn [length app]. change (Qnat 2) with 2. unfold COLUMN_GAP. lra. }
  simpl. split.
  - apply grid_app. split; [exact Hg|]. simpl. split; [|done].
    eapply col_at_proper; [exact Hx|].
    exists (actualLogitGap (length tokens) (length predictions)).
    split; [unfold actualLogitGap; apply Q.le_max_l|].
    intros i n Hi. simpl in Hi. rewrite list_lookup_imap in Hi.
    destruct (predictions !! i); simpl in Hi; [|discriminate]. injection Hi as <-.
    simpl. split; [reflexivity|]. rewrite HY. reflexivity.
  - apply Forall_forall. intros b Hb. apply list_elem_of_lookup in Hb as [i Hi].
    rewrite list_lookup_imap in Hi.
    destruct (predictions !! i); simpl in Hi; [|discriminate]. injection Hi as <-.
    simpl. rewrite length_app. simpl. rewrite Nat.add_1_r, Qnat_S, Hx.
    unfold COLUMN_GAP. lra.
Qed.


Lemma col_at_update X predictions (col : Column A) :
  col_at X col -> col_at X (update_column toFixed predictions col).
Proof.
  intros (g & Hg & Hn). exists g. split; [exact Hg|].
  intros i n' Hi. simpl in Hi. rewrite SceneFacts.update_nodes_lookup in Hi.
  destruct (col_nodes col !! i) as [n|] eqn:En.
  - destruct (Hn i n En) as [Hx Hy].
    destruct (predictions !! i); simpl in Hi; injection Hi as <-; simpl; split; assumption.
  - destruct (predictions !! i); simpl in Hi; discriminate.
Qed.

Lemma grid_alter (f : Column A -> Column A) cols : forall X k,
  (forall X col, col_at X col -> col_at X (f col)) ->
  grid X cols -> grid X (alter f k cols).
Proof.
  induction cols as [|col rest IH]; intros X k Hf Hg; [done|].
  destruct Hg as [Hc Hr]. destruct k as [|k]; simpl.
  - split; [apply Hf, Hc|exact Hr].
  - split; [exact Hc|apply IH; assumption].
Qed.

Lemma update_scene_ok predictions (s : State A) :
  scene_ok (columns s) (outputBars s) ->
  scene_ok (columns (updatePredictions toFixed predictions s))
           (outputBars (updatePredictions toFixed predictions s)).
Proof.
  intros [Hg Hb]. unfold scene_ok.
  assert (length (columns (updatePredictions toFixed predictions s))
          = length (columns s)) as Hlen.
  { apply (SceneFacts.updatePredictions_length toFixed). }
  rewrite Hlen. split.
  - rewrite SceneFacts.updatePredictions_columns_eq.
    destruct (columns s) eqn:E; [done|]. rewrite <- E in *.
    destruct (list_find _ _) as [[k colk]|]; [|exact Hg].
    apply grid_alter; [|exact Hg]. intros X col. apply col_at_update.
  - apply Forall_lookup. intros i b' Hi.
    rewrite SceneFacts.updatePredictions_bars in Hi.
    destruct (columns s) eqn:E.
    + eapply Forall_lookup_1 in Hb; eauto.
    + destruct (outputBars s !! i) as [b|] eqn:Eb; simpl in Hi; [|discriminate].
      pose proof (Forall_lookup_1 _ _ _ _ Hb Eb) as Hbx. simpl in Hbx.
      destruct (predictions !! i); injection Hi as <-; exact Hbx.
Qed.

Lemma resetView_scene (s : State A) :
  columns (resetView s) = columns s /\ outputBars (resetView s) = outputBars s.
Proof.
  unfold resetView. destruct (columns s) eqn:E; [rewrite E; done|].
  destruct (_ ++ _); [simpl; rewrite E; done|].
  destruct (_ ++ _); simpl; rewrite E; done.
Qed.

Lemma step_scene_ok (s : State A) (e : Event A) :
  scene_ok (columns s) (outputBars s) ->
  scene_ok (columns (step toFixed trim s e)) (outputBars (step toFixed trim s e)).
Proof.
  intros Hs. destruct e; simpl; try exact Hs.
  - apply build_scene_ok.
  - apply update_scene_ok, Hs.
  - unfold handleMouseMove. destruct (isDragging s); simpl; [exact Hs|].
    destruct (scene_point _ _ _) as [[mx my]|]; exact Hs.
  - split; [done|constructor].
  - destruct (resetView_scene s) as [-> ->]. exact Hs.
  - unfold animate. destruct (isAnimating s); exact Hs.
Qed.

Lemma run_scene_ok (evs : list (Event A)) (s : State A) :
  scene_ok (columns s) (outputBars s) ->
  scene_ok (columns (run toFixed trim evs s)) (outputBars (run toFixed trim evs s)).
Proof.
  revert s. induction evs as [|e evs IH]; intros s Hs; simpl; [exact Hs|].
  apply IH, step_scene_ok, Hs.
Qed.

(** On such a layout, the pointer on a node's centre finds that node. *)
Lemma centre_hit (cols : list (Column A)) bars c col i n mx my :
  scene_ok cols bars ->
  cols !! c = Some col -> col_nodes col !! i = Some n ->
  mx == node_x n -> my == node_y n ->
  hit_test cols bars mx my = Some (FoundNode c i n).
Proof.
  intros [Hg Hb] Hc Hi Hmx Hmy.
  pose proof (grid_lookup _ _ _ _ Hg Hc) as (g & Hgap & Hcol).
  destruct (Hcol i n Hi) as [Hnx Hny].
  assert (c < length cols)%nat as Hclen by (eapply lookup_lt_Some; eauto).
  pose proof (Qnat_lt _ _ Hclen) as Hcq.
  unfold hit_test. rewrite find_bar_none.
  - apply (find_in_columns_first mx my cols 0 c i col n Hc Hi).
    + unfold node_hit, dist2, node_hit_radius, NODE_RADIUS.
      rewrite Hmx, Hmy. lra.
    + intros c' col' j n' Hc' Hcol' Hn'.
      pose proof (grid_lookup _ _ _ _ Hg Hcol') as (g' & _ & Hcol'').
      destruct (Hcol'' j n' Hn') as [Hx' _].
      pose proof (Qnat_lt _ _ Hc') as Hq.
      unfold node_hit, node_hit_radius, NODE_RADIUS, LEFT_PADDING, COLUMN_GAP in *.
      intros Habs.
      pose proof (dist2_far_x mx my (node_x n') (node_y n') 70) as Hfar.
      assert (70 <= mx - node_x n') as Hdx by lra.
      lapply Hfar; [|lra]. intros Hfar'. lapply Hfar'; [|left; exact Hdx]. lra.
    + intros j n' Hj Hn'. destruct (Hcol j n' Hn') as [Hx' Hy'].
      pose proof (Qnat_lt _ _ Hj) as Hq.
      unfold node_hit, node_hit_radius, NODE_RADIUS, MIN_LOGIT_GAP in *.
      intros Habs.
      assert (22 <= my - node_y n') as Hdy.
      { assert (my - node_y n' == (Qnat i - Qnat j) * g) as -> by lra.
        apply Qprod_ge; lra. }
      pose proof (dist2_far_y mx my (node_x n') (node_y n') 22) as Hfar.
      lapply Hfar; [|lra]. intros Hfar'. lapply Hfar'; [|left; exact Hdy]. lra.
  - intros j b Hbj. eapply Forall_lookup_1 in Hb; eauto. simpl in Hb.
    unfold bar_hit, LEFT_PADDING, COLUMN_GAP in *. intros Habs.
    assert (80 <= bar_x b - mx) as Hdx by lra.
    pose proof (dist2_far_x mx my (bar_x b) (bar_y b) 80) as Hfar.
    lapply Hfar; [|lra]. intros Hfar'. lapply Hfar'; [|right; exact Hdx]. lra.
Qed.


Lemma hovered_eq clientX clientY (s : State A) :
  isDragging s = false ->
  hoveredNode (handleMouseMove clientX clientY s) =
  match scene_point clientX clientY s with
  | Some (mx, my) => hit_test (columns s) (outputBars s) mx my
  | None => None
  end.
Proof.
  intros Hd. unfold handleMouseMove. rewrite Hd.
  destruct (scene_point _ _ _) as [[mx my]|]; reflexivity.
Qed.

(** C8.  The hover hit test on a pointer move that is not a drag:
    the bars are tried first, with the fixed radius 8, and the first
    bar within it wins; otherwise the nodes in column order, with
    radius [NODE_RADIUS + 4], and the first node within it wins.  In
    every scene the page can reach, a pointer on the centre of a node
    resolves to that node; and a pointer at least a hit radius away
    from every bar and node resolves to no hit. *)
Theorem hover_hit_test :
  (* bars first: the first bar within its radius wins, whatever the nodes *)
  (forall (cols : list (Column A)) bars mx my i bar,
     bars !! i = Some bar -> bar_hit mx my bar ->
     (forall j b, (j < i)%nat -> bars !! j = Some b -> ~ bar_hit mx my b) ->
     hit_test cols bars mx my = Some (FoundBar i bar)) /\
  (* then the nodes in column order: the first node within its radius *)
  (forall (cols : list (Column A)) bars mx my c col i node,
     (forall j b, bars !! j = Some b -> ~ bar_hit mx my b) ->
     cols !! c = Some col -> col_nodes col !! i = Some node -> node_hit mx my node ->
     (forall c' col' j n, (c' < c)%nat -> cols !! c' = Some col' ->
        col_nodes col' !! j = Some n -> ~ node_hit mx my n) ->
     (forall j n, (j < i)%nat -> col_nodes col !! j = Some n -> ~ node_hit mx my n) ->
     hit_test cols bars mx my = Some (FoundNode c i node)) /\
  (* the node radius is a little more than the drawn one *)
  (node_hit_radius == NODE_RADIUS + 4 /\ NODE_RADIUS < node_hit_radius) /\
  (* the pointer on the centre of a node *)
  (forall w h rl rt (evs : list (Event A)) clientX clientY px py c col i n,
     let s := run toFixed trim evs (initial w h rl rt) in
     isDragging s = false -> panX s = Some px -> panY s = Some py ->
     columns s !! c = Some col -> col_nodes col !! i = Some n ->
     clientX - rect_left s == node_x n * zoom s + px ->
     clientY - rect_top s == node_y n * zoom s + py ->
     hoveredNode (handleMouseMove clientX clientY s) = Some (FoundNode c i n)) /\
  (* the pointer away from everything *)
  (forall (s : State A) clientX clientY mx my,
     isDragging s = false -> scene_point clientX clientY s = Some (mx, my) ->
     (forall j b, outputBars s !! j = Some b ->
        64 <= dist2 mx my (bar_x b) (bar_y b)) ->
     (forall c col j n, columns s !! c = Some col -> col_nodes col !! j = Some n ->
        node_hit_radius * node_hit_radius <= dist2 mx my (node_x n) (node_y n)) ->
     hoveredNode (handleMouseMove clientX clientY s) = None).
Proof.
  split; [|split; [|split; [|split]]].
  - intros cols bars mx my i bar Hi Hhit Hbefore. unfold hit_test.
    rewrite (find_bar_first mx my bars 0 i bar Hi Hhit Hbefore). reflexivity.
  - intros cols bars mx my c col i node Hbars Hc Hi Hhit Hcols Hnodes. unfold hit_test.
    rewrite find_bar_none by exact Hbars.
    apply (find_in_columns_first mx my cols 0 c i col node); assumption.
  - unfold node_hit_radius, NODE_RADIUS. split; lra.
  - intros w h rl rt evs clientX clientY px py c col i n s Hd Hpx Hpy Hc Hi Hx Hy.
    rewrite hovered_eq by exact Hd. unfold scene_point. rewrite Hpx, Hpy.
    assert (zoom_ok s) as Hz.
    { apply CameraFacts.run_zoom_ok. unfold zoom_ok. simpl. lra. }
    unfold zoom_ok in Hz.
    assert (scene_ok (columns s) (outputBars s)) as Hok.
    { apply run_scene_ok. split; [done|constructor]. }
    apply (centre_hit _ _ c col i n); try assumption.
    + assert (clientX - rect_left s - px == node_x n * zoom s) as -> by lra.
      field. lra.
    + assert (clientY - rect_top s - py == node_y n * zoom s) as -> by lra.
      field. lra.
  - intros s clientX clientY mx my Hd Hsp Hbars Hnodes.
    rewrite hovered_eq by exact Hd. rewrite Hsp. unfold hit_test.
    rewrite find_bar_none.
    + apply find_in_columns_none. intros c col j n Hc Hn Hhit.
      unfold node_hit in Hhit. pose proof (Hnodes c col j n Hc Hn). lra.
    + intros j b Hb Hhit. unfold bar_hit in Hhit. pose proof (Hbars j b Hb). lra.
Qed.

End WithPayload.
End HoverFacts.

(** ** Both arithmetics side by side, and the examples *)
Module Checks.
Import Pipeline SamplerSpec Examples.
Open Scope Q_scope.

Lemma rational_exp_pos (x : Q) : 0 < rational_exp x.
Proof.
  unfold rational_exp. destruct (Qle_bool x 0) eqn:E.
  - apply Qle_bool_iff in E. apply Qlt_shift_div_l; lra.
  - apply ExactFacts.Qle_bool_false in E. lra.
Qed.

Lemma rational_exp_mono (x y : Q) : x <= y -> rational_exp x <= rational_exp y.
Proof.
  intros Hxy. unfold rational_exp.
  destruct (Qle_bool x 0) eqn:Ex, (Qle_bool y 0) eqn:Ey.
  - apply Qle_bool_iff in Ex, Ey.
    apply Qle_shift_div_r; [lra|].
    assert (1 / (1 - y) * (1 - x) == (1 - x) / (1 - y)) as -> by (field; lra).
    apply Qle_shift_div_l; lra.
  - apply Qle_bool_iff in Ex. apply ExactFacts.Qle_bool_false in Ey.
    apply Qle_trans with 1; [apply Qle_shift_div_r; lra|lra].
  - apply Qle_bool_iff in Ey. apply ExactFacts.Qle_bool_false in Ex. lra.
  - lra.
Qed.

(** C3, with its last clause in exact arithmetic.  In every result
    of [computePredictions] the members with [inNucleus] form a
    non-empty prefix of the list: they are marked in order until the
    running sum of [prob] first reaches [topP], crossing element
    included, and all are marked when it never does -- whatever the
    arithmetic rounds to.  With exact arithmetic the list is in
    descending order of probability, and [topP >= 1] puts every
    returned candidate in the nucleus. *)
Theorem nucleus_is_prefix :
  (forall (A : Type) (N : Num A) (decodeToken : nat -> string) (h : heap A)
          logits scores temperature topK topP r preds h',
     h !! logits = Some scores ->
     computePredictions decodeToken logits temperature topK topP r h = (Ret preds, h') ->
     let k := nucleus_size topP num_zero (map prob preds) in
     (0 < k <= length preds)%nat /\
     forall j p, preds !! j = Some p -> inNucleus p = (j <? k)%nat) /\
  (forall (exp round32 : Q -> Q) (decodeToken : nat -> string) (h : heap Q)
          logits scores temperature topK topP r preds h',
     (forall x, 0 < exp x) -> (forall x y, x <= y -> exp x <= exp y) ->
     h !! logits = Some scores ->
     computePredictions (H := ExactNum.instance exp round32)
       decodeToken logits temperature topK topP r h = (Ret preds, h') ->
     (forall i j p q, (i < j)%nat -> preds !! i = Some p -> preds !! j = Some q ->
        prob q <= prob p) /\
     (1 <= topP -> Forall (fun p => inNucleus p = true) preds)).
Proof.
  split.
  - intros A N decodeToken h logits scores temperature topK topP r preds h' Hl Hrun.
    exact (SamplerFacts.nucleus_prefix decodeToken h logits scores temperature topK
             topP r preds h' Hl Hrun).
  - intros exp round32 decodeToken h logits scores temperature topK topP r preds h'
      Hpos Hmono Hl Hrun.
    exact (ExactFacts.exact_nucleus exp round32 decodeToken h logits scores temperature
             topK topP r preds h' Hpos Hmono Hl Hrun).
Qed.

(** C4, as the code has it.  On an empty scores array
    [computePredictions] does not short-circuit: it throws a TypeError
    (the read of [topItems[0].val]), for every temperature, [topK] and
    [topP], and [run] built on it throws the same TypeError to its
    caller.  Neither returns a result, empty or otherwise. *)
Theorem empty_scores_throw :
  (forall (A : Type) (N : Num A) (decodeToken : nat -> string) (h : heap A)
          logits temperature topK topP r,
     h !! logits = Some [] ->
     fst (computePredictions decodeToken logits temperature topK topP r h)
     = Throw TypeError /\
     forall preds h',
       computePredictions decodeToken logits temperature topK topP r h
       <> (Ret preds, h')) /\
  (forall (A : Type) (N : Num A) (decodeToken : nat -> string) (Encoded : Type)
          tokenize forward getConfig text (cfg : Config A) r (s : State A) toks encoded,
     tokenize text = Ret (toks, encoded) -> forward encoded = Ret [] ->
     fst (run decodeToken Encoded tokenize forward getConfig text cfg r s)
     = Throw TypeError /\
     forall res s',
       run decodeToken Encoded tokenize forward getConfig text cfg r s
       <> (Ret res, s')).
Proof.
  split.
  - intros A N decodeToken h logits temperature topK topP r Hl.
    pose proof (SamplerFacts.computePredictions_empty decodeToken h logits temperature
                  topK topP r Hl) as He.
    split; [exact He|]. intros preds h' Habs. rewrite Habs in He. discriminate He.
  - intros A N decodeToken Encoded tokenize forward getConfig text cfg r s toks encoded
      Ht Hf.
    pose proof (SamplerFacts.run_empty decodeToken Encoded tokenize forward getConfig
                  text cfg r s toks encoded Ht Hf) as He.
    split; [exact He|]. intros res s' Habs. rewrite Habs in He. discriminate He.
Qed.

Lemma sampled_exactly_one_witness :
  exists preds h',
    computePredictions decode 0 1%float 3 0.75%float 0.5%float (float_heap peaked_scores)
    = (Ret preds, h') /\
    length (List.filter isSampled preds) = 1%nat.
Proof.
  destruct (SamplerFacts.sampled_exactly_one decode
              (float_heap peaked_scores) 0 peaked_scores 1%float 3 0.75%float 0.5%float)
    as (preds & h' & Hrun & Hone & _);
    [reflexivity|discriminate|lia|].
  exists preds, h'. split; assumption.
Defined.

Lemma top_k_ranked_witness :
  exists preds h',
    computePredictions (H := exact)
      decode 0 1 2 (9 # 10) (1 # 2) (exact_heap tied_scores) = (Ret preds, h') /\
    length preds = 2%nat.
Proof.
  destruct (ExactFacts.top_k_ranked rational_exp no_rounding decode
              (exact_heap tied_scores) 0 tied_scores 1 2 (9 # 10) (1 # 2))
    as (preds & h' & Hrun & Hlen & _);
    [reflexivity|discriminate|lia|].
  exists preds, h'. split; assumption.
Defined.

Lemma top_k_empty_counterexample :
  ~ exists preds h',
      computePredictions (H := exact)
        decode 0 1 10 (9 # 10) (1 # 2) (exact_heap []) = (Ret preds, h') /\
      length preds = (10 `min` 0)%nat.
Proof.
  intros (preds & h' & Hrun & _). vm_compute in Hrun. discriminate Hrun.
Qed.

Lemma nucleus_is_prefix_witness :
  (exists preds h',
     computePredictions decode 0 1%float 3 0.75%float 0.5%float (float_heap peaked_scores)
     = (Ret preds, h') /\
     (0 < nucleus_size 0.75%float num_zero (map prob preds) <= length preds)%nat) /\
  (exists preds h',
     computePredictions (H := exact)
       decode 0 1 3 1 (1 # 2) (exact_heap exact_scores) = (Ret preds, h') /\
     Forall (fun p => inNucleus p = true) preds).
Proof.
  split.
  - pose proof (SamplerFacts.computePredictions_returns decode
                  (float_heap peaked_scores) 0 peaked_scores 1%float 3 0.75%float 0.5%float
                  eq_refl ltac:(discriminate) ltac:(lia)) as Hrun.
    eexists _, _. split; [exact Hrun|].
    exact (proj1 (proj1 nucleus_is_prefix float _ decode (float_heap peaked_scores)
                    0%nat peaked_scores _ _ _ _ _ _ eq_refl Hrun)).
  - pose proof (SamplerFacts.computePredictions_returns (H := exact)
                  decode (exact_heap exact_scores) 0 exact_scores 1 3 1 (1 # 2)
                  eq_refl ltac:(discriminate) ltac:(lia)) as Hrun.
    eexists _, _. split; [exact Hrun|].
    refine (proj2 (proj2 nucleus_is_prefix rational_exp no_rounding decode
                     (exact_heap exact_scores)
                     0%nat exact_scores _ _ _ _ _ _
                     rational_exp_pos rational_exp_mono eq_refl Hrun) _).
    unfold Qle. simpl. lia.
Defined.

Lemma nucleus_float_counterexample :
  exists preds h' p,
    computePredictions decode 0 1%float 2 1%float 0.5%float (float_heap far_scores) = (Ret preds, h') /\
    num_le 1%float 1%float = true /\
    preds !! 1%nat = Some p /\ inNucleus p = false.
Proof.
  eexists _, _, _. split; [vm_compute; reflexivity|].
  split; [reflexivity|]. split; reflexivity.
Qed.

Lemma empty_scores_throw_witness :
  fst (computePredictions decode 0 1%float 10 0.75%float 0.5%float (float_heap []))
  = Throw TypeError /\
  fst (run decode unit MoreExamples.tokenize_two MoreExamples.forward_nothing (Some gpt2)
         "The cat" sliders 0.5%float no_results) = Throw TypeError.
Proof.
  split.
  - apply (proj1 empty_scores_throw). reflexivity.
  - apply (proj2 empty_scores_throw _ _ _ _ _ _ _ _ _ _ _ two_tokens tt); reflexivity.
Defined.

Lemma empty_scores_counterexample :
  fst (computePredictions decode 0 1%float 10 0.75%float 0.5%float (float_heap [])) = Throw TypeError /\
  fst (run decode unit (fun _ => Ret (two_tokens, tt)) (fun _ => Ret []) (Some gpt2)
         "The cat" sliders 0.5%float no_results) = Throw TypeError.
Proof. split; vm_compute; reflexivity. Qed.

Lemma logits_not_mutated_witness :
  snd (computePredictions decode 0 1%float 3 0.75%float 0.5%float (float_heap peaked_scores)) !! 0%nat
  = Some peaked_scores.
Proof.
  apply (proj1 (SamplerFacts.logits_not_mutated decode)). reflexivity.
Defined.

Lemma wheel_keeps_anchor_witness :
  Viz.zoom (Viz.handleWheel 400 300 (-1) built)
  = Viz.clamp (Viz.zoom built * (11 # 10)) (15 # 100) 4.
Proof.
  destruct (CameraFacts.wheel_keeps_anchor built 400 300 (-1) _ _ eq_refl eq_refl)
    as [Hz _].
  - intros Habs. vm_compute in Habs. discriminate Habs.
  - exact Hz.
Defined.



Lemma hover_hit_test_witness :
  exists n,
    Viz.hoveredNode (Viz.handleMouseMove (500 # 9) (2665 # 9) built)
    = Some (Viz.FoundNode 0 0 n).
Proof.
  eexists.
  refine (proj1 (proj2 (proj2 (proj2 (HoverFacts.hover_hit_test toFixed trim))))
            800 600 0 0 [Viz.Build two_tokens gpt2 three_predictions]
            (500 # 9) (2665 # 9) _ _ 0%nat _ 0%nat _
            eq_refl eq_refl eq_refl eq_refl eq_refl _ _);
    vm_compute; reflexivity.
Defined.

Lemma update_patches_in_place_witness :
  (* the hovered node is the first logit node, and shows the new word *)
  (exists n',
     Viz.hoveredNode MoreExamples.repatched = Some (Viz.FoundNode 14 0 n') /\
     Viz.node_word n' = Some " slept"%string /\
     Viz.node_logit n' = Some 4%float) /\
  (* the third logit node is past the new list and keeps its word *)
  (exists col' n',
     Viz.columns MoreExamples.repatched !! 14%nat = Some col' /\
     Viz.col_nodes col' !! 2%nat = Some n' /\
     Viz.node_word n' = Some " ran"%string).
Proof.
  unfold MoreExamples.repatched.
  pose proof (SceneFacts.update_patches_in_place toFixed trim MoreExamples.two_predictions
                MoreExamples.hovering_logit) as Hupd.
  cbv zeta in Hupd.
  destruct Hupd as (_ & Hcols & _ & _ & _ & Hhover & _).
  assert (exists col n0 n2,
            Viz.columns MoreExamples.hovering_logit !! 14%nat = Some col /\
            Viz.col_nodes col !! 0%nat = Some n0 /\
            Viz.col_nodes col !! 2%nat = Some n2 /\
            Viz.node_word n2 = Some " ran"%string /\
            Viz.hoveredInScene MoreExamples.hovering_logit = true /\
            Viz.hoveredNode MoreExamples.hovering_logit = Some (Viz.FoundNode 14 0 n0) /\
            SceneSpec.first_logit_column MoreExamples.hovering_logit 14 col)
    as (col & n0 & n2 & Hcol & Hn0 & Hn2 & Hw2 & Hflag & Hhov & Hfirst).
  { eexists _, _, _. repeat split; vm_compute; reflexivity. }
  split.
  - destruct (Hhover 14%nat 0%nat n0 col _ Hflag Hhov Hfirst Hn0 eq_refl)
      as (n' & Hh & _ & _ & Hw & _ & Hl).
    exists n'. split; [exact Hh|]. split; [exact Hw|exact Hl].
  - destruct (Hcols 14%nat col Hcol) as (col' & Hcol' & _ & _ & _ & _ & _ & Hnodes).
    destruct (Hnodes 2%nat n2 Hn2) as (n' & Hn' & _ & Hstale & _).
    exists col', n'. split; [exact Hcol'|]. split; [exact Hn'|].
    rewrite (Hstale eq_refl). exact Hw2.
Defined.

End Checks.

(** ** The entry points of [pipeline.js] around the cached logits *)
Module PipelineFacts.
Import Pipeline SamplerSpec SamplerFacts.

Section Generic.
Context {A : Type} `{Num A}.
Variable decodeToken : nat -> string.
Variable Encoded : Type.
Variable tokenize : string -> outcome (list Token * Encoded).
Variable forward : Encoded -> outcome (list A).
Variable getConfig : option ModelConfig.

Local Abbreviation run := (run decodeToken Encoded tokenize forward getConfig).
Local Abbreviation recomputePredictions := (recomputePredictions decodeToken).
Local Abbreviation generateMore := (generateMore decodeToken).
Local Abbreviation computePredictions := (computePredictions decodeToken).

(** What [computePredictions] answers is a function of the scores
    the array holds, not of the heap around it. *)
Lemma computePredictions_contents (h1 h2 : heap A) l1 l2 scores temperature topK topP r :
  h1 !! l1 = Some scores -> h2 !! l2 = Some scores ->
  fst (computePredictions l1 temperature topK topP r h1)
  = fst (computePredictions l2 temperature topK topP r h2).
Proof.
  intros H1 H2.
  rewrite (computePredictions_eq decodeToken h1 l1 scores) by exact H1.
  rewrite (computePredictions_eq decodeToken h2 l2 scores) by exact H2.
  reflexivity.
Qed.

Lemma computePredictions_keeps (h : heap A) logits temperature topK topP r l a :
  h !! l = Some a ->
  snd (computePredictions logits temperature topK topP r h) !! l = Some a.
Proof.
  intros Hl.
  pose proof (computePredictions_frame decodeToken h logits temperature topK topP r) as Hf.
  eapply lookup_weaken; eassumption.
Qed.

(** The state a run leaves when the tokenizer and the model answer. *)
Lemma run_answered text cfg r s toks encoded contents :
  tokenize text = Ret (toks, encoded) -> forward encoded = Ret contents ->
  let l := fresh (dom (arrays s)) in
  let h := <[l := contents]> (arrays s) in
  let out := computePredictions l (temperature cfg) (topK cfg) (topP cfg) r h in
  fst (run text cfg r s)
  = match fst out with
    | Ret preds => Ret {| tokens := toks; predictions := preds; modelConfig := getConfig |}
    | Throw e => Throw e
    end /\
  snd (run text cfg r s)
  = {| arrays := snd out; lastLogits := Some l; lastTokens := Some toks;
       lastModelConfig := getConfig; currentText := text |}.
Proof.
  intros Ht Hf l h out. unfold Pipeline.run. rewrite Ht, Hf. cbn [arrays lastLogits
    lastTokens lastModelConfig currentText].
  fold l. fold h. fold out. destruct out as [[preds|e] h']; split; reflexivity.
Qed.

Lemma run_returned text cfg r s res s' :
  run text cfg r s = (Ret res, s') ->
  exists toks encoded contents,
    tokenize text = Ret (toks, encoded) /\ forward encoded = Ret contents.
Proof.
  unfold Pipeline.run. destruct (tokenize text) as [[toks encoded]|e] eqn:Et; [|discriminate].
  destruct (forward encoded) as [contents|e] eqn:Ef; [|discriminate].
  intros _. eauto.
Qed.

(** X1.  After a run that returned, [recomputePredictions] under any
    sliders and any random draw answers with the predictions a fresh
    run of the same text under those sliders would return, or throws
    as it would, without calling the tokenizer or the model again;
    the cached logits, the tokens and the text stay those of the run. *)
Theorem recompute_matches_run text cfg r s res s' cfg' r' :
  run text cfg r s = (Ret res, s') ->
  fst (recomputePredictions cfg' r' s')
  = match fst (run text cfg' r' s) with
    | Ret res' => Ret (Some (predictions res'))
    | Throw e => Throw e
    end /\
  lastLogits (snd (recomputePredictions cfg' r' s')) = lastLogits s' /\
  lastTokens (snd (recomputePredictions cfg' r' s')) = Some (tokens res) /\
  currentText (snd (recomputePredictions cfg' r' s')) = text.
Proof.
  intros Hrun. destruct (run_returned _ _ _ _ _ _ Hrun) as (toks & encoded & contents & Ht & Hf).
  destruct (run_answered text cfg r s toks encoded contents Ht Hf) as [H1 H2].
  destruct (run_answered text cfg' r' s toks encoded contents Ht Hf) as [H1' _].
  rewrite Hrun in H1, H2. cbn [fst snd] in H1, H2.
  set (l := fresh (dom (arrays s))) in *.
  set (h := <[l := contents]> (arrays s)) in *.
  assert (h !! l = Some contents) as Hl by apply lookup_insert_eq.
  assert (arrays s' !! l = Some contents) as Hl'.
  { rewrite H2. cbn [arrays]. apply computePredictions_keeps. exact Hl. }
  assert (tokens res = toks) as Htok.
  { destruct (fst (computePredictions l (temperature cfg) (topK cfg) (topP cfg) r h));
      [injection H1 as ->; reflexivity|discriminate]. }
  assert (lastLogits s' = Some l) as Hlast by (rewrite H2; reflexivity).
  assert (lastTokens s' = Some toks) as Hlt by (rewrite H2; reflexivity).
  assert (currentText s' = text) as Hct by (rewrite H2; reflexivity).
  rewrite H1'.
  rewrite (computePredictions_contents h (arrays s') l l contents _ _ _ _ Hl Hl').
  unfold Pipeline.recomputePredictions. rewrite Hlast.
  destruct (computePredictions l (temperature cfg') (topK cfg') (topP cfg') r' (arrays s'))
    as [[preds|e] h'']; cbn; rewrite ?Htok; auto.
Qed.


Lemma find_at {X : Type} (f : X -> bool) (l : list X) : forall j x,
  l !! j = Some x -> f x = true ->
  (forall i y, (i < j)%nat -> l !! i = Some y -> f y = false) ->
  List.find f l = Some x.
Proof.
  induction l as [|y rest IH]; intros j x Hj Hx Hbefore; [discriminate|].
  destruct j as [|j]; simpl in *.
  - injection Hj as ->. rewrite Hx. reflexivity.
  - rewrite (Hbefore 0%nat y) by (lia || reflexivity).
    apply (IH j); [exact Hj|exact Hx|].
    intros i z Hi Hz. apply (Hbefore (S i) z); [lia|exact Hz].
Qed.

(** The sampled member of a returned list, and what [find] makes of it. *)
Lemma sampled_member (h : heap A) logits scores temperature topK topP r :
  h !! logits = Some scores -> scores <> [] -> (0 < topK)%nat ->
  exists preds h' j p,
    computePredictions logits temperature topK topP r h = (Ret preds, h') /\
    preds !! j = Some p /\ isSampled p = true /\ inNucleus p = true /\
    (forall i q, preds !! i = Some q -> isSampled q = true -> i = j) /\
    List.find isSampled preds = Some p /\
    forall l a, h !! l = Some a -> h' !! l = Some a.
Proof.
  intros Hl Hs Hk.
  pose proof (computePredictions_returns decodeToken h logits scores temperature topK topP r
                Hl Hs Hk) as Hrun.
  set (preds := predictions_of decodeToken scores temperature topK topP r) in *.
  assert (preds <> []) as Hne.
  { intros E. apply (f_equal length) in E. subst preds.
    rewrite length_predictions_of in E. destruct scores; [congruence|simpl in E; lia]. }
  destruct (predictions_of_shape decodeToken scores temperature topK topP r Hne)
    as (Hk' & Hc & Hshape & _).
  fold preds in Hk', Hshape.
  set (k := nucleus_size _ _ _) in *. set (c := sampled_index _ _ _) in *.
  destruct (lookup_lt_is_Some_2 preds c) as [p Hp]; [lia|].
  destruct (Hshape c p Hp) as (Hn & Hsam & _).
  rewrite Nat.eqb_refl in Hsam.
  assert (inNucleus p = true) as Hn'.
  { rewrite Hn. apply Nat.ltb_lt. exact Hc. }
  eexists preds, _, c, p. split; [exact Hrun|].
  split; [exact Hp|]. split; [exact Hsam|]. split; [exact Hn'|].
  split.
  { intros i q Hq Hsq. destruct (Hshape i q Hq) as (_ & Hsi & _).
    rewrite Hsq in Hsi. symmetry in Hsi. apply Nat.eqb_eq in Hsi. exact Hsi. }
  split.
  { apply (find_at isSampled preds c p Hp Hsam).
    intros i y Hi Hy. destruct (Hshape i y Hy) as (_ & Hsi & _).
    rewrite Hsi. apply Nat.eqb_neq. lia. }
  intros l a Ha.
  pose proof (computePredictions_keeps h logits temperature topK topP r l a Ha) as Hkeep.
  rewrite Hrun in Hkeep. exact Hkeep.
Qed.

(** X2.  [generateMore] returns null when there are no logits or no
    tokens.  With both, on a non-empty scores array and a positive
    topK, it returns the current text with the word of the sampled
    prediction appended: the one member [computePredictions] marks
    [isSampled], which [find] reaches, so the fallback to
    [predictions[0]] is never taken.  The cache and the text are left
    as they were: the text grows only when the caller runs the
    pipeline on [newText]. *)
Theorem generateMore_appends_sampled :
  (forall cfg r s,
     lastLogits s = None \/ lastTokens s = None ->
     generateMore cfg r s = (Ret None, s)) /\
  (forall cfg r s logits toks scores,
     lastLogits s = Some logits -> lastTokens s = Some toks ->
     arrays s !! logits = Some scores -> scores <> [] -> (0 < topK cfg)%nat ->
     exists preds j p s',
       recomputePredictions cfg r s = (Ret (Some preds), s') /\
       generateMore cfg r s
       = (Ret (Some {| newText := currentText s ++ word p; topWord := word p |}), s') /\
       preds !! j = Some p /\ isSampled p = true /\ inNucleus p = true /\
       (forall i q, preds !! i = Some q -> isSampled q = true -> i = j) /\
       List.find isSampled preds = Some p /\
       lastLogits s' = Some logits /\ lastTokens s' = Some toks /\
       currentText s' = currentText s /\ arrays s' !! logits = Some scores).
Proof.
  split.
  - intros cfg r s [Hl|Ht]; unfold Pipeline.generateMore.
    + rewrite Hl. reflexivity.
    + rewrite Ht. destruct (lastLogits s); reflexivity.
  - intros cfg r s logits toks scores Hl Ht Ha Hs Hk.
    destruct (sampled_member (arrays s) logits scores (temperature cfg) (topK cfg)
                (topP cfg) r Ha Hs Hk)
      as (preds & h' & j & p & Hrun & Hp & Hsam & Hn & Huniq & Hfind & Hkeep).
    exists preds, j, p, (with_arrays h' s).
    unfold Pipeline.recomputePredictions, Pipeline.generateMore.
    rewrite Hl, Ht, Hrun, Hfind. cbn.
    repeat (split; [first [reflexivity|assumption]|]).
    apply Hkeep. exact Ha.
Qed.

(** X3.  A run whose tokenizer or model throws has already overwritten
    the text and the model configuration.  The tokens are those of
    before the run when the tokenizer threw, and those of the new text
    when the model is what threw.  The cached logits are kept either
    way: [hasResults] and [recomputePredictions] answer as before the
    run, that is for the previous text. *)
Theorem failed_run_keeps_cache text cfg r s e :
  tokenize text = Throw e \/
  (exists toks encoded, tokenize text = Ret (toks, encoded) /\ forward encoded = Throw e) ->
  exists s',
    run text cfg r s = (Throw e, s') /\
    getCurrentText s' = text /\ lastModelConfig s' = getConfig /\
    lastLogits s' = lastLogits s /\ arrays s' = arrays s /\
    hasResults s' = hasResults s /\
    (forall e', tokenize text = Throw e' -> getLastTokens s' = getLastTokens s) /\
    (forall toks encoded,
       tokenize text = Ret (toks, encoded) -> getLastTokens s' = Some toks) /\
    forall cfg' r',
      fst (recomputePredictions cfg' r' s') = fst (recomputePredictions cfg' r' s).
Proof.
  assert (forall s' : State A,
            lastLogits s' = lastLogits s -> arrays s' = arrays s ->
            forall cfg' r',
              fst (recomputePredictions cfg' r' s') = fst (recomputePredictions cfg' r' s))
    as Hsame.
  { intros s' Hl Ha cfg' r'. unfold Pipeline.recomputePredictions. rewrite Hl, Ha.
    destruct (lastLogits s); [|reflexivity].
    destruct (computePredictions _ _ _ _ _ _) as [[?|?] ?]; reflexivity. }
  intros [Ht|(toks & encoded & Ht & Hf)]; unfold Pipeline.run; rewrite Ht, ?Hf;
    eexists; (split; [reflexivity|]); cbn [getCurrentText currentText lastModelConfig
      lastLogits arrays hasResults getLastTokens lastTokens];
    do 5 (split; [reflexivity|]).
  - split; [intros e' _; reflexivity|].
    split; [intros toks encoded Habs; discriminate Habs|].
    apply Hsame; reflexivity.
  - split; [intros e' Habs; discriminate Habs|].
    split; [intros toks' encoded' Heq; injection Heq as <- _; reflexivity|].
    apply Hsame; reflexivity.
Qed.

(** X4.  A model that returns an empty scores array: the run throws a
    TypeError after it has cached the array, so [hasResults] is true
    and every later [recomputePredictions] and [generateMore] throws
    the same TypeError. *)
Theorem empty_scores_stay_cached text cfg r s toks encoded :
  tokenize text = Ret (toks, encoded) -> forward encoded = Ret [] ->
  let s' := snd (run text cfg r s) in
  fst (run text cfg r s) = Throw TypeError /\
  hasResults s' = true /\ getLastTokens s' = Some toks /\
  forall cfg' r',
    fst (recomputePredictions cfg' r' s') = Throw TypeError /\
    fst (generateMore cfg' r' s') = Throw TypeError.
Proof.
  intros Ht Hf s'.
  destruct (run_answered text cfg r s toks encoded [] Ht Hf) as [H1 H2].
  set (l := fresh (dom (arrays s))) in *.
  set (h := <[l := []]> (arrays s)) in *.
  assert (h !! l = Some []) as Hl by apply lookup_insert_eq.
  pose proof (computePredictions_empty decodeToken h l (temperature cfg) (topK cfg)
                (topP cfg) r Hl) as He.
  rewrite He in H1. split; [exact H1|].
  subst s'. rewrite H2. split; [reflexivity|]. split; [reflexivity|].
  intros cfg' r'.
  assert (snd (computePredictions l (temperature cfg) (topK cfg) (topP cfg) r h) !! l
          = Some []) as Hl' by (apply computePredictions_keeps; exact Hl).
  pose proof (computePredictions_empty decodeToken _ l (temperature cfg') (topK cfg')
                (topP cfg') r' Hl') as He'.
  unfold Pipeline.recomputePredictions, Pipeline.generateMore. cbn [lastLogits lastTokens arrays].
  destruct (computePredictions l (temperature cfg') (topK cfg') (topP cfg') r' _)
    as [[preds|e] h'']; [discriminate He'|].
  cbn in He'. injection He' as ->. split; reflexivity.
Qed.

(** X5.  Which candidates are listed, and in which order, depends on
    the scores and the temperature only: two calls on the same scores
    with the same temperature agree position by position on token,
    word and logit over the shorter list, whatever topK, topP and the
    random draw; with the same topK they agree on the probabilities
    too. *)
Theorem ranking_independent_of_sliders (h : heap A) logits scores temperature
    topK topK' topP topP' r r' preds preds' h' h'' :
  h !! logits = Some scores ->
  computePredictions logits temperature topK topP r h = (Ret preds, h') ->
  computePredictions logits temperature topK' topP' r' h = (Ret preds', h'') ->
  (topK <= topK')%nat ->
  forall j p, preds !! j = Some p ->
    exists p', preds' !! j = Some p' /\
      tokenId p' = tokenId p /\ word p' = word p /\ logit p' = logit p /\
      (topK = topK' -> prob p' = prob p).
Proof.
  intros Hl Hrun Hrun' Hle j p Hj.
  destruct (computePredictions_result decodeToken _ _ _ _ _ _ _ _ _ Hl Hrun) as [-> _].
  destruct (computePredictions_result decodeToken _ _ _ _ _ _ _ _ _ Hl Hrun') as [-> _].
  pose proof (lookup_lt_Some _ _ _ Hj) as Hlt.
  rewrite length_predictions_of in Hlt.
  destruct (lookup_lt_is_Some_2 (predictions_of decodeToken scores temperature topK' topP' r') j)
    as [p' Hj']; [rewrite length_predictions_of; lia|].
  exists p'. split; [exact Hj'|].
  destruct (predictions_of_item decodeToken _ _ _ _ _ _ _ Hj) as (it & Hit & Ht & Hlg & Hw).
  destruct (predictions_of_item decodeToken _ _ _ _ _ _ _ Hj') as (it' & Hit' & Ht' & Hlg' & Hw').
  unfold top_items in Hit, Hit'.
  rewrite lookup_take_lt in Hit by lia. rewrite lookup_take_lt in Hit' by lia.
  rewrite Hit in Hit'. injection Hit' as <-.
  split; [congruence|]. split; [congruence|]. split; [congruence|].
  intros <-.
  pose proof (predictions_of_probs decodeToken scores temperature topK topP r) as E1.
  pose proof (predictions_of_probs decodeToken scores temperature topK topP' r') as E2.
  rewrite <- E2 in E1. apply (f_equal (fun l => l !! j)) in E1.
  rewrite !list_lookup_fmap, Hj, Hj' in E1. cbn in E1. congruence.
Qed.

End Generic.
End PipelineFacts.

(** ** The probabilities of the sampler, in exact arithmetic *)
Module DistributionFacts.
Import Pipeline SamplerSpec SamplerFacts ExactFacts.

Section Exact.
Variable exp : Q -> Q.
Variable round32 : Q -> Q.
Variable decodeToken : nat -> string.

#[local] Hint Extern 0 (Num Q) =>
  exact (ExactNum.instance exp round32) : typeclass_instances.

Open Scope Q_scope.

Lemma Qsum_app (l1 l2 : list Q) : Qsum (l1 ++ l2) == Qsum l1 + Qsum l2.
Proof. induction l1 as [|x l1 IH]; simpl; [lra|]. rewrite IH. lra. Qed.

Lemma Qsum_div (S : Q) (l : list Q) :
  ~ S == 0 -> Qsum (map (fun e => e / S) l) == Qsum l / S.
Proof.
  intros HS. induction l as [|x l IH]; simpl.
  - field. exact HS.
  - rewrite IH. field. exact HS.
Qed.

Lemma Qsum_zero (l : list Q) : Forall (fun x => x = 0) l -> Qsum l == 0.
Proof. induction 1 as [|x l -> _ IH]; simpl; [lra|]. rewrite IH. lra. Qed.

Lemma mass_Qsum (ps : list (Prediction Q)) : mass ps == Qsum (map prob ps).
Proof.
  unfold mass. change num_zero with 0.
  assert (forall c, fold_left (fun s p => num_add s (prob p)) ps c == c + Qsum (map prob ps))
    as Hgen.
  { induction ps as [|p ps IH]; intros c; simpl; [lra|]. rewrite IH.
    change (num_add c (prob p)) with (c + prob p). lra. }
  rewrite Hgen. lra.
Qed.

Lemma Qdiv_pos_le (e S : Q) : 0 < e -> e <= S -> 0 < e / S <= 1.
Proof.
  intros He HS. assert (0 < S) as HS0 by lra. split.
  - apply Qlt_shift_div_l; [exact HS0|lra].
  - apply Qle_shift_div_r; [exact HS0|lra].
Qed.

Lemma Qsum_ge_member (l : list Q) (x : Q) :
  Forall (fun e => 0 < e) l -> x ∈ l -> x <= Qsum l.
Proof.
  induction 1 as [|e l He Hl IH]; intros Hx; [inversion Hx|].
  assert (0 <= Qsum l) as Hnn.
  { destruct l; [simpl; lra|]. apply Qlt_le_weak, Qsum_pos; [exact Hl|discriminate]. }
  apply elem_of_cons in Hx as [->|Hx]; simpl; [lra|].
  specialize (IH Hx). lra.
Qed.

(** Some cumulative sum reaches a bound the total reaches. *)
Lemma crossing_reached (bound : Q) (masses : list Q) : forall cum,
  Forall (fun m => 0 <= m) masses -> masses <> [] ->
  bound <= cum + Qsum masses ->
  exists j, crossing bound cum masses = Some j.
Proof.
  induction masses as [|m rest IH]; intros cum Hnn Hne Hb; [congruence|].
  apply Forall_cons in Hnn as [Hm Hrest]. simpl.
  change (num_le bound (num_add cum m)) with (Qle_bool bound (cum + m)).
  change (num_add cum m) with (cum + m).
  destruct (Qle_bool bound (cum + m)) eqn:E; [eauto|].
  apply Qle_bool_false in E.
  destruct rest as [|m' rest'].
  - simpl in Hb. lra.
  - destruct (IH (cum + m) Hrest ltac:(discriminate)) as [j ->].
    + simpl in Hb |- *. lra.
    + simpl. eauto.
Qed.

(** The probabilities of [softmax_of]. *)
Lemma softmax_of_probs (items : list (Item Q)) :
  (forall x, 0 < exp x) -> items <> [] ->
  Forall (fun q => 0 < q <= 1) (map prob (softmax_of decodeToken items)) /\
  Qsum (map prob (softmax_of decodeToken items)) == 1.
Proof.
  intros Hexp Hne. unfold softmax_of. destruct items as [|first rest]; [congruence|].
  set (es := exps (val first) (first :: rest)).
  assert (0 < sumExp es) as HS by (apply sumExp_pos; [exact Hexp|discriminate]).
  assert (sumExp es == Qsum (map snd es)) as Hsum.
  { unfold sumExp. rewrite (fold_left_Qsum es 0). lra. }
  assert (Forall (fun e => 0 < e) (map snd es)) as Hpos.
  { apply Forall_forall. intros e He.
    apply list_elem_of_In, in_map_iff in He as (x & <- & Hx).
    subst es. unfold exps in Hx. apply in_map_iff in Hx as (it & <- & _).
    simpl. apply Hexp. }
  assert (map prob (map (make_prediction decodeToken (sumExp es)) es)
          = map (fun e => e / sumExp es) (map snd es)) as ->.
  { rewrite !map_map. reflexivity. }
  split.
  - apply Forall_forall. intros q Hq.
    apply list_elem_of_In, in_map_iff in Hq as (e & <- & He).
    apply Qdiv_pos_le.
    + eapply Forall_forall in Hpos; [exact Hpos|]. apply list_elem_of_In. exact He.
    + rewrite Hsum. apply Qsum_ge_member; [exact Hpos|]. apply list_elem_of_In. exact He.
  - rewrite Qsum_div by lra. rewrite <- Hsum. field. lra.
Qed.

(** The renormalised masses [with_nucleus] writes. *)
Lemma with_nucleus_masses (topP : Q) (ps : list (Prediction Q)) :
  Forall (fun q => 0 < q <= 1) (map prob ps) -> ps <> [] ->
  Forall (fun p => nucleusProb p = 0) ps ->
  let k := nucleus_size topP num_zero (map prob ps) in
  Forall (fun m => 0 < m <= 1) (take k (map nucleusProb (with_nucleus topP ps))) /\
  Forall (fun m => m = 0) (drop k (map nucleusProb (with_nucleus topP ps))) /\
  Qsum (take k (map nucleusProb (with_nucleus topP ps))) == 1.
Proof.
  intros Hprob Hne Hzero k.
  assert (k <= length ps)%nat as Hk.
  { subst k. etransitivity; [apply nucleus_size_le|]. rewrite length_map. done. }
  assert (0 < k)%nat as Hk0.
  { subst k. apply nucleus_size_pos. destruct ps; [congruence|discriminate]. }
  unfold with_nucleus. fold k.
  set (nsum := mass (take k ps)).
  rewrite map_app, map_map. cbn [nucleusProb set_nucleusProb].
  change (map (fun x : Prediction Q => num_div (prob x) nsum) (take k ps))
    with (map (fun x : Prediction Q => prob x / nsum) (take k ps)).
  rewrite <- (map_map prob (fun e => e / nsum)).
  assert (length (map (fun e => e / nsum) (map prob (take k ps))) = k) as Hlen.
  { rewrite !length_map, length_take. lia. }
  rewrite take_app_length' by (symmetry; exact Hlen).
  rewrite drop_app_length' by (symmetry; exact Hlen).
  assert (Forall (fun e => 0 < e) (map prob (take k ps))) as Hpos.
  { rewrite <- firstn_map. apply Forall_take.
    eapply Forall_impl; [exact Hprob|]. intros q [Hq _]. exact Hq. }
  assert (nsum == Qsum (map prob (take k ps))) as Hns by apply mass_Qsum.
  assert (0 < nsum) as Hnspos.
  { rewrite Hns. apply Qsum_pos; [exact Hpos|].
    destruct ps; [congruence|]. destruct k; [lia|discriminate]. }
  split; [|split].
  - apply Forall_forall. intros m Hm.
    apply list_elem_of_In, in_map_iff in Hm as (e & <- & He).
    apply Qdiv_pos_le.
    + eapply Forall_forall in Hpos; [exact Hpos|]. apply list_elem_of_In. exact He.
    + rewrite Hns. apply Qsum_ge_member; [exact Hpos|]. apply list_elem_of_In. exact He.
  - apply Forall_forall. intros m Hm.
    apply list_elem_of_In, in_map_iff in Hm as (p & <- & Hp).
    eapply Forall_forall in Hzero; [exact Hzero|].
    apply list_elem_of_In, list_elem_of_lookup in Hp as [i Hi].
    rewrite lookup_drop in Hi. eapply list_elem_of_lookup_2. exact Hi.
  - rewrite Qsum_div by lra. rewrite <- Hns. field. lra.
Qed.

(** X6.  In exact arithmetic with a positive [exp]: the [prob] fields
    of a result lie in (0, 1] and sum to 1 (the softmax runs over the
    top-k only); [nucleusProb] lies in (0, 1] inside the nucleus, is 0
    outside, and sums to 1 over the nucleus; so for a draw [r <= 1]
    the sampling loop always reaches its crossing, and the fallback
    to [nucleus[0]] is not needed. *)
Theorem probabilities_are_distributions (h : heap Q) logits scores temperature
    topK topP r preds h' :
  (forall x, 0 < exp x) ->
  h !! logits = Some scores ->
  computePredictions decodeToken logits temperature topK topP r h = (Ret preds, h') ->
  Forall (fun p => 0 < prob p <= 1) preds /\
  Qsum (map prob preds) == 1 /\
  Forall (fun p => if inNucleus p then 0 < nucleusProb p <= 1 else nucleusProb p = 0)
    preds /\
  Qsum (map nucleusProb (List.filter inNucleus preds)) == 1 /\
  (r <= 1 ->
   exists j, crossing r 0 (map nucleusProb (List.filter inNucleus preds)) = Some j).
Proof.
  intros Hexp Hl Hrun.
  destruct (computePredictions_result decodeToken _ _ _ _ _ _ _ _ _ Hl Hrun) as [-> Hne].
  set (preds := predictions_of decodeToken scores temperature topK topP r) in *.
  destruct (predictions_of_shape decodeToken scores temperature topK topP r Hne)
    as (Hk & Hc & Hshape & Hmass).
  fold preds in Hk, Hshape, Hmass.
  pose proof (predictions_of_probs decodeToken scores temperature topK topP r) as Hprobs.
  fold preds in Hprobs.
  set (items := top_items (num_max temperature num_min_temperature) topK scores) in *.
  set (ps0 := softmax_of decodeToken items) in *.
  set (k := nucleus_size topP num_zero (map prob ps0)) in *.
  assert (length preds = length ps0) as Hlen.
  { rewrite <- (length_map prob preds), Hprobs, length_map. reflexivity. }
  assert (items <> []) as Hitems.
  { intros E. subst ps0. rewrite E in Hlen. simpl in Hlen.
    destruct preds; [congruence|discriminate]. }
  assert (ps0 <> []) as Hne0.
  { intros E. rewrite E in Hlen. destruct preds; [congruence|discriminate]. }
  destruct (softmax_of_probs items Hexp Hitems) as [Hp01 Hp1]. fold ps0 in Hp01, Hp1.
  assert (Forall (fun p => nucleusProb p = 0) ps0) as Hz0.
  { subst ps0. unfold softmax_of. destruct items as [|first rest]; [constructor|].
    apply Forall_forall. intros p Hp.
    apply list_elem_of_In, in_map_iff in Hp as (e & <- & _). reflexivity. }
  destruct (with_nucleus_masses topP ps0 Hp01 Hne0 Hz0) as (Hn01 & Hn0 & Hn1).
  fold k in Hn01, Hn0, Hn1. rewrite <- Hmass in Hn01, Hn0, Hn1.
  assert (List.filter inNucleus preds = take k preds) as Hnuc.
  { apply ListFacts.filter_prefix_of; [lia|]. intros j p Hj. apply (Hshape j p Hj). }
  split; [|split; [|split; [|split]]].
  - apply Forall_forall. intros p Hp.
    eapply Forall_forall in Hp01; [exact Hp01|].
    rewrite <- Hprobs. apply list_elem_of_In, in_map. apply list_elem_of_In. exact Hp.
  - rewrite Hprobs. exact Hp1.
  - apply Forall_lookup. intros j p Hj.
    destruct (Hshape j p Hj) as (Hn & _). rewrite Hn.
    destruct (Nat.ltb_spec j k) as [Hjk|Hjk].
    + eapply (Forall_lookup_1 _ _ j) in Hn01; [exact Hn01|].
      rewrite lookup_take_lt by exact Hjk. rewrite list_lookup_fmap, Hj. reflexivity.
    + eapply (Forall_lookup_1 _ _ (j - k)) in Hn0; [exact Hn0|].
      rewrite lookup_drop. replace (k + (j - k))%nat with j by lia.
      rewrite list_lookup_fmap, Hj. reflexivity.
  - rewrite Hnuc, <- firstn_map. exact Hn1.
  - intros Hr. rewrite Hnuc, <- firstn_map.
    apply crossing_reached.
    + eapply Forall_impl; [exact Hn01|]. intros m [Hm _]. lra.
    + intros E. apply (f_equal length) in E.
      rewrite length_take, length_map in E. simpl in E. lia.
    + rewrite Hn1. lra.
Qed.

End Exact.
End DistributionFacts.

(** ** [utils.js] *)
Module UtilsFacts.
Import Utils UtilsSpec.
Open Scope Z_scope.

Lemma ToInt32_int32 (x : Z) : int32 (ToInt32 x).
Proof.
  unfold int32, ToInt32.
  pose proof (Z.mod_pos_bound (x + 2 ^ 31) (2 ^ 32) ltac:(lia)). lia.
Qed.

Lemma ToInt32_mod (x : Z) : ToInt32 x mod 2 ^ 32 = x mod 2 ^ 32.
Proof.
  unfold ToInt32.
  rewrite Zminus_mod_idemp_l.
  f_equal. lia.
Qed.

Lemma ToInt32_congr (x y : Z) : x mod 2 ^ 32 = y mod 2 ^ 32 -> ToInt32 x = ToInt32 y.
Proof.
  intros E. unfold ToInt32. f_equal.
  rewrite <- (Zplus_mod_idemp_l x), <- (Zplus_mod_idemp_l y), E. reflexivity.
Qed.

Lemma ToInt32_id (x : Z) : int32 x -> ToInt32 x = x.
Proof.
  unfold int32, ToInt32. intros Hx. rewrite Z.mod_small by lia. lia.
Qed.

Lemma hash_step_eq (h c : Z) : hash_step h c = ToInt32 (ToInt32 (ToInt32 h * 32) - h + c).
Proof.
  unfold hash_step, bit_or, shift_left.
  change (ToInt32 0) with 0. rewrite Z.lor_0_r.
  change (Z.land 5 31) with 5. rewrite Z.shiftl_mul_pow2 by lia. reflexivity.
Qed.

Lemma hash_step_mod (h h' c : Z) :
  h mod 2 ^ 32 = h' mod 2 ^ 32 ->
  hash_step h c mod 2 ^ 32 = (31 * h' + c) mod 2 ^ 32.
Proof.
  intros E. rewrite hash_step_eq, ToInt32_mod.
  rewrite <- Zplus_mod_idemp_l, <- Zminus_mod_idemp_l, ToInt32_mod.
  rewrite <- Zmult_mod_idemp_l, ToInt32_mod, Zmult_mod_idemp_l.
  rewrite Zminus_mod_idemp_l, Zplus_mod_idemp_l.
  replace (h * 32 - h + c) with (31 * h + c) by lia.
  rewrite <- Zplus_mod_idemp_l, <- Zmult_mod_idemp_r, E,
    Zmult_mod_idemp_r, Zplus_mod_idemp_l.
  reflexivity.
Qed.

Lemma fold_left_step {X Y : Type} (f : X -> Y -> X) (y : Y) (l : list Y) (a : X) :
  fold_left f (y :: l) a = fold_left f l (f a y).
Proof. reflexivity. Qed.

Lemma hash_fold (str : list Z) : forall h h',
  int32 h -> h mod 2 ^ 32 = h' mod 2 ^ 32 ->
  int32 (fold_left hash_step str h) /\
  fold_left hash_step str h mod 2 ^ 32
  = fold_left (fun h c => 31 * h + c) str h' mod 2 ^ 32.
Proof.
  induction str as [|c rest IH]; intros h h' Hh E; [split; assumption|].
  rewrite !fold_left_step.
  apply IH.
  - rewrite hash_step_eq. apply ToInt32_int32.
  - apply hash_step_mod. exact E.
Qed.

(** X7.  [hash(str)] is the absolute value of the polynomial
    [c_0 * 31^(n-1) + ... + c_(n-1)] of the code units, wrapped to 32
    bits signed; it lies in [0, 2^31] (2^31 itself when the wrapped
    value is -2^31), and the fallback token id
    [1000 + hash(word) % 9000] of the tokenizer lies in [1000, 9999]. *)
Theorem hash_is_polynomial (str : list Z) :
  hash str = Z.abs (ToInt32 (poly31 str)) /\
  0 <= hash str <= 2 ^ 31 /\
  1000 <= 1000 + Z.rem (hash str) 9000 <= 9999.
Proof.
  destruct (hash_fold str 0 0) as [Hr Hm]; [unfold int32; lia|reflexivity|].
  assert (hash str = Z.abs (ToInt32 (poly31 str))) as E.
  { unfold hash, poly31. f_equal.
    rewrite <- (ToInt32_id _ Hr). apply ToInt32_congr. exact Hm. }
  assert (0 <= hash str <= 2 ^ 31) as Hrange.
  { rewrite E. pose proof (ToInt32_int32 (poly31 str)) as Hp. unfold int32 in Hp. lia. }
  split; [exact E|]. split; [exact Hrange|].
  rewrite Z.rem_mod_nonneg by lia.
  pose proof (Z.mod_pos_bound (hash str) 9000 ltac:(lia)). lia.
Qed.

(** *** The generator *)

Lemma lxor_small (a b : Z) :
  0 <= a < 2 ^ 31 -> 0 <= b < 2 ^ 31 -> 0 <= Z.lxor a b < 2 ^ 31.
Proof.
  intros Ha Hb. split; [apply Z.lxor_nonneg; lia|].
  destruct (Z.eq_dec (Z.lxor a b) 0) as [->|Hne]; [lia|].
  assert (0 < Z.lxor a b) as Hpos.
  { pose proof (proj2 (Z.lxor_nonneg a b) ltac:(lia)). lia. }
  apply Z.log2_lt_pow2; [exact Hpos|].
  eapply Z.le_lt_trans; [apply Z.log2_lxor; lia|].
  apply Z.max_lub_lt.
  - destruct (Z.eq_dec a 0) as [->|]; [simpl; lia|]. apply Z.log2_lt_pow2; lia.
  - destruct (Z.eq_dec b 0) as [->|]; [simpl; lia|]. apply Z.log2_lt_pow2; lia.
Qed.

Lemma lnot_int32 (a : Z) : - 2 ^ 31 <= a < 0 -> 0 <= Z.lnot a < 2 ^ 31.
Proof. unfold Z.lnot. lia. Qed.

Lemma lxor_int32 (a b : Z) : int32 a -> int32 b -> int32 (Z.lxor a b).
Proof.
  unfold int32. intros Ha Hb.
  destruct (Z.neg_nonneg_cases a) as [Na|Na], (Z.neg_nonneg_cases b) as [Nb|Nb].
  - rewrite <- Z.lxor_lnot_lnot.
    pose proof (lxor_small (Z.lnot a) (Z.lnot b)
                  (lnot_int32 a ltac:(lia)) (lnot_int32 b ltac:(lia))). lia.
  - pose proof (lxor_small (Z.lnot a) b (lnot_int32 a ltac:(lia)) ltac:(lia)) as Hs.
    rewrite <- Z.lnot_lxor_l in Hs. unfold Z.lnot in Hs. lia.
  - pose proof (lxor_small a (Z.lnot b) ltac:(lia) (lnot_int32 b ltac:(lia))) as Hs.
    rewrite <- Z.lnot_lxor_r in Hs. unfold Z.lnot in Hs. lia.
  - pose proof (lxor_small a b ltac:(lia) ltac:(lia)). lia.
Qed.

Lemma bit_xor_int32 (a b : Z) : int32 (bit_xor a b).
Proof. apply lxor_int32; apply ToInt32_int32. Qed.

Lemma shift_right_unsigned_0 (a : Z) : shift_right_unsigned a 0 = a mod 2 ^ 32.
Proof. unfold shift_right_unsigned, ToUint32. apply Z.shiftr_0_r. Qed.

Lemma rng_spec (t : Z) :
  exists k, 0 <= k < 2 ^ 32 /\
    fst (rng t) = (inject_Z k / 4294967296)%Q /\ int32 (snd (rng t)).
Proof.
  unfold rng. cbv zeta. cbn [fst snd].
  rewrite shift_right_unsigned_0.
  eexists. split; [|split; [reflexivity|apply bit_xor_int32]].
  apply Z.mod_pos_bound. lia.
Qed.

Lemma unit_interval (k : Z) :
  0 <= k < 2 ^ 32 -> (0 <= inject_Z k / 4294967296 < 1)%Q.
Proof.
  intros Hk. split.
  - apply Qle_shift_div_l; [reflexivity|]. unfold Qle. simpl. lia.
  - apply Qlt_shift_div_r; [reflexivity|]. unfold Qlt. simpl. lia.
Qed.

(** X8.  Every draw of the generator [seededRandom] returns is
    [k / 2^32] for a 32-bit unsigned [k], hence in [0, 1); the state
    stays a 32-bit signed integer; and of the seed only its value
    modulo 2^32 counts. *)
Theorem seededRandom_draws (seed : Z) (t : Z) :
  (exists k, 0 <= k < 2 ^ 32 /\ fst (rng t) = (inject_Z k / 4294967296)%Q) /\
  (0 <= fst (rng t) < 1)%Q /\
  int32 (snd (rng t)) /\
  0x6D2B79F5 <= seededRandom seed < 2 ^ 32 + 0x6D2B79F5 /\
  forall n, seededRandom (seed + n * 2 ^ 32) = seededRandom seed.
Proof.
  destruct (rng_spec t) as (k & Hk & Hx & Ht).
  split; [eauto|]. split; [rewrite Hx; apply unit_interval; exact Hk|].
  split; [exact Ht|].
  unfold seededRandom. rewrite shift_right_unsigned_0. split.
  - pose proof (Z.mod_pos_bound seed (2 ^ 32) ltac:(lia)). lia.
  - intros n. rewrite shift_right_unsigned_0, Z.mod_add by lia. reflexivity.
Qed.

Lemma embedding_fold (ixs : list nat) : forall (vec : list Q) (t : Z),
  Forall (fun v => (-1 <= v < 1)%Q) vec ->
  length (fst (fold_left embedding_step ixs (vec, t))) = (length vec + length ixs)%nat /\
  Forall (fun v => (-1 <= v < 1)%Q) (fst (fold_left embedding_step ixs (vec, t))).
Proof.
  induction ixs as [|i rest IH]; intros vec t Hvec.
  - cbn [fold_left fst length]. split; [lia|exact Hvec].
  - rewrite !fold_left_step. cbn [length].
    destruct (rng_spec t) as (k & Hk & Hx & _).
    assert (embedding_step (vec, t) i
            = (vec ++ [(fst (rng t) * 2 - 1)%Q], snd (rng t))) as ->.
    { unfold embedding_step. cbn [fst snd]. destruct (rng t) as [x t']. reflexivity. }
    pose proof (unit_interval k Hk) as Hu. rewrite <- Hx in Hu.
    set (x := fst (rng t)) in *. set (t' := snd (rng t)) in *. clearbody x t'.
    destruct (IH (vec ++ [(x * 2 - 1)%Q]) t') as [Hlen Hall].
    + apply Forall_app. split; [exact Hvec|]. constructor; [|constructor]. lra.
    + split; [|exact Hall]. rewrite Hlen, length_app. cbn [length]. lia.
Qed.

(** X9.  [generateEmbedding] returns [DIMS = 8] numbers, each in
    [-1, 1). *)
Theorem generateEmbedding_range (tokenId : Z) :
  length (generateEmbedding tokenId) = DIMS /\
  Forall (fun v => (-1 <= v < 1)%Q) (generateEmbedding tokenId).
Proof.
  unfold generateEmbedding.
  destruct (embedding_fold (seq 0 DIMS) [] (seededRandom tokenId) ltac:(constructor))
    as [Hlen Hall].
  split; [|exact Hall]. rewrite Hlen, length_seq. reflexivity.
Qed.

(** *** Token colours *)

Lemma TOKEN_COLORS_NoDup : NoDup TOKEN_COLORS.
Proof. apply (bool_decide_unpack (NoDup TOKEN_COLORS)). vm_compute. exact I. Qed.

(** X10.  [getTokenColor] cycles through the ten colours: an index
    [>= 0] gets colour [index mod 10]; two such indices get the same
    colour exactly when they agree modulo 10, the ten colours being
    distinct; and a negative index that is not a multiple of 10 gets
    [undefined]. *)
Theorem getTokenColor_cycles :
  (forall index, 0 <= index ->
     exists c, getTokenColor index = Some c /\
               TOKEN_COLORS !! Z.to_nat (index mod 10) = Some c) /\
  (forall i j, 0 <= i -> 0 <= j ->
     (getTokenColor i = getTokenColor j <-> i mod 10 = j mod 10)) /\
  (forall index, index < 0 -> Z.rem index 10 <> 0 -> getTokenColor index = None).
Proof.
  assert (forall index, 0 <= index ->
            getTokenColor index = TOKEN_COLORS !! Z.to_nat (index mod 10)) as Hget.
  { intros index Hi. unfold getTokenColor. change (Z.of_nat (length TOKEN_COLORS)) with 10.
    rewrite Z.rem_mod_nonneg by lia.
    pose proof (Z.mod_pos_bound index 10 ltac:(lia)).
    destruct (Z.ltb_spec (index mod 10) 0); [lia|reflexivity]. }
  split; [|split].
  - intros index Hi. rewrite (Hget index Hi).
    pose proof (Z.mod_pos_bound index 10 ltac:(lia)).
    destruct (lookup_lt_is_Some_2 TOKEN_COLORS (Z.to_nat (index mod 10))) as [c Hc].
    { change (length TOKEN_COLORS) with 10%nat. lia. }
    exists c. split; exact Hc.
  - intros i j Hi Hj. rewrite (Hget i Hi), (Hget j Hj).
    pose proof (Z.mod_pos_bound i 10 ltac:(lia)).
    pose proof (Z.mod_pos_bound j 10 ltac:(lia)).
    split.
    + intros E.
      destruct (lookup_lt_is_Some_2 TOKEN_COLORS (Z.to_nat (i mod 10))) as [c Hc].
      { change (length TOKEN_COLORS) with 10%nat. lia. }
      rewrite Hc in E. symmetry in E.
      pose proof (NoDup_lookup _ _ _ _ TOKEN_COLORS_NoDup Hc E) as Heq.
      apply Z2Nat.inj in Heq; lia.
    + intros ->. reflexivity.
  - intros index Hneg Hrem. unfold getTokenColor.
    change (Z.of_nat (length TOKEN_COLORS)) with 10.
    pose proof (Z.rem_bound_pos_neg index 10 ltac:(lia) ltac:(lia)).
    destruct (Z.ltb_spec (Z.rem index 10) 0); [reflexivity|lia].
Qed.

End UtilsFacts.

(** ** [softmax] and [clamp] of [utils.js], in exact arithmetic *)
Module SoftmaxFacts.
Import SamplerSpec ExactFacts DistributionFacts Utils.
Open Scope Q_scope.

Lemma fold_left_Qplus (l : list Q) (c : Q) : fold_left Qplus l c == c + Qsum l.
Proof.
  revert c. induction l as [|x l IH]; intros c; simpl; [lra|]. rewrite IH. lra.
Qed.

Lemma Qmax_bool_floor (a : Q) : 1 # 100 <= ExactNum.Qmax_bool a (1 # 100).
Proof.
  unfold ExactNum.Qmax_bool. destruct (Qle_bool a (1 # 100)) eqn:E; [lra|].
  apply Qle_bool_false in E. lra.
Qed.

Section Exact.
Variable exp : Q -> Q.
Variable round32 : Q -> Q.

#[local] Hint Extern 0 (Num Q) =>
  exact (ExactNum.instance exp round32) : typeclass_instances.

Lemma softmax_cons (temperature a0 : Q) (rest : list Q) :
  let t := ExactNum.Qmax_bool temperature (1 # 100) in
  let m := fold_left ExactNum.Qmax_bool (map (fun l => l / t) rest) (a0 / t) in
  let S := fold_left Qplus (map (fun l => exp (l / t - m)) (a0 :: rest)) 0 in
  softmax (a0 :: rest) temperature
  = map (fun l => exp (l / t - m) / S) (a0 :: rest).
Proof.
  intros t m S. subst S. unfold softmax. cbn [map].
  change (num_max temperature num_min_temperature) with t.
  change (fold_left num_max (map (fun l : Q => num_div l t) rest) (num_div a0 t)) with m.
  rewrite !map_map. reflexivity.
Qed.

(** X11.  [softmax] of [utils.js] in exact arithmetic with a positive
    [exp]: as many values as logits, each in (0, 1], summing to 1 on
    a non-empty input; ordered as the logits are when [exp] is
    monotone; and every temperature at or below 0.01 gives the result
    of temperature 0.01. *)
Theorem softmax_is_distribution (logits : list Q) (temperature : Q) :
  (forall x, 0 < exp x) ->
  length (softmax logits temperature) = length logits /\
  Forall (fun p => 0 < p <= 1) (softmax logits temperature) /\
  (logits <> [] -> Qsum (softmax logits temperature) == 1) /\
  ((forall x y, x <= y -> exp x <= exp y) ->
   forall i j a b p q,
     logits !! i = Some a -> logits !! j = Some b ->
     softmax logits temperature !! i = Some p ->
     softmax logits temperature !! j = Some q ->
     a <= b -> p <= q) /\
  (temperature <= 1 # 100 -> softmax logits temperature = softmax logits (1 # 100)).
Proof.
  intros Hexp.
  assert (temperature <= 1 # 100 -> softmax logits temperature = softmax logits (1 # 100))
    as Hfloor.
  { intros Ht. unfold softmax.
    change (num_max temperature num_min_temperature)
      with (ExactNum.Qmax_bool temperature (1 # 100)).
    change (num_max (1 # 100) num_min_temperature)
      with (ExactNum.Qmax_bool (1 # 100) (1 # 100)).
    unfold ExactNum.Qmax_bool.
    destruct (Qle_bool temperature (1 # 100)) eqn:E; [reflexivity|].
    apply Qle_bool_false in E. lra. }
  destruct logits as [|a0 rest].
  { split; [reflexivity|]. split; [constructor|]. split; [congruence|].
    split; [|exact Hfloor]. intros _ i j a b p q Ha. discriminate Ha. }
  pose proof (softmax_cons temperature a0 rest) as Hs. cbv zeta in Hs.
  split; [rewrite Hs; apply length_map|].
  split; [|split; [|split; [|exact Hfloor]]]; rewrite Hs; clear Hs.
  all: set (t := ExactNum.Qmax_bool temperature (1 # 100)).
  all: set (m := fold_left ExactNum.Qmax_bool (map (fun l => l / t) rest) (a0 / t)).
  all: set (es := map (fun l => exp (l / t - m)) (a0 :: rest)).
  all: set (S := fold_left Qplus es 0).
  all: assert (Forall (fun e => 0 < e) es) as Hpos
    by (apply Forall_forall; intros e He;
        apply list_elem_of_In, in_map_iff in He as (l & <- & _); apply Hexp).
  all: assert (S == Qsum es) as HS by (subst S; rewrite fold_left_Qplus; lra).
  all: assert (0 < S) as HSpos by (rewrite HS; apply Qsum_pos; [exact Hpos|discriminate]).
  all: assert (map (fun l => exp (l / t - m) / S) (a0 :: rest)
               = map (fun e => e / S) es) as Hmap
    by (subst es; rewrite map_map; reflexivity).
  - rewrite Hmap. apply Forall_forall. intros p Hp.
    apply list_elem_of_In, in_map_iff in Hp as (e & <- & He).
    apply Qdiv_pos_le.
    + eapply Forall_forall in Hpos; [exact Hpos|]. apply list_elem_of_In. exact He.
    + rewrite HS. apply Qsum_ge_member; [exact Hpos|]. apply list_elem_of_In. exact He.
  - intros _. rewrite Hmap, Qsum_div by lra. rewrite <- HS. field. lra.
  - intros Hmono i j a b p q Ha Hb Hp Hq Hab.
    rewrite list_lookup_fmap, Ha in Hp. rewrite list_lookup_fmap, Hb in Hq.
    injection Hp as <-. injection Hq as <-.
    apply Qmult_le_compat_r; [|apply Qlt_le_weak, Qinv_lt_0_compat, HSpos].
    apply Hmono.
    pose proof (Qmax_bool_floor temperature) as Ht. fold t in Ht.
    assert (a / t <= b / t); [|lra].
    apply Qmult_le_compat_r; [exact Hab|].
    apply Qlt_le_weak, Qinv_lt_0_compat. lra.
Qed.

End Exact.

(** X12.  [clamp(val, min, max)]: with [min <= max] the result lies in
    [min, max], is [val] when [val] is in range and the nearer bound
    otherwise, and clamping twice changes nothing; with the bounds
    the wrong way round the result is [max]. *)
Theorem clamp_cases (val min max : Q) :
  (min <= max ->
   min <= Viz.clamp val min max <= max /\
   (min <= val <= max -> Viz.clamp val min max == val) /\
   (val <= min -> Viz.clamp val min max == min) /\
   (max <= val -> Viz.clamp val min max == max) /\
   Viz.clamp (Viz.clamp val min max) min max == Viz.clamp val min max) /\
  (max <= min -> Viz.clamp val min max == max).
Proof.
  unfold Viz.clamp.
  assert (forall v, min <= max -> min <= v <= max -> Qmin (Qmax v min) max == v) as Hin.
  { intros v Hle Hv. rewrite (proj2 (Q.max_l_iff v min)) by lra.
    apply Q.min_l. lra. }
  split.
  - intros Hle.
    assert (min <= Qmin (Qmax val min) max <= max) as Hb.
    { split; [apply Q.min_glb; [apply Q.le_max_r|exact Hle]|apply Q.le_min_r]. }
    split; [exact Hb|]. split; [apply Hin; exact Hle|]. split; [|split].
    + intros Hv. rewrite (proj2 (Q.max_r_iff val min)) by lra. apply Q.min_l. exact Hle.
    + intros Hv. apply Q.min_r.
      eapply Qle_trans; [exact Hv|apply Q.le_max_l].
    + apply Hin; [exact Hle|exact Hb].
  - intros Hle. apply Q.min_r.
    eapply Qle_trans; [exact Hle|apply Q.le_max_r].
Qed.

End SoftmaxFacts.

(** ** [config.js] *)
Module ConfigFacts.
Import ConfigStore ConfigSpec.

Lemma SFeqb_right_refl a b : SpecFloat.SFeqb a b = true -> SpecFloat.SFeqb b b = true.
Proof.
  unfold SpecFloat.SFeqb. intros Hab.
  destruct b as [s|s| |s m e].
  - reflexivity.
  - destruct s; reflexivity.
  - destruct a as [?|[]| |[] ? ?]; discriminate Hab.
  - simpl. rewrite Z.compare_refl, Pos.compare_refl. destruct s; reflexivity.
Qed.

Section WithListeners.
Context {Listener : Type} `{EqDecision Listener}.

Lemma set_changed (key : string) (v : value) (s : Store Listener) :
  (forall old, get key s = Some old -> strict_equal old v = false) ->
  set key v s
  = ({| state := assign key v (state s); listeners := listeners s |},
     map (fun fn => (fn, key, v)) (listeners s)).
Proof.
  intros Hne. unfold set. destruct (get key s) as [old|]; [|reflexivity].
  rewrite (Hne old eq_refl). reflexivity.
Qed.

Lemma set_same (key : string) (v : value) (old : member) (s : Store Listener) :
  get key s = Some old -> strict_equal old v = true -> set key v s = (s, []).
Proof. intros Hg He. unfold set. rewrite Hg, He. reflexivity. Qed.

Lemma get_own (key : string) (v : value) (s : Store Listener) :
  state s !! key = Some v -> get key s = Some (Own v).
Proof. intros E. unfold get. rewrite E. reflexivity. Qed.

Lemma assign_ordinary (key : string) (v : value) (s : Store Listener) :
  ~ prototype_setter key s -> assign key v (state s) = <[key := v]> (state s).
Proof.
  intros Hn. unfold assign. destruct (state s !! key) eqn:E; [reflexivity|].
  destruct (String.eqb_spec key "__proto__") as [Ek|]; [|reflexivity].
  exfalso. apply Hn. split; assumption.
Qed.

Lemma assign_ignored (key : string) (v : value) (s : Store Listener) :
  prototype_setter key s -> assign key v (state s) = state s.
Proof.
  intros [-> E]. unfold assign. rewrite E. reflexivity.
Qed.

Lemma get_other (key k : string) (v : value) (s : Store Listener) :
  k <> key ->
  get k {| state := assign key v (state s); listeners := listeners s |} = get k s.
Proof.
  intros Hk. unfold get, assign. cbn [state].
  destruct (state s !! key); [rewrite lookup_insert_ne by congruence; reflexivity|].
  destruct (String.eqb key "__proto__"); [reflexivity|].
  rewrite lookup_insert_ne by congruence. reflexivity.
Qed.

(** X13.  [config.get] gives the object's own value for the key, else
    the member [Object.prototype] has under that name, else
    [undefined].  [config.set] leaves the other keys and the listeners
    untouched; setting a value [===] to the one read changes nothing
    and notifies nobody; otherwise every listener is called once, in
    subscription order, with the key and the value.  The value is then
    stored as the object's own, also under an inherited name, and
    setting it again is silent, except for NaN, which never equals
    itself and notifies on every call.  The one exception is the key
    [__proto__] while the object has no property of its own by that
    name: the inherited setter stores nothing, the read keeps giving
    [Object.prototype], and every call notifies. *)
Theorem set_stores_and_notifies (key : string) (v : value) (s : Store Listener) :
  let s1 := fst (set key v s) in
  let calls := snd (set key v s) in
  (* reading *)
  (forall w, state s !! key = Some w -> get key s = Some (Own w)) /\
  (state s !! key = None -> key ∈ Object_prototype_names ->
   get key s = Some (Inherited key)) /\
  (state s !! key = None -> key ∉ Object_prototype_names -> get key s = None) /\
  (* writing *)
  (forall k, k <> key -> get k s1 = get k s) /\
  listeners s1 = listeners s /\
  ((exists old, get key s = Some old /\ strict_equal old v = true) ->
   s1 = s /\ calls = []) /\
  ((forall old, get key s = Some old -> strict_equal old v = false) ->
   calls = map (fun fn => (fn, key, v)) (listeners s)) /\
  (* an ordinary key, inherited names included *)
  (~ prototype_setter key s ->
   (exists v', get key s1 = Some (Own v') /\
      (v' = v \/ (get key s = Some (Own v') /\ strict_equal v' v = true))) /\
   ((forall old, get key s = Some old -> strict_equal old v = false) ->
    get key s1 = Some (Own v) /\ state s1 = <[key := v]> (state s)) /\
   (strict_equal v v = true -> set key v s1 = (s1, [])) /\
   (strict_equal v v = false ->
    snd (set key v s1) = map (fun fn => (fn, key, v)) (listeners s))) /\
  (* the inherited setter of [__proto__] *)
  (prototype_setter key s ->
   s1 = s /\ get key s1 = Some (Inherited key) /\
   calls = map (fun fn => (fn, key, v)) (listeners s) /\
   set key v s1 = (s1, calls)).
Proof.
  intros s1 calls.
  assert ((exists old, get key s = Some old /\ strict_equal old v = true) \/
          (forall old, get key s = Some old -> strict_equal old v = false)) as Hcase.
  { destruct (get key s) as [old|] eqn:E.
    - destruct (strict_equal old v) eqn:Ev; [left; eauto|right].
      intros old' [= <-]. exact Ev.
    - right. intros old' Habs. discriminate Habs. }
  assert ((exists old, get key s = Some old /\ strict_equal old v = true) ->
          s1 = s /\ calls = []) as Hsame.
  { intros (old & Hg & He). subst s1 calls. rewrite (set_same key v old s Hg He). auto. }
  assert ((forall old, get key s = Some old -> strict_equal old v = false) ->
          s1 = {| state := assign key v (state s); listeners := listeners s |} /\
          calls = map (fun fn => (fn, key, v)) (listeners s)) as Hchg.
  { intros Hne. subst s1 calls. rewrite (set_changed key v s Hne). auto. }
  assert (forall w, get key s = Some (Own w) -> state s !! key = Some w) as Hown.
  { intros w. unfold get. destruct (state s !! key) as [w'|]; [intros [= ->]; reflexivity|].
    destruct (bool_decide _); discriminate. }
  split; [intros w; apply get_own|].
  split.
  { intros E Hin. unfold get. rewrite E, bool_decide_eq_true_2 by exact Hin. reflexivity. }
  split.
  { intros E Hin. unfold get. rewrite E, bool_decide_eq_false_2 by exact Hin. reflexivity. }
  split.
  { intros k Hk. destruct Hcase as [Hc|Hc].
    - destruct (Hsame Hc) as [-> _]. reflexivity.
    - destruct (Hchg Hc) as [-> _]. apply get_other. exact Hk. }
  split.
  { destruct Hcase as [Hc|Hc].
    - destruct (Hsame Hc) as [-> _]. reflexivity.
    - destruct (Hchg Hc) as [-> _]. reflexivity. }
  split; [exact Hsame|].
  split; [intros Hc; apply (Hchg Hc)|].
  split.
  { intros Hord.
    assert ((forall old, get key s = Some old -> strict_equal old v = false) ->
            get key s1 = Some (Own v) /\ state s1 = <[key := v]> (state s)) as Hstored.
    { intros Hc. destruct (Hchg Hc) as [-> _]. cbn [state].
      rewrite (assign_ordinary key v s Hord). split; [|reflexivity].
      apply get_own. cbn [state]. apply lookup_insert_eq. }
    split; [|split; [exact Hstored|split]].
    - destruct Hcase as [Hc|Hc].
      + destruct (Hsame Hc) as [-> _]. destruct Hc as (old & Hg & He).
        destruct old as [w|name]; [|destruct v; discriminate He].
        exists w. split; [exact Hg|]. right. auto.
      + exists v. split; [apply (Hstored Hc)|left; reflexivity].
    - intros Hv. destruct Hcase as [Hc|Hc].
      + destruct (Hsame Hc) as [-> _]. destruct Hc as (old & Hg & He).
        apply (set_same key v old s Hg He).
      + apply (set_same key v (Own v)); [apply (Hstored Hc)|exact Hv].
    - intros Hv. destruct Hcase as [Hc|Hc].
      + exfalso. destruct Hc as (old & _ & He).
        destruct old as [[x|a]|name], v as [y|b]; cbn in He, Hv; try discriminate.
        * (* a number equal to another is not NaN *)
          rewrite FloatAxioms.eqb_spec in He, Hv.
          rewrite (SFeqb_right_refl _ _ He) in Hv. discriminate Hv.
        * rewrite String.eqb_refl in Hv. discriminate Hv.
      + destruct (Hstored Hc) as [Hg1 _]. destruct (Hchg Hc) as [Es1 _].
        rewrite set_changed; [rewrite Es1; reflexivity|].
        intros old. rewrite Hg1. intros [= <-]. exact Hv. }
  intros Hproto. pose proof Hproto as [Ek En].
  assert (get key s = Some (Inherited key)) as Hg.
  { unfold get. rewrite En, bool_decide_eq_true_2; [reflexivity|].
    rewrite Ek. unfold Object_prototype_names.
    repeat first [apply list_elem_of_here | apply list_elem_of_further]. }
  assert (forall old, get key s = Some old -> strict_equal old v = false) as Hc.
  { intros old. rewrite Hg. intros [= <-]. destruct v; reflexivity. }
  destruct (Hchg Hc) as [Es1 Ecalls].
  assert (s1 = s) as E1.
  { rewrite Es1, (assign_ignored key v s Hproto). destruct s; reflexivity. }
  split; [exact E1|]. split; [rewrite E1; exact Hg|]. split; [exact Ecalls|].
  rewrite E1, (set_changed key v s Hc), (assign_ignored key v s Hproto), Ecalls.
  destruct s; reflexivity.
Qed.

Lemma filter_not_elem (fn : Listener) (l : list Listener) :
  fn ∉ l -> List.filter (fun g => negb (bool_decide (g = fn))) l = l.
Proof.
  induction l as [|g l IH]; intros Hn; [reflexivity|].
  apply not_elem_of_cons in Hn as [Hne Hn]. simpl.
  rewrite bool_decide_eq_false_2 by congruence. simpl. f_equal. apply IH. exact Hn.
Qed.

Lemma elem_of_filter_ne (fn g : Listener) (l : list Listener) :
  g ∈ List.filter (fun g => negb (bool_decide (g = fn))) l <-> g <> fn /\ g ∈ l.
Proof.
  rewrite !list_elem_of_In, filter_In. split.
  - intros [Hin Hb]. split; [|exact Hin].
    apply negb_true_iff, bool_decide_eq_false in Hb. exact Hb.
  - intros [Hne Hin]. split; [exact Hin|].
    apply negb_true_iff, bool_decide_eq_false. exact Hne.
Qed.

Lemma NoDup_filter_ne (fn : Listener) (l : list Listener) :
  NoDup l -> NoDup (List.filter (fun g => negb (bool_decide (g = fn))) l).
Proof.
  induction 1 as [|g l Hg Hl IH]; simpl; [constructor|].
  destruct (negb (bool_decide (g = fn))); [|exact IH].
  constructor; [|exact IH]. rewrite elem_of_filter_ne. tauto.
Qed.

(** X14.  The listeners of [config.js] form a set: subscribing twice is
    subscribing once (one call per change); the function [onChange]
    returns removes that listener and no other, and reports that it
    was there; called a second time it reports false and changes
    nothing. *)
Theorem subscription_is_a_set (fn : Listener) (s : Store Listener) :
  NoDup (listeners s) ->
  let s1 := onChange fn s in
  let s2 := snd (unsubscribe fn s1) in
  (* subscribing *)
  NoDup (listeners s1) /\ state s1 = state s /\
  (forall g, g ∈ listeners s1 <-> g = fn \/ g ∈ listeners s) /\
  onChange fn s1 = s1 /\
  (forall key v,
     (forall old, get key s1 = Some old -> strict_equal old v = false) ->
     length (List.filter (fun c => bool_decide (c.1.1 = fn)) (snd (set key v s1))) = 1%nat) /\
  (* unsubscribing *)
  fst (unsubscribe fn s1) = true /\
  NoDup (listeners s2) /\ state s2 = state s /\
  (forall g, g ∈ listeners s2 <-> g <> fn /\ g ∈ listeners s) /\
  (forall key v, Forall (fun c => c.1.1 <> fn) (snd (set key v s2))) /\
  unsubscribe fn s2 = (false, s2) /\
  (fn ∉ listeners s -> s2 = s).
Proof.
  intros Hnd s1 s2.
  assert (listeners s1 = listeners s /\ fn ∈ listeners s \/
          listeners s1 = listeners s ++ [fn] /\ fn ∉ listeners s) as Hcase.
  { subst s1. unfold onChange. destruct (decide (fn ∈ listeners s)); [left|right]; auto. }
  assert (state s1 = state s) as Hst.
  { subst s1. unfold onChange. destruct (decide (fn ∈ listeners s)); reflexivity. }
  assert (forall g, g ∈ listeners s1 <-> g = fn \/ g ∈ listeners s) as Hmem.
  { intros g. destruct Hcase as [[-> Hin]|[-> Hn]].
    - split; [auto|]. intros [->|Hg]; assumption.
    - rewrite elem_of_app, list_elem_of_singleton. tauto. }
  assert (NoDup (listeners s1)) as Hnd1.
  { destruct Hcase as [[-> _]|[-> Hn]]; [exact Hnd|].
    apply NoDup_app. split; [exact Hnd|]. split; [|apply NoDup_singleton].
    intros g Hg Hg'. apply list_elem_of_singleton in Hg'. subst g. contradiction. }
  assert (fn ∈ listeners s1) as Hin1 by (apply Hmem; auto).
  assert (listeners s2 = List.filter (fun g => negb (bool_decide (g = fn))) (listeners s1))
    as Hl2 by reflexivity.
  assert (forall g, g ∈ listeners s2 <-> g <> fn /\ g ∈ listeners s) as Hmem2.
  { intros g. rewrite Hl2, elem_of_filter_ne, Hmem. split.
    - intros [Hne [->|Hg]]; [congruence|auto].
    - intros [Hne Hg]. auto. }
  split; [exact Hnd1|]. split; [exact Hst|]. split; [exact Hmem|].
  split.
  { unfold onChange at 1. destruct (decide (fn ∈ listeners s1)); [reflexivity|contradiction]. }
  split.
  { intros key v Hne. rewrite (set_changed key v s1 Hne). cbn [snd].
    clear -Hnd1 Hin1. induction (listeners s1) as [|g l IH]; [inversion Hin1|].
    apply NoDup_cons in Hnd1 as [Hg Hl]. simpl.
    destruct (decide (g = fn)) as [->|Hne].
    - rewrite bool_decide_eq_true_2 by reflexivity. simpl. f_equal.
      clear -Hg. induction l as [|g l IH]; [reflexivity|].
      apply not_elem_of_cons in Hg as [Hne Hg]. simpl.
      rewrite bool_decide_eq_false_2 by congruence. apply IH. exact Hg.
    - rewrite bool_decide_eq_false_2 by exact Hne.
      apply IH; [exact Hl|]. apply elem_of_cons in Hin1 as [->|Hin1]; [congruence|exact Hin1]. }
  split.
  { cbn. apply bool_decide_eq_true_2. exact Hin1. }
  split; [rewrite Hl2; apply NoDup_filter_ne; exact Hnd1|].
  split; [exact Hst|]. split; [exact Hmem2|].
  assert (fn ∉ listeners s2) as Hn2.
  { intros Habs. apply Hmem2 in Habs as [Habs _]. congruence. }
  split.
  { intros key v. unfold set.
    destruct (match get key s2 with Some old => strict_equal old v | None => false end);
      [constructor|].
    cbn [snd]. apply Forall_forall. intros c Hc.
    apply list_elem_of_In, in_map_iff in Hc as (g & <- & Hg). cbn.
    intros ->. apply Hn2. apply list_elem_of_In. exact Hg. }
  split.
  { unfold unsubscribe. rewrite bool_decide_eq_false_2 by exact Hn2.
    rewrite (filter_not_elem fn (listeners s2) Hn2). destruct s2; reflexivity. }
  intros Hn. destruct Hcase as [[_ Hin]|[Hl1 _]]; [contradiction|].
  assert (listeners s2 = listeners s) as Hl2'.
  { rewrite Hl2, Hl1, List.filter_app. simpl.
    rewrite bool_decide_eq_true_2 by reflexivity. simpl.
    rewrite app_nil_r. apply filter_not_elem. exact Hn. }
  destruct s as [st ls]. subst s2 s1. unfold unsubscribe. cbn [snd state].
  cbn in Hst, Hl2'. rewrite Hst. f_equal. exact Hl2'.
Qed.

End WithListeners.
End ConfigFacts.

(** ** The scene [build] lays out *)
Module LayoutFacts.
Import Viz SceneSpec LayoutSpec HoverFacts.
Open Scope Q_scope.

Section WithPayload.
Context {A : Type} `{Num A}.
Variable toFixed : A -> nat -> string.
Variable trim : string -> string.

Local Abbreviation build := (build toFixed trim).
Local Abbreviation updatePredictions := (updatePredictions toFixed).

Lemma column_x_S c : column_x (S c) == column_x c + COLUMN_GAP.
Proof. unfold column_x. rewrite Qnat_S. lra. Qed.

Lemma layers_fold (startY : Q) (n : nat) : forall m a x (cols : list (Column A)),
  exists x' news,
    fold_left (layer_step startY n) (seq a m) (x, cols) = (x', cols ++ news) /\
    length news = m /\ x' == x + Qnat m * COLUMN_GAP /\
    forall j col, news !! j = Some col ->
      col_type col = transformer /\
      exists xj, xj == x + Qnat j * COLUMN_GAP /\
        col_nodes col = map (layer_node xj startY (a + j)) (seq 0 n).
Proof.
  induction m as [|m IH]; intros a x cols.
  - exists x, []. simpl. rewrite app_nil_r. split; [reflexivity|]. split; [reflexivity|].
    split; [change (Qnat 0) with 0; lra|]. intros j col Hj. discriminate Hj.
  - simpl.
    set (col_a := {| col_label := _; col_color := COLORS_transformer;
                     col_nodes := map (layer_node x startY a) (seq 0 n);
                     col_type := transformer |}).
    destruct (IH (S a) (x + COLUMN_GAP) (cols ++ [col_a])) as (x' & news & E & Hlen & Hx & Hn).
    exists x', (col_a :: news). split.
    { rewrite E, <- app_assoc. reflexivity. }
    split; [simpl; lia|]. split; [rewrite Qnat_S, Hx; lra|].
    intros [|j] col Hj.
    + injection Hj as <-. split; [reflexivity|]. exists x.
      split; [change (Qnat 0) with 0; lra|]. rewrite Nat.add_0_r. reflexivity.
    + simpl in Hj. destruct (Hn j col Hj) as (Ht & xj & Hxj & Hnodes).
      split; [exact Ht|]. exists xj. split; [rewrite Qnat_S, Hxj; lra|].
      rewrite Hnodes. f_equal. f_equal. lia.
Qed.

(** [build], with its loop run. *)
Lemma build_unfold tokens cfg predictions (s : State A) :
  let startY := TOP_PADDING + 30 in
  let gap := actualLogitGap (length tokens) (length predictions) in
  let L := Pipeline.layers cfg in
  exists x news,
    x == column_x (L + 2) /\ length news = L /\
    (forall j col, news !! j = Some col ->
       col_type col = transformer /\
       exists xj, xj == column_x (j + 2) /\
         col_nodes col = map (layer_node xj startY j) (seq 0 (length tokens))) /\
    columns (build tokens cfg predictions s)
    = [ {| col_label := "TOKENS"; col_color := COLORS_token;
           col_nodes := imap (token_node trim LEFT_PADDING startY) tokens;
           col_type := token |};
        {| col_label := "EMBEDDINGS"; col_color := COLORS_embedding;
           col_nodes := imap (embed_node trim (LEFT_PADDING + COLUMN_GAP) startY) tokens;
           col_type := embedding |} ]
      ++ news
      ++ [ {| col_label := "LOGITS"; col_color := COLORS_logit;
              col_nodes := imap (logit_node toFixed x startY gap) predictions;
              col_type := logit |} ] /\
    outputBars (build tokens cfg predictions s)
    = imap (output_bar (x + (COLUMN_GAP + 10)) startY gap) predictions /\
    let totalWidth := x + (COLUMN_GAP + 10) + 280 in
    let totalNodeHeight :=
      Qmax ((Qnat (length tokens) - 1) * ROW_GAP + TOP_PADDING + 80)
           ((Qnat (length predictions) - 1) * gap + TOP_PADDING + 80) in
    let z := Qmax (Qmin (Qmin (clientWidth s / totalWidth)
                              (clientHeight s / totalNodeHeight)) (15 # 10)) (3 # 10) in
    zoom (build tokens cfg predictions s) = z /\
    panX (build tokens cfg predictions s) = Some ((clientWidth s - totalWidth * z) / 2) /\
    panY (build tokens cfg predictions s)
    = Some (Qmax ((clientHeight s - totalNodeHeight * z) / 2) 10).
Proof.
  intros startY gap L.
  destruct (layers_fold startY (length tokens) L 0 (LEFT_PADDING + COLUMN_GAP + COLUMN_GAP)
              ([ {| col_label := "TOKENS"; col_color := COLORS_token;
                    col_nodes := imap (token_node trim LEFT_PADDING startY) tokens;
                    col_type := token |} ] ++
               [ {| col_label := "EMBEDDINGS"; col_color := COLORS_embedding;
                    col_nodes := imap (embed_node trim (LEFT_PADDING + COLUMN_GAP) startY) tokens;
                    col_type := embedding |} ]))
    as (x & news & E & Hlen & Hx & Hn).
  exists x, news. split.
  { rewrite Hx. unfold column_x. replace (L + 2)%nat with (S (S L)) by lia.
    rewrite !Qnat_S. lra. }
  split; [exact Hlen|]. split.
  { intros j col Hj. destruct (Hn j col Hj) as (Ht & xj & Hxj & Hnodes).
    split; [exact Ht|]. exists xj. split; [|exact Hnodes].
    rewrite Hxj. unfold column_x. replace (j + 2)%nat with (S (S j)) by lia.
    rewrite !Qnat_S. lra. }
  unfold Viz.build. fold startY. fold L. fold gap. rewrite E. cbn.
  repeat split; reflexivity.
Qed.

Lemma logit_gap_bounds (numTokens numPreds : nat) :
  MIN_LOGIT_GAP <= actualLogitGap numTokens numPreds <= ROW_GAP.
Proof.
  unfold actualLogitGap. split; [apply Q.le_max_l|].
  apply Q.max_lub; [unfold MIN_LOGIT_GAP, ROW_GAP; lra|apply Q.le_min_l].
Qed.

(** The columns of a built scene, by position. *)
Lemma build_column tokens cfg predictions (s : State A) c col :
  let startY := TOP_PADDING + 30 in
  let gap := actualLogitGap (length tokens) (length predictions) in
  let L := Pipeline.layers cfg in
  columns (build tokens cfg predictions s) !! c = Some col ->
  (c = 0%nat /\ col_type col = token /\
   col_nodes col = imap (token_node trim LEFT_PADDING startY) tokens) \/
  (c = 1%nat /\ col_type col = embedding /\
   col_nodes col = imap (embed_node trim (LEFT_PADDING + COLUMN_GAP) startY) tokens) \/
  ((2 <= c < L + 2)%nat /\ col_type col = transformer /\
   exists xj, xj == column_x c /\
     col_nodes col = map (layer_node xj startY (c - 2)) (seq 0 (length tokens))) \/
  (c = (L + 2)%nat /\ col_type col = logit /\
   exists x, x == column_x c /\
     col_nodes col = imap (logit_node toFixed x startY gap) predictions).
Proof.
  intros startY gap L Hc.
  destruct (build_unfold tokens cfg predictions s)
    as (x & news & Hx & Hlen & Hnews & Hcols & _).
  rewrite Hcols in Hc. fold startY gap L in Hx, Hlen, Hnews, Hc.
  destruct c as [|[|c]].
  - cbn in Hc. injection Hc as <-. left. auto.
  - cbn in Hc. injection Hc as <-. right. left. auto.
  - right. right.
    match type of Hc with
    | ([_; _] ++ ?l) !! _ = _ => assert (l !! c = Some col) as Hc' by exact Hc
    end.
    clear Hc. rename Hc' into Hc.
    destruct (Nat.lt_ge_cases c (length news)) as [Hlt|Hge].
    + rewrite lookup_app_l in Hc by exact Hlt.
      destruct (Hnews c col Hc) as (Ht & xj & Hxj & Hnodes).
      left. split; [lia|]. split; [exact Ht|]. exists xj.
      replace (c + 2)%nat with (S (S c)) in Hxj by lia. split; [exact Hxj|].
      replace (S (S c) - 2)%nat with c by lia. exact Hnodes.
    + rewrite lookup_app_r in Hc by exact Hge.
      destruct (c - length news)%nat as [|k] eqn:Ek; [|destruct k; discriminate Hc].
      injection Hc as <-. right. split; [lia|]. split; [reflexivity|].
      exists x. split; [|reflexivity].
      replace (S (S c)) with (L + 2)%nat by lia. exact Hx.
Qed.

Lemma length_build_columns tokens cfg predictions (s : State A) :
  length (columns (build tokens cfg predictions s)) = (Pipeline.layers cfg + 3)%nat.
Proof.
  destruct (build_unfold tokens cfg predictions s) as (x & news & _ & Hlen & _ & -> & _).
  cbn. rewrite length_app. simpl. lia.
Qed.

(** The nodes of a built scene: type, index and place. *)
Lemma build_node tokens cfg predictions (s : State A) c col i n :
  let gap := actualLogitGap (length tokens) (length predictions) in
  let L := Pipeline.layers cfg in
  columns (build tokens cfg predictions s) !! c = Some col ->
  col_nodes col !! i = Some n ->
  col_type col = column_type L c /\
  node_type n = col_type col /\ node_index n = i /\
  (i < (if (c <? L + 2)%nat then length tokens else length predictions))%nat /\
  node_x n == column_x c /\
  node_y n == row_y (if (c <? L + 2)%nat then ROW_GAP else gap) i.
Proof.
  intros gap L Hc Hi.
  assert (TOP_PADDING + 30 == 80) as HY by (unfold TOP_PADDING; lra).
  pose proof (lookup_lt_Some _ _ _ Hi) as Hlt.
  destruct (build_column tokens cfg predictions s c col Hc)
    as [(-> & Ht & Hn)|[(-> & Ht & Hn)|[(Hr & Ht & xj & Hxj & Hn)|(Hr & Ht & x & Hx & Hn)]]];
    fold L gap in Hn; rewrite Hn in Hi, Hlt; unfold column_type, row_y; rewrite Ht.
  - rewrite list_lookup_imap in Hi. rewrite length_imap in Hlt.
    destruct (tokens !! i) as [t|]; [|discriminate Hi]. injection Hi as <-.
    destruct (Nat.ltb_spec 0 (L + 2)); [|lia].
    split; [reflexivity|]. split; [reflexivity|]. split; [reflexivity|].
    split; [exact Hlt|]. split.
    + change (LEFT_PADDING == column_x 0). unfold column_x. change (Qnat 0) with 0. lra.
    + change (TOP_PADDING + 30 + Qnat i * ROW_GAP == 80 + Qnat i * ROW_GAP).
      rewrite HY. reflexivity.
  - rewrite list_lookup_imap in Hi. rewrite length_imap in Hlt.
    destruct (tokens !! i) as [t|]; [|discriminate Hi]. injection Hi as <-.
    destruct (Nat.ltb_spec 1 (L + 2)); [|lia].
    split; [reflexivity|]. split; [reflexivity|]. split; [reflexivity|].
    split; [exact Hlt|]. split.
    + change (LEFT_PADDING + COLUMN_GAP == column_x 1). unfold column_x.
      change (Qnat 1) with 1. lra.
    + change (TOP_PADDING + 30 + Qnat i * ROW_GAP == 80 + Qnat i * ROW_GAP).
      rewrite HY. reflexivity.
  - rewrite list_lookup_fmap in Hi. rewrite length_map, length_seq in Hlt.
    rewrite lookup_seq_lt in Hi by exact Hlt. injection Hi as <-.
    destruct c as [|[|c]]; [lia|lia|]. cbn [Nat.eqb].
    destruct (Nat.ltb_spec (S (S c)) (L + 2)); [|lia].
    split; [reflexivity|]. split; [reflexivity|]. split; [reflexivity|].
    split; [exact Hlt|]. split.
    + exact Hxj.
    + change (TOP_PADDING + 30 + Qnat i * ROW_GAP == 80 + Qnat i * ROW_GAP).
      rewrite HY. reflexivity.
  - rewrite list_lookup_imap in Hi. rewrite length_imap in Hlt.
    destruct (predictions !! i) as [p|]; [|discriminate Hi]. injection Hi as <-.
    fold L in Hr. destruct c as [|[|c]]; [lia|lia|]. cbn [Nat.eqb].
    destruct (Nat.ltb_spec (S (S c)) (L + 2)); [lia|].
    split; [reflexivity|]. split; [reflexivity|]. split; [reflexivity|].
    split; [exact Hlt|]. split.
    + exact Hx.
    + change (TOP_PADDING + 30 + Qnat i * gap == 80 + Qnat i * gap).
      rewrite HY. reflexivity.
Qed.

Lemma build_bar tokens cfg predictions (s : State A) i b :
  let gap := actualLogitGap (length tokens) (length predictions) in
  let L := Pipeline.layers cfg in
  outputBars (build tokens cfg predictions s) !! i = Some b ->
  exists p x, predictions !! i = Some p /\
    b = output_bar x (TOP_PADDING + 30) gap i p /\
    x == column_x (L + 2) + 80.
Proof.
  intros gap L Hb.
  destruct (build_unfold tokens cfg predictions s) as (x & news & Hx & _ & _ & _ & Hbars & _).
  rewrite Hbars, list_lookup_imap in Hb.
  destruct (predictions !! i) as [p|]; [|discriminate Hb]. injection Hb as <-.
  exists p, (x + (COLUMN_GAP + 10)). split; [reflexivity|]. split; [reflexivity|].
  fold L in Hx. rewrite Hx. unfold COLUMN_GAP. lra.
Qed.

(** A column of a built scene: its type, its length and its nodes. *)
Lemma build_column_shape tokens cfg predictions (s : State A) c col :
  let L := Pipeline.layers cfg in
  let g := actualLogitGap (length tokens) (length predictions) in
  columns (build tokens cfg predictions s) !! c = Some col ->
  col_type col = column_type L c /\
  length (col_nodes col)
  = (if (c <? L + 2)%nat then length tokens else length predictions) /\
  forall i n, col_nodes col !! i = Some n ->
    node_type n = col_type col /\ node_index n = i /\
    node_x n == column_x c /\
    node_y n == row_y (if (c <? L + 2)%nat then ROW_GAP else g) i.
Proof.
  intros L g Hc. split; [|split].
  - destruct (build_column tokens cfg predictions s c col Hc)
      as [(Hr & Ht & _)|[(Hr & Ht & _)|[(Hr & Ht & _)|(Hr & Ht & _)]]];
      rewrite Ht; unfold column_type; fold L in Hr |- *;
      (destruct c as [|[|c]]; [try reflexivity; lia ..|]); cbn [Nat.eqb];
      destruct (Nat.ltb_spec (S (S c)) (L + 2)); try reflexivity; lia.
  - destruct (build_column tokens cfg predictions s c col Hc)
      as [(Hr & _ & Hn)|[(Hr & _ & Hn)|[(Hr & _ & xj & _ & Hn)|(Hr & _ & x0 & _ & Hn)]]];
      rewrite Hn; fold L in Hr |- *;
      rewrite ?length_imap, ?length_map, ?length_seq;
      destruct (Nat.ltb_spec c (L + 2)); try reflexivity; lia.
  - intros i n Hi.
    destruct (build_node tokens cfg predictions s c col i n Hc Hi)
      as (_ & Hty & Hix & _ & Hnx & Hny).
    auto.
Qed.

(** X15.  The scene [build] makes: [layers + 3] columns (tokens,
    embeddings, one per layer, logits) with the types in that order;
    column [c] at abscissa [100 + 70 c] and its node [i] at ordinate
    [80 + i * gap], the gap being 36, or the logit gap (between 22
    and 36) in the logits column; the token and embedding nodes carry
    the token ids (the embedding also the trimmed text); the logit
    nodes and the bars carry the predictions, bar [i] beside logit
    node [i], 80 to its right, and only bar 0 is the winner; the
    model configuration is the one passed. *)
Theorem build_layout tokens cfg predictions (s : State A) :
  let s' := build tokens cfg predictions s in
  let L := Pipeline.layers cfg in
  let g := actualLogitGap (length tokens) (length predictions) in
  length (columns s') = (L + 3)%nat /\
  (forall c col, columns s' !! c = Some col ->
     col_type col = column_type L c /\
     length (col_nodes col)
     = (if (c <? L + 2)%nat then length tokens else length predictions) /\
     forall i n, col_nodes col !! i = Some n ->
       node_type n = col_type col /\ node_index n = i /\
       node_x n == column_x c /\
       node_y n == row_y (if (c <? L + 2)%nat then ROW_GAP else g) i) /\
  (forall i t, tokens !! i = Some t ->
     exists c0 n0 c1 n1,
       columns s' !! 0%nat = Some c0 /\ col_nodes c0 !! i = Some n0 /\
       node_id n0 = Some (Pipeline.id t) /\
       columns s' !! 1%nat = Some c1 /\ col_nodes c1 !! i = Some n1 /\
       node_id n1 = Some (Pipeline.id t) /\
       node_tokenText n1 = Some (trim (Pipeline.text t))) /\
  (forall i p, predictions !! i = Some p ->
     exists lc n b,
       columns s' !! (L + 2)%nat = Some lc /\ col_nodes lc !! i = Some n /\
       node_word n = Some (Pipeline.word p) /\
       node_prob n = Some (Pipeline.prob p) /\
       node_logit n = Some (Pipeline.logit p) /\
       outputBars s' !! i = Some b /\
       bar_word b = Pipeline.word p /\ bar_prob b = Pipeline.prob p /\
       bar_inNucleus b = Pipeline.inNucleus p /\
       bar_isSampled b = Pipeline.isSampled p /\
       bar_isWinner b = Nat.eqb i 0 /\
       bar_x b == column_x (L + 2) + 80 /\ bar_y b == node_y n) /\
  length (outputBars s') = length predictions /\
  MIN_LOGIT_GAP <= g <= ROW_GAP /\
  getModelConfig s' = Some cfg.
Proof.
  intros s' L g.
  destruct (build_unfold tokens cfg predictions s)
    as (x & news & Hx & Hlen & Hnews & Hcols & Hbars & _).
  fold s' L g in Hx, Hlen, Hnews, Hcols, Hbars.
  split; [apply length_build_columns|]. split; [|split; [|split; [|split; [|split]]]].
  - intros c col Hc. exact (build_column_shape tokens cfg predictions s c col Hc).
  - intros i t Ht. rewrite Hcols. cbn.
    eexists _, _, _, _. split; [reflexivity|]. split.
    { cbn. rewrite list_lookup_imap, Ht. reflexivity. }
    split; [reflexivity|]. split; [reflexivity|]. split.
    { cbn. rewrite list_lookup_imap, Ht. reflexivity. }
    split; reflexivity.
  - intros i p Hp. rewrite Hcols, Hbars.
    eexists _, _, _. split.
    { rewrite lookup_app_r by (simpl; lia).
      rewrite lookup_app_r by (simpl; lia).
      replace (L + 2 - length _ - length news)%nat with 0%nat by (simpl; lia).
      reflexivity. }
    split; [cbn; rewrite list_lookup_imap, Hp; reflexivity|].
    split; [reflexivity|]. split; [reflexivity|]. split; [reflexivity|].
    split; [rewrite list_lookup_imap, Hp; reflexivity|].
    cbn. repeat (split; [reflexivity|]). split; [|reflexivity].
    rewrite Hx. unfold COLUMN_GAP. lra.
  - rewrite Hbars. apply length_imap.
  - apply logit_gap_bounds.
  - subst s'. unfold getModelConfig, Viz.build.
    destruct (fold_left _ _ _). reflexivity.
Qed.

(** *** The partial update against a rebuild *)

(** The columns left of the logits and the abscissa of the logits:
    they depend on the tokens and the model only. *)
Lemma build_scene tokens cfg predictions (s : State A) :
  let startY := TOP_PADDING + 30 in
  let gap := actualLogitGap (length tokens) (length predictions) in
  let F := fold_left (layer_step startY (length tokens)) (seq 0 (Pipeline.layers cfg))
             (LEFT_PADDING + COLUMN_GAP + COLUMN_GAP,
              [ {| col_label := "TOKENS"; col_color := COLORS_token;
                   col_nodes := imap (token_node trim LEFT_PADDING startY) tokens;
                   col_type := token |} ] ++
              [ {| col_label := "EMBEDDINGS"; col_color := COLORS_embedding;
                   col_nodes := imap (embed_node trim (LEFT_PADDING + COLUMN_GAP) startY)
                                  tokens;
                   col_type := embedding |} ]) in
  columns (build tokens cfg predictions s)
  = snd F ++ [ {| col_label := "LOGITS"; col_color := COLORS_logit;
                  col_nodes := imap (logit_node toFixed (fst F) startY gap) predictions;
                  col_type := logit |} ] /\
  outputBars (build tokens cfg predictions s)
  = imap (output_bar (fst F + (COLUMN_GAP + 10)) startY gap) predictions /\
  Forall (fun col => col_type col <> logit) (snd F).
Proof.
  intros startY gap F. split; [|split].
  - unfold Viz.build. fold startY gap F. destruct F as [x cols]. reflexivity.
  - unfold Viz.build. fold startY gap F. destruct F as [x cols]. reflexivity.
  - subst F.
    destruct (layers_fold startY (length tokens) (Pipeline.layers cfg) 0
                (LEFT_PADDING + COLUMN_GAP + COLUMN_GAP)
                ([ {| col_label := "TOKENS"; col_color := COLORS_token;
                      col_nodes := imap (token_node trim LEFT_PADDING startY) tokens;
                      col_type := token |} ] ++
                 [ {| col_label := "EMBEDDINGS"; col_color := COLORS_embedding;
                      col_nodes := imap (embed_node trim (LEFT_PADDING + COLUMN_GAP) startY)
                                     tokens;
                      col_type := embedding |} ]))
      as (x & news & -> & _ & _ & Hn).
    cbn [snd]. apply Forall_app. split.
    + repeat constructor; discriminate.
    + apply Forall_lookup. intros j col Hj. destruct (Hn j col Hj) as [-> _]. discriminate.
Qed.

Lemma list_find_last {X : Type} (P : X -> Prop) `{forall x, Decision (P x)}
    (l : list X) (x : X) :
  Forall (fun y => ~ P y) l -> P x -> list_find P (l ++ [x]) = Some (length l, x).
Proof.
  intros Hl Hx. apply list_find_Some. split; [apply list_lookup_middle; reflexivity|].
  split; [exact Hx|]. intros j y Hj Hlt.
  rewrite lookup_app_l in Hj by exact Hlt.
  eapply Forall_lookup_1 in Hl; eauto.
Qed.

Lemma update_logit_nodes predictions predictions' x startY gap :
  length predictions' = length predictions ->
  update_nodes toFixed predictions' (imap (logit_node toFixed x startY gap) predictions)
  = imap (logit_node toFixed x startY gap) predictions'.
Proof.
  intros Hlen. apply list_eq. intros i.
  rewrite (SceneFacts.update_nodes_lookup toFixed), !list_lookup_imap.
  destruct (predictions' !! i) as [p'|] eqn:E'.
  - destruct (lookup_lt_is_Some_2 predictions i) as [p ->]; [|reflexivity].
    apply lookup_lt_Some in E'. lia.
  - rewrite (proj2 (lookup_ge_None predictions i)); [reflexivity|].
    apply lookup_ge_None in E'. lia.
Qed.

Lemma update_built_bars predictions predictions' x startY gap :
  length predictions' = length predictions ->
  update_bars predictions' (imap (output_bar x startY gap) predictions)
  = imap (output_bar x startY gap) predictions'.
Proof.
  intros Hlen. apply list_eq. intros i. unfold update_bars.
  rewrite !list_lookup_imap.
  destruct (predictions' !! i) as [p'|] eqn:E'.
  - destruct (lookup_lt_is_Some_2 predictions i) as [p ->]; [|reflexivity].
    apply lookup_lt_Some in E'. lia.
  - rewrite (proj2 (lookup_ge_None predictions i)); [reflexivity|].
    apply lookup_ge_None in E'. lia.
Qed.

(** X16.  On a built scene, [updatePredictions] with as many
    predictions as the scene was built with gives exactly the state
    that building with the new predictions gives: scene, camera and
    animation. *)
Theorem update_agrees_with_rebuild tokens cfg predictions predictions' (s : State A) :
  length predictions' = length predictions ->
  updatePredictions predictions' (build tokens cfg predictions s)
  = build tokens cfg predictions' s.
Proof.
  intros Hlen.
  destruct (build_scene tokens cfg predictions s) as (Hcols & Hbars & Hnot).
  destruct (build_scene tokens cfg predictions' s) as (Hcols' & Hbars' & _).
  cbv zeta in Hcols, Hbars, Hnot, Hcols', Hbars'. rewrite Hlen in Hcols', Hbars'.
  set (F := fold_left _ _ _) in *.
  set (gap := actualLogitGap (length tokens) (length predictions)) in *.
  set (B := build tokens cfg predictions s) in *.
  assert (columns (updatePredictions predictions' B) = columns (build tokens cfg predictions' s))
    as E1.
  { rewrite (SceneFacts.updatePredictions_columns_eq toFixed), Hcols, Hcols'.
    destruct (snd F ++ _) eqn:Enil at 1; [destruct (snd F); discriminate Enil|].
    rewrite list_find_last; [|exact Hnot|reflexivity].
    rewrite alter_app_r_alt by lia. rewrite Nat.sub_diag. cbn [alter list_alter].
    unfold update_column. cbn [col_label col_color col_nodes col_type].
    rewrite update_logit_nodes by exact Hlen. reflexivity. }
  assert (outputBars (updatePredictions predictions' B)
          = outputBars (build tokens cfg predictions' s)) as E2.
  { unfold Viz.updatePredictions. rewrite Hcols.
    destruct (snd F ++ _) eqn:Enil; [destruct (snd F); discriminate Enil|].
    cbn [outputBars with_scene]. rewrite Hbars, Hbars'.
    apply update_built_bars. exact Hlen. }
  assert (updatePredictions predictions' B
          = with_scene (columns (updatePredictions predictions' B))
              (outputBars (updatePredictions predictions' B)) B) as E3.
  { unfold Viz.updatePredictions. rewrite Hcols.
    destruct (snd F ++ _) eqn:Enil; [destruct (snd F); discriminate Enil|].
    reflexivity. }
  rewrite E3, E1, E2. subst B. unfold Viz.build. rewrite Hlen.
  destruct (fold_left _ _ _) as [x cols].
  (* the hover is none of the new node objects *)
  unfold with_scene, hovered_after_writes.
  cbn [hoveredNode hoveredInScene].
  destruct (hoveredNode s) as [[?|? ? ?]|]; reflexivity.
Qed.

(** *** The auto-fit *)

Lemma Qhalf (a : Q) : a / 2 == a * (1 # 2).
Proof. field. Qed.

Lemma fit_x (W tw z x : Q) :
  0 <= x <= tw -> 0 <= z -> tw * z <= W -> 0 <= x * z + (W - tw * z) / 2 <= W.
Proof.
  intros Hx Hz Ht. rewrite Qhalf.
  assert (0 <= x * z) by (apply Qmult_le_0_compat; lra).
  assert (x * z <= tw * z) by (apply Qmult_le_compat_r; lra).
  set (a := x * z) in *. set (b := tw * z) in *. lra.
Qed.

Lemma fit_y (Hc th z y : Q) :
  0 <= y <= th - 50 -> 3 # 10 <= z -> th * z <= Hc ->
  0 <= y * z + Qmax ((Hc - th * z) / 2) 10 <= Hc.
Proof.
  intros Hy Hz Ht.
  assert (0 <= y * z) by (apply Qmult_le_0_compat; lra).
  assert (y * z <= (th - 50) * z) by (apply Qmult_le_compat_r; lra).
  assert ((th - 50) * z == th * z - 50 * z) as E by ring.
  rewrite E in *.
  set (a := y * z) in *. set (b := th * z) in *.
  destruct (Q.max_spec ((Hc - b) / 2) 10) as [[Hlt ->]|[Hle ->]];
    rewrite ?Qhalf in *; lra.
Qed.

Lemma autofit_when_fits (W Hc tw th : Q) :
  0 < tw -> 0 < th -> (3 # 10) * tw <= W -> (3 # 10) * th <= Hc ->
  let z := Qmax (Qmin (Qmin (W / tw) (Hc / th)) (15 # 10)) (3 # 10) in
  3 # 10 <= z <= 15 # 10 /\ tw * z <= W /\ th * z <= Hc.
Proof.
  intros Htw Hth HW HH z.
  assert (3 # 10 <= W / tw) as Ha by (apply Qle_shift_div_l; lra).
  assert (3 # 10 <= Hc / th) as Hb by (apply Qle_shift_div_l; lra).
  set (m := Qmin (Qmin (W / tw) (Hc / th)) (15 # 10)) in *.
  assert (3 # 10 <= m) as Hm.
  { subst m. apply Q.min_glb; [apply Q.min_glb; assumption|lra]. }
  assert (z == m) as Ez by (subst z; apply Q.max_l; exact Hm).
  assert (m <= W / tw) as Hma.
  { subst m. eapply Qle_trans; [apply Q.le_min_l|apply Q.le_min_l]. }
  assert (m <= Hc / th) as Hmb.
  { subst m. eapply Qle_trans; [apply Q.le_min_l|apply Q.le_min_r]. }
  assert (m <= 15 # 10) as Hmc by (subst m; apply Q.le_min_r).
  assert (W / tw * tw == W) as Ea by (field; lra).
  assert (Hc / th * th == Hc) as Eb by (field; lra).
  assert (m * tw <= W / tw * tw) by (apply Qmult_le_compat_r; lra).
  assert (m * th <= Hc / th * th) by (apply Qmult_le_compat_r; lra).
  rewrite Ez. split; [lra|]. split.
  - rewrite Qmult_comm. lra.
  - rewrite Qmult_comm. lra.
Qed.

Lemma Qnat_le i j : (i <= j)%nat -> Qnat i <= Qnat j.
Proof. intros Hij. unfold Qnat. rewrite <- Zle_Qle. lia. Qed.

Lemma build_canvas tokens cfg predictions (s : State A) :
  clientWidth (build tokens cfg predictions s) = clientWidth s /\
  clientHeight (build tokens cfg predictions s) = clientHeight s.
Proof. unfold Viz.build. destruct (fold_left _ _ _). split; reflexivity. Qed.

(** X17.  When the content at the minimum scale 0.3 is no larger than
    the canvas, the auto-fit of [build] picks a scale in [0.3, 1.5]
    at which the content fits, and every node and every bar (its
    right end, 280 further, included) is drawn inside the canvas. *)
Theorem build_fits_canvas tokens cfg predictions (s : State A) :
  let s' := build tokens cfg predictions s in
  let tw := content_width (Pipeline.layers cfg) in
  let th := content_height (length tokens) (length predictions) in
  (3 # 10) * tw <= clientWidth s -> (3 # 10) * th <= clientHeight s ->
  3 # 10 <= zoom s' <= 15 # 10 /\
  tw * zoom s' <= clientWidth s /\ th * zoom s' <= clientHeight s /\
  (forall c col i n, columns s' !! c = Some col -> col_nodes col !! i = Some n ->
     on_canvas s' (node_x n) (node_y n)) /\
  (forall i b, outputBars s' !! i = Some b ->
     on_canvas s' (bar_x b) (bar_y b) /\ on_canvas s' (bar_x b + 280) (bar_y b)).
Proof.
  intros s' tw th HW HH.
  destruct (build_unfold tokens cfg predictions s)
    as (x & news & Hx & _ & _ & _ & _ & Hz & Hpx & Hpy).
  cbv zeta in Hz, Hpx, Hpy. fold s' in Hz, Hpx, Hpy.
  destruct (build_canvas tokens cfg predictions s) as [EW EH]. fold s' in EW, EH.
  set (L := Pipeline.layers cfg) in *.
  set (g := actualLogitGap (length tokens) (length predictions)) in *.
  pose proof (logit_gap_bounds (length tokens) (length predictions)) as [Hg1 Hg2].
  fold g in Hg1, Hg2. unfold MIN_LOGIT_GAP, ROW_GAP in Hg1, Hg2.
  set (tw' := x + (COLUMN_GAP + 10) + 280) in *.
  assert (tw' == tw) as Etw.
  { subst tw' tw. unfold content_width. fold L. rewrite Hx. unfold COLUMN_GAP. lra. }
  change (Qmax ((Qnat (length tokens) - 1) * ROW_GAP + TOP_PADDING + 80)
               ((Qnat (length predictions) - 1) * g + TOP_PADDING + 80)) with th in *.
  pose proof (Qnat_nonneg (L + 2)) as HL.
  assert (0 <= column_x (L + 2)) as Hcx.
  { unfold column_x, LEFT_PADDING, COLUMN_GAP. lra. }
  assert (360 <= tw) as Htw.
  { subst tw. unfold content_width. fold L. lra. }
  assert (94 <= th) as Hth.
  { subst th. unfold content_height. eapply Qle_trans; [|apply Q.le_max_l].
    pose proof (Qnat_nonneg (length tokens)). unfold ROW_GAP, TOP_PADDING. lra. }
  destruct (autofit_when_fits (clientWidth s) (clientHeight s) tw' th)
    as (Hzb & Hzw & Hzh); [lra|lra|lra|lra|].
  rewrite <- Hz in Hzb, Hzw, Hzh.
  set (z := zoom s') in *. rewrite <- Hz in Hpx, Hpy.
  split; [exact Hzb|]. split; [rewrite <- Etw; exact Hzw|]. split; [exact Hzh|].
  assert (forall xx yy, 0 <= xx <= tw' -> 0 <= yy <= th - 50 -> on_canvas s' xx yy) as Hon.
  { intros xx yy Hxx Hyy. eexists _, _. split; [exact Hpx|]. split; [exact Hpy|].
    fold z. rewrite EW, EH. split.
    - apply fit_x; lra.
    - apply fit_y; lra. }
  assert (forall i, (i < length tokens)%nat -> 0 <= row_y ROW_GAP i <= th - 50) as Hrow.
  { intros i Hi. pose proof (Qnat_lt _ _ Hi). pose proof (Qnat_nonneg i).
    unfold row_y, ROW_GAP. split; [lra|].
    assert ((Qnat (length tokens) - 1) * ROW_GAP + TOP_PADDING + 80 <= th) as Hle.
    { subst th. apply Q.le_max_l. }
    unfold ROW_GAP, TOP_PADDING in Hle. lra. }
  assert (forall i, (i < length predictions)%nat -> 0 <= row_y g i <= th - 50) as Hrowg.
  { intros i Hi. pose proof (Qnat_lt _ _ Hi). pose proof (Qnat_nonneg i).
    unfold row_y.
    assert (0 <= Qnat i * g) by (apply Qmult_le_0_compat; lra).
    assert (Qnat i * g <= (Qnat (length predictions) - 1) * g)
      by (apply Qmult_le_compat_r; lra).
    split; [lra|].
    assert ((Qnat (length predictions) - 1) * g + TOP_PADDING + 80 <= th) as Hle.
    { subst th. apply Q.le_max_r. }
    unfold TOP_PADDING in Hle. lra. }
  split.
  - intros c col i n Hc Hi.
    destruct (build_node tokens cfg predictions s c col i n Hc Hi)
      as (_ & _ & _ & Hlt & Hnx & Hny).
    fold L g in Hlt, Hny.
    pose proof (lookup_lt_Some _ _ _ Hc) as Hclt.
    pose proof (length_build_columns tokens cfg predictions s) as Hlc.
    fold s' L in Hlc. rewrite Hlc in Hclt.
    assert (0 <= column_x c <= column_x (L + 2)) as Hcc.
    { pose proof (Qnat_nonneg c). pose proof (Qnat_le c (L + 2) ltac:(lia)).
      unfold column_x, LEFT_PADDING, COLUMN_GAP. lra. }
    destruct (Hon (column_x c) (row_y (if (c <? L + 2)%nat then ROW_GAP else g) i))
      as (px & py & Epx & Epy & Hbx & Hby).
    { subst tw tw'. unfold content_width in Etw. fold L in Etw. lra. }
    { destruct (c <? L + 2)%nat; [apply Hrow|apply Hrowg]; exact Hlt. }
    exists px, py. split; [exact Epx|]. split; [exact Epy|].
    rewrite Hnx, Hny. split; assumption.
  - intros i b Hb.
    destruct (build_bar tokens cfg predictions s i b Hb) as (p & xb & Hp & -> & Hxb).
    fold L g in Hxb |- *. pose proof (lookup_lt_Some _ _ _ Hp) as Hlt.
    assert (TOP_PADDING + 30 + Qnat i * g == row_y g i) as Ey.
    { unfold row_y, TOP_PADDING. lra. }
    cbn [bar_x bar_y output_bar].
    assert (tw == column_x (L + 2) + 80 + 280) as Etw2 by reflexivity.
    split.
    + destruct (Hon (column_x (L + 2) + 80) (row_y g i))
        as (px & py & Epx & Epy & Hbx & Hby); [lra|apply Hrowg; exact Hlt|].
      exists px, py. split; [exact Epx|]. split; [exact Epy|].
      rewrite Hxb, Ey. split; assumption.
    + destruct (Hon (column_x (L + 2) + 80 + 280) (row_y g i))
        as (px & py & Epx & Epy & Hbx & Hby); [lra|apply Hrowg; exact Hlt|].
      exists px, py. split; [exact Epx|]. split; [exact Epy|].
      rewrite Hxb, Ey. split; assumption.
Qed.

End WithPayload.
End LayoutFacts.

(** ** Dragging, the zoom buttons and the entry animation *)
Module GestureFacts.
Import Viz SceneSpec LayoutSpec GestureSpec CameraFacts HoverFacts LayoutFacts.
Open Scope Q_scope.

Section WithPayload.
Context {A : Type} `{Num A}.
Variable toFixed : A -> nat -> string.
Variable trim : string -> string.

Local Abbreviation run := (run toFixed trim).
Local Abbreviation build := (build toFixed trim).

Lemma run_app (evs1 evs2 : list (Event A)) (s : State A) :
  run (evs1 ++ evs2) s = run evs2 (run evs1 s).
Proof. apply fold_left_app. Qed.

(** *** A drag *)

Lemma drag_invariant (moves : list (Q * Q)) : forall (t : State A),
  isDragging t = true ->
  let t' := run (moves_of moves) t in
  isDragging t' = true /\ dragStartX t' = dragStartX t /\ dragStartY t' = dragStartY t /\
  panStartX t' = panStartX t /\ panStartY t' = panStartY t /\
  zoom t' = zoom t /\ columns t' = columns t /\ outputBars t' = outputBars t /\
  hoveredNode t' = hoveredNode t /\ currentHoverZone t' = currentHoverZone t /\
  rect_left t' = rect_left t /\ rect_top t' = rect_top t.
Proof.
  induction moves as [|m moves IH]; intros t Hd; [cbn; repeat split; assumption|].
  cbn [moves_of map]. cbn [Viz.run fold_left step].
  assert (handleMouseMove (fst m) (snd m) t
          = with_camera (zoom t)
              (option_map (fun p => p + (fst m - dragStartX t)) (panStartX t))
              (option_map (fun p => p + (snd m - dragStartY t)) (panStartY t)) t) as E.
  { unfold handleMouseMove. rewrite Hd. reflexivity. }
  rewrite E. set (t1 := with_camera _ _ _ t). apply (IH t1). exact Hd.
Qed.

(** X18.  A drag: mouse down at [(x0, y0)], any pointer moves, the
    last one to [(x1, y1)].  The pan offset is the one at mouse down
    plus [(x1 - x0, y1 - y0)], whatever the path; the scale, the scene
    and the hover are unchanged; the scene point under the pointer at
    mouse down is under it at the end; and mouse up ends the drag and
    leaves the camera. *)
Theorem drag_follows_pointer (s : State A) (x0 y0 x1 y1 : Q) (moves : list (Q * Q)) :
  let s1 := run (MouseDown x0 y0 :: moves_of (moves ++ [(x1, y1)])) s in
  zoom s1 = zoom s /\
  panX s1 = option_map (fun p => p + (x1 - x0)) (panX s) /\
  panY s1 = option_map (fun p => p + (y1 - y0)) (panY s) /\
  columns s1 = columns s /\ outputBars s1 = outputBars s /\
  hoveredNode s1 = hoveredNode s /\ currentHoverZone s1 = currentHoverZone s /\
  isDragging s1 = true /\
  (forall px py, panX s = Some px -> panY s = Some py -> ~ zoom s == 0 ->
     exists px1 py1,
       panX s1 = Some px1 /\ panY s1 = Some py1 /\
       (x1 - rect_left s1 - px1) / zoom s1 == (x0 - rect_left s - px) / zoom s /\
       (y1 - rect_top s1 - py1) / zoom s1 == (y0 - rect_top s - py) / zoom s) /\
  camera (handleMouseUp s1) = camera s1 /\ isDragging (handleMouseUp s1) = false.
Proof.
  intros s1. subst s1. cbn [Viz.run fold_left step].
  unfold moves_of. rewrite map_app, fold_left_app. cbn [map fold_left step].
  set (t := handleMouseDown x0 y0 s).
  destruct (drag_invariant moves t eq_refl)
    as (Hd & Hdx & Hdy & Hpx & Hpy & Hz & Hc & Hb & Hh & Hhz & Hrl & Hrt).
  unfold moves_of, Viz.run in Hd, Hdx, Hdy, Hpx, Hpy, Hz, Hc, Hb, Hh, Hhz, Hrl, Hrt.
  set (t' := fold_left _ _ t) in *.
  assert (handleMouseMove x1 y1 t'
          = with_camera (zoom t')
              (option_map (fun p => p + (x1 - dragStartX t')) (panStartX t'))
              (option_map (fun p => p + (y1 - dragStartY t')) (panStartY t')) t') as E.
  { unfold handleMouseMove. rewrite Hd. reflexivity. }
  cbn [fst snd].
  rewrite E, Hdx, Hdy, Hpx, Hpy. cbn.
  rewrite Hz, Hc, Hb, Hh, Hhz, Hd, Hrl, Hrt. cbn.
  repeat (split; [reflexivity|]).
  split; [|split; reflexivity].
  intros px py Ex Ey Hnz. rewrite Ex, Ey. cbn.
  eexists _, _. split; [reflexivity|]. split; [reflexivity|].
  split; field; exact Hnz.
Qed.

(** *** The zoom buttons *)

Lemma clamp_mono (a b lo hi : Q) : a <= b -> clamp a lo hi <= clamp b lo hi.
Proof.
  intros Hab. unfold clamp.
  apply Q.min_le_compat_r. apply Q.max_le_compat_r. exact Hab.
Qed.

Lemma zoom_in_step_mono (a b : Q) : a <= b -> zoom_in_step a <= zoom_in_step b.
Proof. intros Hab. apply clamp_mono. lra. Qed.

Lemma zoom_out_step_mono (a b : Q) : a <= b -> zoom_out_step a <= zoom_out_step b.
Proof. intros Hab. apply clamp_mono. lra. Qed.

Lemma iter_mono (f : Q -> Q) (n : nat) (a b : Q) :
  (forall a b, a <= b -> f a <= f b) -> a <= b -> Nat.iter n f a <= Nat.iter n f b.
Proof. intros Hf Hab. induction n as [|n IH]; [exact Hab|]. simpl. apply Hf, IH. Qed.

Lemma run_zoom_in (n : nat) (s : State A) :
  zoom (run (repeat ZoomIn n) s) = Nat.iter n zoom_in_step (zoom s) /\
  panX (run (repeat ZoomIn n) s) = panX s /\ panY (run (repeat ZoomIn n) s) = panY s.
Proof.
  revert s. induction n as [|n IH]; intros s; [repeat split|].
  cbn [repeat Viz.run fold_left step].
  destruct (IH (zoomIn s)) as (Hz & Hx & Hy). unfold Viz.run in Hz, Hx, Hy.
  rewrite Hz, Hx, Hy. split; [|split; reflexivity].
  cbn [zoomIn zoom with_camera]. fold (zoom_in_step (zoom s)).
  rewrite <- Nat.iter_succ_r. reflexivity.
Qed.

Lemma run_zoom_out (n : nat) (s : State A) :
  zoom (run (repeat ZoomOut n) s) = Nat.iter n zoom_out_step (zoom s) /\
  panX (run (repeat ZoomOut n) s) = panX s /\ panY (run (repeat ZoomOut n) s) = panY s.
Proof.
  revert s. induction n as [|n IH]; intros s; [repeat split|].
  cbn [repeat Viz.run fold_left step].
  destruct (IH (zoomOut s)) as (Hz & Hx & Hy). unfold Viz.run in Hz, Hx, Hy.
  rewrite Hz, Hx, Hy. split; [|split; reflexivity].
  cbn [zoomOut zoom with_camera]. fold (zoom_out_step (zoom s)).
  rewrite <- Nat.iter_succ_r. reflexivity.
Qed.

Lemma iter_zoom_in_bounds (n : nat) (z : Q) :
  15 # 100 <= z <= 4 -> 15 # 100 <= Nat.iter n zoom_in_step z <= 4.
Proof.
  intros Hz. induction n as [|n IH]; [exact Hz|]. simpl.
  apply clamp_bounds. lra.
Qed.

Lemma iter_zoom_out_bounds (n : nat) (z : Q) :
  15 # 100 <= z <= 4 -> 15 # 100 <= Nat.iter n zoom_out_step z <= 4.
Proof.
  intros Hz. induction n as [|n IH]; [exact Hz|]. simpl.
  apply clamp_bounds. lra.
Qed.

(** X19.  From any scale within the bounds, 13 clicks on zoom-in reach
    the maximum 4 and 10 clicks on zoom-out reach the minimum 0.15,
    and one click fewer does not from the opposite bound; the buttons
    never move the pan offset. *)
Theorem zoom_buttons_saturate (s : State A) :
  15 # 100 <= zoom s <= 4 ->
  zoom (run (repeat ZoomIn 13) s) == 4 /\
  zoom (run (repeat ZoomOut 10) s) == 15 # 100 /\
  (forall n, panX (run (repeat ZoomIn n) s) = panX s /\
             panY (run (repeat ZoomIn n) s) = panY s /\
             panX (run (repeat ZoomOut n) s) = panX s /\
             panY (run (repeat ZoomOut n) s) = panY s) /\
  (zoom s == 15 # 100 -> zoom (run (repeat ZoomIn 12) s) < 4) /\
  (zoom s == 4 -> 15 # 100 < zoom (run (repeat ZoomOut 9) s)).
Proof.
  intros Hz. split; [|split; [|split; [|split]]].
  - destruct (run_zoom_in 13 s) as [-> _].
    apply Qle_antisym; [apply iter_zoom_in_bounds; exact Hz|].
    eapply Qle_trans; [|apply (iter_mono zoom_in_step 13 (15 # 100) (zoom s));
                         [apply zoom_in_step_mono|lra]].
    vm_compute. discriminate.
  - destruct (run_zoom_out 10 s) as [-> _].
    apply Qle_antisym; [|apply iter_zoom_out_bounds; exact Hz].
    eapply Qle_trans; [apply (iter_mono zoom_out_step 10 (zoom s) 4);
                         [apply zoom_out_step_mono|lra]|].
    vm_compute. discriminate.
  - intros n. destruct (run_zoom_in n s) as (_ & -> & ->).
    destruct (run_zoom_out n s) as (_ & -> & ->). repeat split.
  - intros E. destruct (run_zoom_in 12 s) as [-> _].
    eapply Qle_lt_trans; [apply (iter_mono zoom_in_step 12 (zoom s) (15 # 100));
                            [apply zoom_in_step_mono|lra]|].
    vm_compute. reflexivity.
  - intros E. destruct (run_zoom_out 9 s) as [-> _].
    eapply Qlt_le_trans; [|apply (iter_mono zoom_out_step 9 4 (zoom s));
                            [apply zoom_out_step_mono|lra]].
    vm_compute. reflexivity.
Qed.

(** *** The entry animation *)

Lemma step_anim_ok (s : State A) (e : Event A) : anim_ok s -> anim_ok (step toFixed trim s e).
Proof.
  unfold anim_ok. intros [Hp Ht]. destruct e; cbn [step]; try (split; assumption).
  - unfold Viz.build. destruct (fold_left _ _ _). cbn. split; [lra|reflexivity].
  - unfold Viz.updatePredictions. destruct (columns s); split; assumption.
  - unfold handleMouseMove. destruct (isDragging s); [split; assumption|].
    destruct (scene_point _ _ _) as [[mx my]|]; split; assumption.
  - cbn. split; [lra|exact Ht].
  - unfold resetView. destruct (columns s); [split; assumption|].
    destruct (_ ++ _); [split; assumption|]. destruct (_ ++ _); split; assumption.
  - unfold animate. destruct (isAnimating s); [|split; assumption].
    cbn. rewrite Ht. destruct (Qle_bool 1 (animProgress s + (8 # 1000))) eqn:E.
    + split; [lra|reflexivity].
    + apply ExactFacts.Qle_bool_false in E. split; [lra|reflexivity].
Qed.

Lemma run_anim_ok (evs : list (Event A)) (s : State A) : anim_ok s -> anim_ok (run evs s).
Proof.
  revert s. induction evs as [|e evs IH]; intros s Hs; [exact Hs|].
  apply IH, step_anim_ok, Hs.
Qed.

Lemma frames_running (k : nat) (s : State A) :
  isAnimating s = true -> animTarget s = 1 ->
  animProgress s + (8 # 1000) * Qnat k < 1 ->
  let s' := run (repeat AnimationFrame k) s in
  isAnimating s' = true /\ animTarget s' = 1 /\
  animProgress s' == animProgress s + (8 # 1000) * Qnat k.
Proof.
  revert s. induction k as [|k IH]; intros s Ha Ht Hlt.
  - cbn. split; [exact Ha|]. split; [exact Ht|]. change (Qnat 0) with 0. lra.
  - cbn [repeat Viz.run fold_left step]. rewrite Qnat_S in Hlt.
    pose proof (Qnat_nonneg k) as Hk.
    assert (Qle_bool 1 (animProgress s + (8 # 1000)) = false) as E.
    { apply ExactFacts.Qle_bool_false. lra. }
    assert (animate s = animate s) as _ by reflexivity.
    destruct (IH (animate s)) as (Ha' & Ht' & Hp').
    + unfold animate. rewrite Ha. cbn. rewrite Ht, E. reflexivity.
    + unfold animate. rewrite Ha. cbn. exact Ht.
    + unfold animate. rewrite Ha. cbn. rewrite Ht, E. lra.
    + unfold Viz.run in Ha', Ht', Hp'. split; [exact Ha'|]. split; [exact Ht'|].
      rewrite Hp'. unfold animate. rewrite Ha. cbn. rewrite Ht, E. rewrite Qnat_S. lra.
Qed.

Lemma frames_idle (k : nat) (s : State A) :
  isAnimating s = false -> run (repeat AnimationFrame k) s = s.
Proof.
  intros Ha. induction k as [|k IH]; [reflexivity|].
  cbn [repeat Viz.run fold_left step].
  assert (animate s = s) as -> by (unfold animate; rewrite Ha; reflexivity).
  exact IH.
Qed.

Lemma build_anim tokens cfg predictions (s : State A) :
  isAnimating (build tokens cfg predictions s) = true /\
  animTarget (build tokens cfg predictions s) = 1 /\
  animProgress (build tokens cfg predictions s) == 8 # 1000.
Proof.
  unfold Viz.build. destruct (fold_left _ _ _). cbn.
  split; [reflexivity|]. split; [reflexivity|]. lra.
Qed.

(** X20.  The animation progress stays in [0, 1] in every state the
    page can reach.  After [build] the entry animation runs for 124
    further frames: the progress is [0.008 (k + 1)] after [k < 124]
    frames, and from frame 124 on it is exactly 1 with the animation
    off; a frame on an idle animation changes nothing. *)
Theorem entry_animation_finishes :
  (forall w h rl rt evs,
     let s := run evs (initial w h rl rt) in
     0 <= animProgress s <= 1 /\ animTarget s = 1) /\
  (forall tokens cfg predictions (s : State A) k, (k < 124)%nat ->
     let s' := run (repeat AnimationFrame k) (build tokens cfg predictions s) in
     isAnimating s' = true /\ animProgress s' == (8 # 1000) * (Qnat k + 1)) /\
  (forall tokens cfg predictions (s : State A) k, (124 <= k)%nat ->
     let s' := run (repeat AnimationFrame k) (build tokens cfg predictions s) in
     isAnimating s' = false /\ animProgress s' = 1) /\
  (forall (s : State A) k,
     isAnimating s = false -> run (repeat AnimationFrame k) s = s).
Proof.
  split; [|split; [|split]].
  - intros w h rl rt evs. apply run_anim_ok. split; [cbn; lra|reflexivity].
  - intros tokens cfg predictions s k Hk.
    destruct (build_anim tokens cfg predictions s) as (Ha & Ht & Hp).
    pose proof (Qnat_lt _ _ Hk) as Hq. change (Qnat 124) with 124 in Hq.
    destruct (frames_running k (build tokens cfg predictions s) Ha Ht) as (Ha' & _ & Hp').
    { rewrite Hp. lra. }
    split; [exact Ha'|]. rewrite Hp', Hp. lra.
  - intros tokens cfg predictions s k Hk.
    destruct (build_anim tokens cfg predictions s) as (Ha & Ht & Hp).
    replace k with (123 + (1 + (k - 124)))%nat by lia.
    rewrite !repeat_app, !run_app.
    destruct (frames_running 123 (build tokens cfg predictions s) Ha Ht) as (Ha' & Ht' & Hp').
    { rewrite Hp. change (Qnat 123) with 123. lra. }
    set (s1 := run (repeat AnimationFrame 123) (build tokens cfg predictions s)) in *.
    change (Qnat 123) with 123 in Hp'. clearbody s1.
    assert (isAnimating (animate s1) = false /\ animProgress (animate s1) = 1) as [Hd Hp1].
    { unfold animate. rewrite Ha'. cbn. rewrite Ht'.
      assert (Qle_bool 1 (animProgress s1 + (8 # 1000)) = true) as ->.
      { apply Qle_bool_iff. rewrite Hp', Hp. lra. }
      split; reflexivity. }
    change (run (repeat AnimationFrame 1) s1) with (animate s1).
    rewrite (frames_idle (k - 124) (animate s1) Hd). split; assumption.
  - intros s k Ha. apply frames_idle. exact Ha.
Qed.

End WithPayload.
End GestureFacts.

(** ** [resetView] and the click *)
Module ViewFacts.
Import Viz SceneSpec LayoutSpec ViewSpec ExactFacts HoverFacts LayoutFacts.
Open Scope Q_scope.

Lemma Qmin_cases (a b : Q) : Qmin a b = a \/ Qmin a b = b.
Proof. unfold Qmin, GenericMinMax.gmin. destruct (a ?= b); auto. Qed.

Lemma Qmax_cases (a b : Q) : Qmax a b = a \/ Qmax a b = b.
Proof. unfold Qmax, GenericMinMax.gmax. destruct (a ?= b); auto. Qed.

Lemma min_of_spec (xs : list Q) : forall x0,
  min_of x0 xs ∈ x0 :: xs /\ forall x, x ∈ x0 :: xs -> min_of x0 xs <= x.
Proof.
  induction xs as [|a xs IH]; intros x0.
  - split; [left|]. intros x Hx. apply list_elem_of_singleton in Hx as ->. apply Qle_refl.
  - destruct (IH (Qmin x0 a)) as [Hin Hle].
    change (min_of x0 (a :: xs)) with (min_of (Qmin x0 a) xs). split.
    + apply elem_of_cons in Hin as [E|Hin].
      * rewrite E. destruct (Qmin_cases x0 a) as [->| ->]; [left|right; left].
      * right. right. exact Hin.
    + intros x Hx.
      assert (min_of (Qmin x0 a) xs <= Qmin x0 a) as H0 by (apply Hle; left).
      apply elem_of_cons in Hx as [->|Hx].
      * eapply Qle_trans; [exact H0|apply Q.le_min_l].
      * apply elem_of_cons in Hx as [->|Hx].
        -- eapply Qle_trans; [exact H0|apply Q.le_min_r].
        -- apply Hle. right. exact Hx.
Qed.

Lemma max_of_spec (xs : list Q) : forall x0,
  max_of x0 xs ∈ x0 :: xs /\ forall x, x ∈ x0 :: xs -> x <= max_of x0 xs.
Proof.
  induction xs as [|a xs IH]; intros x0.
  - split; [left|]. intros x Hx. apply list_elem_of_singleton in Hx as ->. apply Qle_refl.
  - destruct (IH (Qmax x0 a)) as [Hin Hle].
    change (max_of x0 (a :: xs)) with (max_of (Qmax x0 a) xs). split.
    + apply elem_of_cons in Hin as [E|Hin].
      * rewrite E. destruct (Qmax_cases x0 a) as [->| ->]; [left|right; left].
      * right. right. exact Hin.
    + intros x Hx.
      assert (Qmax x0 a <= max_of (Qmax x0 a) xs) as H0 by (apply Hle; left).
      apply elem_of_cons in Hx as [->|Hx].
      * eapply Qle_trans; [apply Q.le_max_l|exact H0].
      * apply elem_of_cons in Hx as [->|Hx].
        -- eapply Qle_trans; [apply Q.le_max_r|exact H0].
        -- apply Hle. right. exact Hx.
Qed.

(** One axis of the fit: the content [lo .. hi], with a margin [m]
    on both sides, in a canvas of extent [W]. *)
Lemma fit_axis (W lo hi m z x : Q) :
  0 <= z -> lo <= x <= hi -> (hi + m - (lo - m)) * z <= W ->
  let p := (W - (hi + m - (lo - m)) * z) / 2 - (lo - m) * z in
  m * z <= x * z + p <= W - m * z.
Proof.
  intros Hz Hx Hfit p. subst p. rewrite Qhalf.
  assert (0 <= (x - lo) * z) as H1 by (apply Qmult_le_0_compat; lra).
  assert (0 <= (hi - x) * z) as H2 by (apply Qmult_le_0_compat; lra).
  assert ((x - lo) * z == x * z - lo * z) as E1 by ring.
  assert ((hi - x) * z == hi * z - x * z) as E2 by ring.
  assert ((hi + m - (lo - m)) * z == hi * z - lo * z + 2 * (m * z)) as E3 by ring.
  assert ((lo - m) * z == lo * z - m * z) as E4 by ring.
  rewrite E1 in H1. rewrite E2 in H2. rewrite E3 in Hfit |- *. rewrite E4.
  set (a := x * z) in *. set (b := lo * z) in *. set (c := hi * z) in *.
  set (d := m * z) in *. lra.
Qed.

Lemma fit_axis_centred (W lo hi m z : Q) :
  let p := (W - (hi + m - (lo - m)) * z) / 2 - (lo - m) * z in
  (lo * z + p) + (hi * z + p) == W.
Proof. intros p. subst p. field. Qed.

Section WithPayload.
Context {A : Type} `{Num A}.
Variable toFixed : A -> nat -> string.
Variable trim : string -> string.

Local Abbreviation build := (build toFixed trim).

Lemma content_lengths (s : State A) : length (content_ys s) = length (content_xs s).
Proof. unfold content_xs, content_ys. rewrite !length_app, !length_map. reflexivity. Qed.

(** X21.  [resetView]: without columns it does nothing; with columns
    but neither node nor bar it sets the scale to 0.3 and both pan
    offsets to NaN; otherwise, when the content with its margins fits
    the canvas at scale 0.3, it picks a scale in [0.3, 1.5] at which
    every node and every bar end is drawn at least 80 scaled units
    inside the canvas horizontally and 60 vertically, the content
    being centred.  The scene and the hover are untouched. *)
Theorem resetView_fits_content (s : State A) :
  let s' := resetView s in
  (columns s = [] -> s' = s) /\
  (columns s <> [] -> content_xs s = [] ->
   zoom s' = 3 # 10 /\ panX s' = None /\ panY s' = None) /\
  (columns s <> [] -> content_xs s <> [] ->
   (forall x x', x ∈ content_xs s -> x' ∈ content_xs s ->
      (3 # 10) * (x' - x + 160) <= clientWidth s) ->
   (forall y y', y ∈ content_ys s -> y' ∈ content_ys s ->
      (3 # 10) * (y' - y + 120) <= clientHeight s) ->
   3 # 10 <= zoom s' <= 15 # 10 /\
   exists px py, panX s' = Some px /\ panY s' = Some py /\
     (forall x, x ∈ content_xs s ->
        80 * zoom s' <= x * zoom s' + px <= clientWidth s - 80 * zoom s') /\
     (forall y, y ∈ content_ys s ->
        60 * zoom s' <= y * zoom s' + py <= clientHeight s - 60 * zoom s') /\
     (exists xmin xmax, xmin ∈ content_xs s /\ xmax ∈ content_xs s /\
        (xmin * zoom s' + px) + (xmax * zoom s' + px) == clientWidth s) /\
     (exists ymin ymax, ymin ∈ content_ys s /\ ymax ∈ content_ys s /\
        (ymin * zoom s' + py) + (ymax * zoom s' + py) == clientHeight s)) /\
  columns s' = columns s /\ outputBars s' = outputBars s /\
  hoveredNode s' = hoveredNode s.
Proof.
  intros s'. subst s'. split; [|split; [|split]].
  - intros E. unfold resetView. rewrite E. reflexivity.
  - intros Hc Hx. pose proof (content_lengths s) as Hl. rewrite Hx in Hl.
    unfold resetView. destruct (columns s) as [|c0 cs] eqn:Ec; [congruence|].
    rewrite <- Ec. fold (content_xs s). fold (content_ys s). rewrite Hx.
    repeat split.
  - intros Hc Hne HW HH. pose proof (content_lengths s) as Hl.
    unfold resetView. destruct (columns s) as [|c0 cs] eqn:Ec; [congruence|].
    rewrite <- Ec. fold (content_xs s). fold (content_ys s).
    destruct (content_xs s) as [|x0 xs] eqn:Exs; [congruence|].
    destruct (content_ys s) as [|y0 ys] eqn:Eys; [discriminate Hl|].
    destruct (min_of_spec xs x0) as [Hminx_in Hminx].
    destruct (max_of_spec xs x0) as [Hmaxx_in Hmaxx].
    destruct (min_of_spec ys y0) as [Hminy_in Hminy].
    destruct (max_of_spec ys y0) as [Hmaxy_in Hmaxy].
    set (lx := min_of x0 xs) in *. set (hx := max_of x0 xs) in *.
    set (ly := min_of y0 ys) in *. set (hy := max_of y0 ys) in *.
    set (cw := hx + 80 - (lx - 80)). set (ch := hy + 60 - (ly - 60)).
    assert (lx <= hx) as Hx by (apply Hminx; exact Hmaxx_in).
    assert (ly <= hy) as Hy by (apply Hminy; exact Hmaxy_in).
    pose proof (HW lx hx Hminx_in Hmaxx_in) as HW'.
    pose proof (HH ly hy Hminy_in Hmaxy_in) as HH'.
    destruct (autofit_when_fits (clientWidth s) (clientHeight s) cw ch)
      as (Hzb & Hzw & Hzh); [subst cw; lra|subst ch; lra|subst cw; lra|subst ch; lra|].
    set (z := Qmax (Qmin (Qmin (clientWidth s / cw) (clientHeight s / ch)) (15 # 10)) (3 # 10))
      in *.
    cbn [zoom panX panY with_camera]. split; [exact Hzb|].
    eexists _, _. split; [reflexivity|]. split; [reflexivity|].
    split; [|split; [|split]].
    + intros x Hin. apply (fit_axis (clientWidth s) lx hx 80 z x); [lra| |exact Hzw].
      split; [apply Hminx|apply Hmaxx]; exact Hin.
    + intros y Hin. apply (fit_axis (clientHeight s) ly hy 60 z y); [lra| |exact Hzh].
      split; [apply Hminy|apply Hmaxy]; exact Hin.
    + exists lx, hx. split; [exact Hminx_in|]. split; [exact Hmaxx_in|].
      apply (fit_axis_centred (clientWidth s) lx hx 80 z).
    + exists ly, hy. split; [exact Hminy_in|]. split; [exact Hmaxy_in|].
      apply (fit_axis_centred (clientHeight s) ly hy 60 z).
  - unfold resetView. destruct (columns s) as [|c0 cs] eqn:Ec; [rewrite Ec; repeat split|].
    rewrite <- Ec. destruct (map node_x _ ++ _); [repeat split|].
    destruct (map node_y _ ++ _); repeat split.
Qed.

(** *** The click *)

Lemma build_keeps_pointer tokens cfg predictions (s : State A) :
  isDragging (build tokens cfg predictions s) = isDragging s /\
  hoveredNode (build tokens cfg predictions s) = hoveredNode s /\
  rect_left (build tokens cfg predictions s) = rect_left s /\
  rect_top (build tokens cfg predictions s) = rect_top s.
Proof. unfold Viz.build. destruct (fold_left _ _ _). repeat split. Qed.

(** X22.  With the pointer on the centre of a node of a built scene, a
    click calls [onEmbeddingClick] exactly when the node is in the
    embeddings column, and then with the id and the trimmed text of
    its token.  The hover survives a rebuild, so a click then still
    reports the old node; [clear] and mouse leave drop it. *)
Theorem click_opens_embedding tokens cfg predictions (s : State A)
    c col i n clientX clientY px py :
  let s' := build tokens cfg predictions s in
  let s'' := handleMouseMove clientX clientY s' in
  isDragging s = false ->
  columns s' !! c = Some col -> col_nodes col !! i = Some n ->
  panX s' = Some px -> panY s' = Some py ->
  clientX - rect_left s == node_x n * zoom s' + px ->
  clientY - rect_top s == node_y n * zoom s' + py ->
  (c = 1%nat ->
   exists t, tokens !! i = Some t /\
     handleClick s'' = Some (Some (Pipeline.id t), Some (trim (Pipeline.text t)))) /\
  (c <> 1%nat -> handleClick s'' = None) /\
  handleClick (handleMouseLeave s'') = None /\
  (forall tokens2 cfg2 predictions2,
     handleClick (build tokens2 cfg2 predictions2 s'') = handleClick s'') /\
  handleClick (clear s'') = None.
Proof.
  intros s' s'' Hd Hc Hi Hpx Hpy Hx Hy.
  destruct (build_keeps_pointer tokens cfg predictions s) as (Ed & _ & Erl & Ert).
  fold s' in Ed, Erl, Ert.
  destruct (build_unfold toFixed trim tokens cfg predictions s)
    as (x & news & _ & _ & _ & _ & _ & Hz & _).
  cbv zeta in Hz. fold s' in Hz.
  assert (3 # 10 <= zoom s') as Hzpos by (rewrite Hz; apply Q.le_max_r).
  assert (hoveredNode s'' = Some (FoundNode c i n)) as Hh.
  { subst s''. rewrite hovered_eq by (rewrite Ed; exact Hd).
    unfold scene_point. rewrite Hpx, Hpy, Erl, Ert.
    apply (centre_hit _ _ c col i n).
    - apply build_scene_ok.
    - exact Hc.
    - exact Hi.
    - assert (clientX - rect_left s - px == node_x n * zoom s') as -> by lra.
      field. lra.
    - assert (clientY - rect_top s - py == node_y n * zoom s') as -> by lra.
      field. lra. }
  destruct (build_node toFixed trim tokens cfg predictions s c col i n Hc Hi)
    as (Hct & Hnt & _).
  split; [|split; [|split; [|split]]].
  - intros ->.
    destruct (build_column toFixed trim tokens cfg predictions s 1 col Hc)
      as [(Hr & _)|[(_ & _ & Hn)|[(Hr & _)|(Hr & _)]]]; try lia.
    rewrite Hn, list_lookup_imap in Hi.
    destruct (tokens !! i) as [t|]; [|discriminate Hi]. injection Hi as <-.
    exists t. split; [reflexivity|]. unfold handleClick. rewrite Hh. reflexivity.
  - intros Hne. unfold handleClick. rewrite Hh, Hnt, Hct. unfold column_type.
    destruct c as [|[|c]]; [reflexivity|congruence|]. cbn [Nat.eqb].
    destruct (S (S c) <? Pipeline.layers cfg + 2)%nat; reflexivity.
  - reflexivity.
  - intros tokens2 cfg2 predictions2. unfold handleClick.
    destruct (build_keeps_pointer tokens2 cfg2 predictions2 s'') as (_ & -> & _).
    reflexivity.
  - reflexivity.
Qed.

End WithPayload.
End ViewFacts.

(** ** The hover zone *)
Module ZoneFacts.
Import Viz SceneSpec LayoutSpec ZoneSpec ExactFacts SceneFacts HoverFacts LayoutFacts.
Open Scope Q_scope.

Section WithPayload.
Context {A : Type} `{Num A}.
Variable toFixed : A -> nat -> string.
Variable trim : string -> string.

Local Abbreviation build := (build toFixed trim).

Lemma band_test (mx X : Q) :
  Qle_bool (X - COLUMN_GAP / 2) mx && Qle_bool mx (X + COLUMN_GAP / 2) = true
  <-> in_band mx X.
Proof.
  unfold in_band. rewrite andb_true_iff, !Qle_bool_iff. reflexivity.
Qed.

(** The column loop of the zone detection: the first column with a
    node whose band holds the pointer. *)
Lemma zone_of_columns_first mx (cols : list (Column A)) : forall c col n0 rest,
  cols !! c = Some col -> col_nodes col = n0 :: rest -> in_band mx (node_x n0) ->
  (forall c' col' n0' rest', (c' < c)%nat -> cols !! c' = Some col' ->
     col_nodes col' = n0' :: rest' -> ~ in_band mx (node_x n0')) ->
  zone_of_columns mx cols = Some (zone_of (col_type col)).
Proof.
  induction cols as [|col0 cols IH]; intros c col n0 rest Hc Hn Hin Hbefore;
    [discriminate Hc|].
  cbn [zone_of_columns]. destruct c as [|c].
  - injection Hc as ->. rewrite Hn.
    apply band_test in Hin. rewrite Hin. reflexivity.
  - assert (zone_of_columns mx cols = Some (zone_of (col_type col))) as Hrest.
    { apply (IH c col n0 rest Hc Hn Hin). intros c' col' n0' rest' Hlt Hc' Hn'.
      apply (Hbefore (S c') col' n0' rest'); [lia|exact Hc'|exact Hn']. }
    destruct (col_nodes col0) as [|m0 ms] eqn:E0; [exact Hrest|].
    destruct (Qle_bool _ _ && Qle_bool _ _) eqn:Eb; [|exact Hrest].
    apply band_test in Eb. exfalso.
    apply (Hbefore 0%nat col0 m0 ms); [lia|reflexivity|exact E0|exact Eb].
Qed.

Lemma zone_of_columns_none mx (cols : list (Column A)) :
  (forall c col n0 rest, cols !! c = Some col ->
     col_nodes col = n0 :: rest -> ~ in_band mx (node_x n0)) ->
  zone_of_columns mx cols = None.
Proof.
  induction cols as [|col0 cols IH]; intros Hall; [reflexivity|].
  cbn [zone_of_columns].
  assert (zone_of_columns mx cols = None) as Hrest.
  { apply IH. intros c col n0 rest Hc. apply (Hall (S c) col n0 rest Hc). }
  destruct (col_nodes col0) as [|m0 ms] eqn:E0; [exact Hrest|].
  destruct (Qle_bool _ _ && Qle_bool _ _) eqn:Eb; [|exact Hrest].
  apply band_test in Eb. exfalso. apply (Hall 0%nat col0 m0 ms eq_refl E0 Eb).
Qed.

(** The first node of each column of a built scene. *)
Lemma build_first_node tokens cfg predictions (s : State A) c col :
  tokens <> [] -> predictions <> [] ->
  columns (build tokens cfg predictions s) !! c = Some col ->
  exists n0 rest, col_nodes col = n0 :: rest /\ node_x n0 == column_x c /\
    col_type col = column_type (Pipeline.layers cfg) c.
Proof.
  intros Ht Hp Hc.
  destruct (build_column_shape toFixed trim tokens cfg predictions s c col Hc)
    as (Hty & Hlen & Hnodes).
  destruct (col_nodes col) as [|n0 rest] eqn:E.
  - exfalso.
    destruct (c <? Pipeline.layers cfg + 2)%nat;
      [destruct tokens|destruct predictions]; cbn in Hlen; congruence.
  - exists n0, rest. split; [reflexivity|].
    destruct (Hnodes 0%nat n0 eq_refl) as (_ & _ & Hx & _). split; [exact Hx|exact Hty].
Qed.

(** X23.  The hover zone on a built scene with tokens and predictions:
    a hit bar gives [sampling], a hit node the type of its column;
    with no hit, the zone is the type of the column whose band (35
    on both sides of its abscissa) holds the pointer, the left column
    winning on a shared boundary; there is no zone left of the first
    band, nor in the gap of width 10 right of the logits band; and
    the zone is [sampling] from 35 left of the bars on. *)
Theorem hover_zone_by_column tokens cfg predictions (s : State A) clientX clientY mx my :
  let s' := build tokens cfg predictions s in
  let s'' := handleMouseMove clientX clientY s' in
  let L := Pipeline.layers cfg in
  isDragging s = false -> tokens <> [] -> predictions <> [] ->
  scene_point clientX clientY s' = Some (mx, my) ->
  (forall i b, hoveredNode s'' = Some (FoundBar i b) ->
     currentHoverZone s'' = Some sampling) /\
  (forall c i n, hoveredNode s'' = Some (FoundNode c i n) ->
     currentHoverZone s'' = Some (zone_of (column_type L c))) /\
  (hoveredNode s'' = None ->
     (mx < column_x 0 - 35 -> currentHoverZone s'' = None) /\
     (forall c, (c <= L + 2)%nat ->
        column_x c - 35 <= mx <= column_x c + 35 ->
        c = 0%nat \/ column_x c - 35 < mx ->
        currentHoverZone s'' = Some (zone_of (column_type L c))) /\
     (column_x (L + 2) + 35 < mx < column_x (L + 2) + 45 ->
      currentHoverZone s'' = None) /\
     (column_x (L + 2) + 45 <= mx -> currentHoverZone s'' = Some sampling)).
Proof.
  intros s' s'' L Hd Htok Hpred Hsp.
  assert (isDragging s' = false) as Hd'.
  { subst s'. unfold Viz.build. destruct (fold_left _ _ _). exact Hd. }
  assert (hoveredNode s'' = hit_test (columns s') (outputBars s') mx my /\
          currentHoverZone s''
          = detect_zone (hit_test (columns s') (outputBars s') mx my)
              (columns s') (outputBars s') mx) as [Hh Hz].
  { subst s''. unfold handleMouseMove. rewrite Hd', Hsp. split; reflexivity. }
  rewrite Hh, Hz.
  assert (length (columns s') = (L + 3)%nat) as Hlen3
    by apply (length_build_columns toFixed trim).
  assert (forall c col n0 rest, columns s' !! c = Some col -> col_nodes col = n0 :: rest ->
            node_x n0 == column_x c /\ (c <= L + 2)%nat) as Hfirst.
  { intros c col n0 rest Hc Hn.
    destruct (build_first_node tokens cfg predictions s c col Htok Hpred Hc)
      as (n0' & rest' & E & Hx & _).
    rewrite Hn in E. injection E as <- <-. split; [exact Hx|].
    apply lookup_lt_Some in Hc. lia. }
  assert (forall c c', (c < c')%nat -> column_x c + 70 <= column_x c') as Hsep.
  { intros c c' Hlt. apply Qnat_lt in Hlt. unfold column_x, COLUMN_GAP. lra. }
  assert (COLUMN_GAP / 2 == 35) as Hhalf by reflexivity.
  split; [|split].
  - intros i b ->. reflexivity.
  - intros c i n E. rewrite E. cbn [detect_zone].
    destruct (hit_test_member _ _ _ _ _ _ _ E) as (col & Hc & Hi).
    destruct (build_node toFixed trim tokens cfg predictions s c col i n Hc Hi)
      as (Hct & Hnt & _).
    fold L in Hct. rewrite Hnt, Hct. reflexivity.
  - intros ->. cbn [detect_zone].
    destruct (columns s') as [|c0 cs] eqn:Ecols.
    { cbn in Hlen3. lia. }
    rewrite <- Ecols in Hlen3, Hfirst |- *.
    destruct (outputBars s') as [|bar0 bars] eqn:Ebars.
    { destruct (build_unfold toFixed trim tokens cfg predictions s)
        as (x & news & _ & _ & _ & _ & Hbars & _). fold s' in Hbars.
      rewrite Ebars in Hbars. destruct predictions; [congruence|discriminate Hbars]. }
    assert (bar_x bar0 == column_x (L + 2) + 80) as Hbar.
    { destruct (build_bar toFixed trim tokens cfg predictions s 0 bar0) as (p & xb & _ & -> & Hxb).
      - fold s'. rewrite Ebars. reflexivity.
      - exact Hxb. }
    split; [|split; [|split]].
    + intros Hlt. assert (column_x 0 == 100) as Hc0 by reflexivity.
      rewrite Hc0 in Hlt. rewrite zone_of_columns_none.
      * destruct (Qle_bool _ _) eqn:E; [|reflexivity].
        apply Qle_bool_iff in E. rewrite Hbar, Hhalf in E.
        pose proof (Qnat_nonneg (L + 2)) as HL.
        unfold column_x, COLUMN_GAP, LEFT_PADDING in *. lra.
      * intros c col n0 rest Hc Hn [Hlo _].
        destruct (Hfirst c col n0 rest Hc Hn) as [Hx _].
        rewrite Hx, Hhalf in Hlo. pose proof (Qnat_nonneg c).
        unfold column_x, COLUMN_GAP, LEFT_PADDING in *. lra.
    + intros c Hc Hband Hleft.
      assert (c < length (columns s'))%nat as Hclt by lia.
      destruct (lookup_lt_is_Some_2 _ _ Hclt) as [col Hcol].
      destruct (build_first_node tokens cfg predictions s c col Htok Hpred Hcol)
        as (n0 & rest & Hn & Hx & Hty).
      fold L in Hty.
      rewrite (zone_of_columns_first mx (columns s') c col n0 rest Hcol Hn).
      * rewrite Hty. reflexivity.
      * unfold in_band. rewrite Hx, Hhalf. exact Hband.
      * intros c' col' n0' rest' Hlt Hc' Hn' [_ Hhi].
        destruct (Hfirst c' col' n0' rest' Hc' Hn') as [Hx' _].
        rewrite Hx', Hhalf in Hhi. pose proof (Hsep c' c Hlt).
        destruct Hleft as [->|Hleft]; [lia|]. lra.
    + intros [Hlo Hhi]. rewrite zone_of_columns_none.
      * destruct (Qle_bool _ _) eqn:E; [|reflexivity].
        apply Qle_bool_iff in E. rewrite Hbar, Hhalf in E. lra.
      * intros c col n0 rest Hc Hn [_ Hup].
        destruct (Hfirst c col n0 rest Hc Hn) as [Hx Hle].
        rewrite Hx, Hhalf in Hup. pose proof (Qnat_le c (L + 2) Hle).
        unfold column_x, COLUMN_GAP in *. lra.
    + intros Hlo. rewrite zone_of_columns_none.
      * destruct (Qle_bool _ _) eqn:E; [reflexivity|].
        assert (Qle_bool (bar_x bar0 - COLUMN_GAP / 2) mx = true) as E'.
        { apply Qle_bool_iff. rewrite Hbar, Hhalf. lra. }
        congruence.
      * intros c col n0 rest Hc Hn [_ Hup].
        destruct (Hfirst c col n0 rest Hc Hn) as [Hx Hle].
        rewrite Hx, Hhalf in Hup. pose proof (Qnat_le c (L + 2) Hle).
        unfold column_x, COLUMN_GAP in *. lra.
Qed.

End WithPayload.
End ZoneFacts.

(** ** The travelling token *)
Module TravelFacts.
Import Viz SceneSpec LayoutSpec ExactFacts HoverFacts LayoutFacts Travel TravelSpec.
Open Scope Q_scope.

Lemma ease_proper (t t' : Q) : t == t' -> ease t == ease t'.
Proof.
  intros E. unfold ease.
  destruct (ExactNum.Qlt_bool t (1 # 2)) eqn:E1;
    destruct (ExactNum.Qlt_bool t' (1 # 2)) eqn:E2.
  - rewrite E. reflexivity.
  - apply Qlt_bool_iff in E1. apply Qlt_bool_false in E2. lra.
  - apply Qlt_bool_false in E1. apply Qlt_bool_iff in E2. lra.
  - rewrite E. reflexivity.
Qed.

Lemma ease_low (t : Q) : t < 1 # 2 -> ease t = 2 * t * t.
Proof.
  intros Ht. unfold ease. apply Qlt_bool_iff in Ht. rewrite Ht. reflexivity.
Qed.

Lemma ease_high (t : Q) : 1 # 2 <= t -> ease t == 1 - 2 * (1 - t) * (1 - t).
Proof.
  intros Ht. unfold ease. apply Qlt_bool_false in Ht. rewrite Ht. field.
Qed.

Lemma ease_bounds (t : Q) : 0 <= t <= 1 -> 0 <= ease t <= 1.
Proof.
  intros Ht. destruct (Qlt_le_dec t (1 # 2)) as [Hlt|Hge].
  - rewrite ease_low by exact Hlt. nra.
  - rewrite ease_high by exact Hge. nra.
Qed.

Lemma ease_mono (a b : Q) : 0 <= a -> a <= b -> b <= 1 -> ease a <= ease b.
Proof.
  intros Ha Hab Hb.
  destruct (Qlt_le_dec a (1 # 2)) as [Ha2|Ha2];
    destruct (Qlt_le_dec b (1 # 2)) as [Hb2|Hb2].
  - rewrite !ease_low by assumption. nra.
  - rewrite ease_low by assumption. rewrite ease_high by assumption. nra.
  - lra.
  - rewrite !ease_high by assumption. nra.
Qed.

Lemma particle_running (n : nat) : forall (p : Particle) (k : nat),
  progress p == Qnat k * (25 # 1000) -> (k + n < 40)%nat ->
  exists p', frames n p = Some p' /\
    progress p' == Qnat (k + n) * (25 # 1000) /\ same_journey p p' /\
    ((0 < n)%nat ->
       particle_x p' = Utils.lerp (startX p) (targetX p) (ease (progress p')) /\
       particle_y p' = Utils.lerp (startY p) (targetY p) (ease (progress p'))).
Proof.
  induction n as [|n IH]; intros p k Hp Hk.
  - exists p. split; [reflexivity|]. rewrite Nat.add_0_r.
    split; [exact Hp|]. split; [repeat split|]. lia.
  - cbn [frames]. unfold tick.
    assert (progress p + (25 # 1000) == Qnat (S k) * (25 # 1000)) as Hp'.
    { rewrite Qnat_S, Hp. ring. }
    assert (Qle_bool 1 (progress p + (25 # 1000)) = false) as E.
    { destruct (Qle_bool 1 (progress p + (25 # 1000))) eqn:E; [|reflexivity].
      apply Qle_bool_iff in E. rewrite Hp' in E.
      assert (S k < 40)%nat as Hlt by lia. apply Qnat_lt in Hlt.
      change (Qnat 40) with 40 in Hlt. lra. }
    rewrite E.
    set (p1 := {| startX := startX p; startY := startY p; targetX := targetX p;
                  targetY := targetY p;
                  particle_x := Utils.lerp (startX p) (targetX p)
                                  (ease (progress p + (25 # 1000)));
                  particle_y := Utils.lerp (startY p) (targetY p)
                                  (ease (progress p + (25 # 1000)));
                  progress := progress p + (25 # 1000);
                  particle_word := particle_word p |}).
    destruct (IH p1 (S k) Hp' ltac:(lia)) as (p' & Hf & Hpr & Hsame & Hxy).
    exists p'. split; [exact Hf|].
    replace (k + S n)%nat with (S k + n)%nat by lia. split; [exact Hpr|].
    split; [exact Hsame|]. intros _.
    destruct n as [|n].
    + cbn in Hf. injection Hf as <-. split; reflexivity.
    + apply Hxy. lia.
Qed.

Lemma particle_over (n : nat) : forall (p : Particle) (k : nat),
  progress p == Qnat k * (25 # 1000) -> (k < 40)%nat -> (40 <= k + n)%nat ->
  frames n p = None.
Proof.
  induction n as [|n IH]; intros p k Hp Hk Hn; [lia|].
  cbn [frames]. unfold tick.
  assert (progress p + (25 # 1000) == Qnat (S k) * (25 # 1000)) as Hp'.
  { rewrite Qnat_S, Hp. ring. }
  destruct (Qle_bool 1 (progress p + (25 # 1000))) eqn:E; [reflexivity|].
  apply (IH _ (S k)); [exact Hp'| |lia].
  destruct (Nat.eq_dec (S k) 40%nat) as [E40|]; [|lia].
  assert (Qle_bool 1 (progress p + (25 # 1000)) = true) as E'.
  { apply Qle_bool_iff. rewrite Hp', E40. change (Qnat 40) with 40. lra. }
  congruence.
Qed.

(** X24.  The travelling token: from progress 0 the animation draws 39
    frames and ends on the 40th.  At frame [n] the progress is
    [n / 40] and the particle is on the segment from its start to its
    target, at the eased fraction, strictly between 0 and 1; the
    easing is monotone; and the last frame drawn is at 799/800 of the
    way: the particle is removed before it reaches the target. *)
Theorem travel_path (p : Particle) :
  progress p == 0 ->
  (forall n, (n < 40)%nat ->
     exists p', frames n p = Some p' /\
       progress p' == Qnat n / 40 /\
       startX p' = startX p /\ startY p' = startY p /\
       targetX p' = targetX p /\ targetY p' = targetY p /\
       particle_word p' = particle_word p /\
       ((0 < n)%nat ->
          let e := ease (progress p') in
          e == ease (Qnat n / 40) /\ 0 < e < 1 /\
          particle_x p' == startX p + (targetX p - startX p) * e /\
          particle_y p' == startY p + (targetY p - startY p) * e)) /\
  (forall n, (40 <= n)%nat -> frames n p = None) /\
  (forall a b, 0 <= a -> a <= b -> b <= 1 -> ease a <= ease b) /\
  ease (1 # 40) == 1 # 800 /\ ease (1 # 2) == 1 # 2 /\ ease (39 # 40) == 799 # 800.
Proof.
  intros Hp.
  assert (progress p == Qnat 0 * (25 # 1000)) as Hp0.
  { rewrite Hp. change (Qnat 0) with 0. ring. }
  split; [|split; [|split; [|split; [|split]]]].
  - intros n Hn.
    destruct (particle_running n p 0 Hp0 Hn) as (p' & Hf & Hpr & Hsame & Hxy).
    cbn [Nat.add] in Hpr.
    assert (progress p' == Qnat n / 40) as Hpr' by (rewrite Hpr; field).
    destruct Hsame as (H1 & H2 & H3 & H4 & H5).
    exists p'. repeat (split; [assumption|]).
    intros Hpos e. destruct (Hxy Hpos) as [Ex Ey].
    assert (e == ease (Qnat n / 40)) as Ee by (apply ease_proper; exact Hpr').
    pose proof (Qnat_lt _ _ Hpos) as Hq1. change (Qnat 0) with 0 in Hq1.
    pose proof (Qnat_lt _ _ Hn) as Hq2. change (Qnat 40) with 40 in Hq2.
    assert (1 # 40 <= progress p' <= 39 # 40) as Hb by (rewrite Hpr; lra).
    split; [exact Ee|]. split.
    + pose proof (ease_mono (1 # 40) (progress p') ltac:(lra) ltac:(lra) ltac:(lra)) as Hlo.
      pose proof (ease_mono (progress p') (39 # 40) ltac:(lra) ltac:(lra) ltac:(lra)) as Hhi.
      fold e in Hlo, Hhi.
      assert (ease (1 # 40) == 1 # 800) as E1 by reflexivity.
      assert (ease (39 # 40) == 799 # 800) as E2 by reflexivity.
      lra.
    + rewrite Ex, Ey. unfold Utils.lerp. split; reflexivity.
  - intros n Hn. apply (particle_over n p 0 Hp0); lia.
  - exact ease_mono.
  - reflexivity.
  - reflexivity.
  - reflexivity.
Qed.

Section WithPayload.
Context {A : Type} `{Num A}.
Variable toFixed : A -> nat -> string.
Variable trim : string -> string.

Local Abbreviation build := (build toFixed trim).

Lemma find_sampled_bar (preds : list (Pipeline.Prediction A)) :
  forall (f : nat -> Pipeline.Prediction A -> OutputBar A),
  (forall i q, bar_isSampled (f i q) = Pipeline.isSampled q) ->
  (forall i q, preds !! i = Some q -> Pipeline.isSampled q = true ->
     (forall j q', (j < i)%nat -> preds !! j = Some q' -> Pipeline.isSampled q' = false) ->
     List.find bar_isSampled (imap f preds) = Some (f i q)) /\
  ((forall j q, preds !! j = Some q -> Pipeline.isSampled q = false) ->
   List.find bar_isSampled (imap f preds) = None).
Proof.
  induction preds as [|q0 preds IH]; intros f Hf.
  - split; [intros i q Hq; discriminate Hq|reflexivity].
  - destruct (IH (f ∘ S)) as [IH1 IH2]; [intros i q; apply Hf|].
    split.
    + intros i q Hq Hs Hbefore. cbn [imap List.find]. rewrite Hf.
      destruct i as [|i].
      * injection Hq as ->. rewrite Hs. reflexivity.
      * rewrite (Hbefore 0%nat q0 ltac:(lia) eq_refl).
        apply (IH1 i q Hq Hs). intros j q' Hj Hq'.
        apply (Hbefore (S j) q'); [lia|exact Hq'].
    + intros Hall. cbn [imap List.find]. rewrite Hf.
      rewrite (Hall 0%nat q0 eq_refl). apply IH2.
      intros j q Hq. apply (Hall (S j) q Hq).
Qed.

(** X25.  [animateTokenTravel] resolves at once when there is no
    column or no bar; on a built scene without tokens but with
    predictions it throws a TypeError; otherwise the particle starts
    on the first sampled bar (bar 0 when none is sampled) and aims at
    the slot below the last token: the place where [build] puts the
    new token once the text has grown by one. *)
Theorem travel_start_and_target word tokens cfg predictions (s : State A) :
  let s' := build tokens cfg predictions s in
  let L := Pipeline.layers cfg in
  let g := actualLogitGap (length tokens) (length predictions) in
  (forall st : State A, columns st = [] \/ outputBars st = [] ->
     animateTokenTravel word st = Ret None) /\
  (predictions = [] -> animateTokenTravel word s' = Ret None) /\
  (tokens = [] -> predictions <> [] -> animateTokenTravel word s' = Throw TypeError) /\
  (tokens <> [] -> predictions <> [] ->
     exists p, animateTokenTravel word s' = Ret (Some p) /\
       progress p = 0 /\ particle_word p = word /\
       particle_x p = startX p /\ particle_y p = startY p /\
       startX p == column_x (L + 2) + 80 /\
       (forall i q, predictions !! i = Some q -> Pipeline.isSampled q = true ->
          (forall j q', (j < i)%nat -> predictions !! j = Some q' ->
             Pipeline.isSampled q' = false) ->
          startY p == row_y g i) /\
       ((forall j q, predictions !! j = Some q -> Pipeline.isSampled q = false) ->
        startY p == row_y g 0) /\
       targetX p == column_x 0 /\ targetY p == row_y ROW_GAP (length tokens) /\
       forall t cfg2 predictions2 (s2 : State A),
       exists col n,
         columns (build (tokens ++ [t]) cfg2 predictions2 s2) !! 0%nat = Some col /\
         col_nodes col !! length tokens = Some n /\
         node_x n == targetX p /\ node_y n == targetY p).
Proof.
  intros s' L g.
  destruct (build_unfold toFixed trim tokens cfg predictions s)
    as (x & news & Hx & _ & _ & Hcols & Hbars & _).
  fold s' L g in Hx, Hcols, Hbars.
  assert (TOP_PADDING + 30 == 80) as HY by (unfold TOP_PADDING; lra).
  split; [|split; [|split]].
  - intros st [E|E]; unfold animateTokenTravel; rewrite E; [reflexivity|].
    destruct (columns st); reflexivity.
  - intros ->. unfold animateTokenTravel. rewrite Hcols, Hbars. reflexivity.
  - intros -> Hne. unfold animateTokenTravel. rewrite Hcols, Hbars.
    destruct predictions as [|p0 rest]; [congruence|]. reflexivity.
  - intros Htok Hpred.
    destruct predictions as [|p0 rest]; [congruence|].
    destruct (exists_last Htok) as (ts & tl & Ets).
    set (preds := p0 :: rest) in *.
    set (f := output_bar (x + (COLUMN_GAP + 10)) (TOP_PADDING + 30) g).
    destruct (find_sampled_bar preds f) as [Hfind Hnone];
      [intros i q; reflexivity|].
    assert (last (imap (token_node (A := A) trim LEFT_PADDING (TOP_PADDING + 30)) tokens)
            = Some (token_node trim LEFT_PADDING (TOP_PADDING + 30) (length ts) tl)) as Hlast.
    { rewrite Ets, imap_app. cbn [imap]. rewrite last_snoc, Nat.add_0_r. reflexivity. }
    assert (length tokens = S (length ts)) as Hlen.
    { rewrite Ets, length_app. simpl. lia. }
    unfold animateTokenTravel. rewrite Hcols, Hbars. fold f.
    cbn [app col_nodes]. rewrite Hlast.
    change (imap f preds) with (f 0%nat p0 :: imap (f ∘ S) rest) at 1. cbv beta iota.
    eexists. split; [reflexivity|]. cbn [progress particle_word particle_x particle_y
                                          startX startY targetX targetY].
    split; [reflexivity|]. split; [reflexivity|].
    split; [reflexivity|]. split; [reflexivity|].
    split; [|split; [|split; [|split; [|split]]]].
    + destruct (List.find bar_isSampled (imap f preds)) as [b|] eqn:Ef.
      * apply find_some in Ef as [Hin _].
        apply list_elem_of_In, list_elem_of_lookup in Hin as [i Hi].
        rewrite list_lookup_imap in Hi.
        destruct (preds !! i) as [q|]; [|discriminate Hi]. injection Hi as <-.
        cbn. rewrite Hx. unfold COLUMN_GAP. lra.
      * cbn. rewrite Hx. unfold COLUMN_GAP. lra.
    + intros i q Hq Hs Hbefore. rewrite (Hfind i q Hq Hs Hbefore).
      cbn. unfold row_y. rewrite HY. reflexivity.
    + intros Hall. rewrite (Hnone Hall). cbn. unfold row_y. rewrite HY. reflexivity.
    + cbn. unfold column_x. change (Qnat 0) with 0. lra.
    + cbn [node_y token_node]. unfold row_y. rewrite Hlen, Qnat_S, HY. ring.
    + intros t cfg2 predictions2 s2.
      destruct (build_unfold toFixed trim (tokens ++ [t]) cfg2 predictions2 s2)
        as (x2 & news2 & _ & _ & _ & Hcols2 & _).
      rewrite Hcols2. eexists _, _. split; [reflexivity|]. cbn [col_nodes].
      split.
      { rewrite list_lookup_imap, lookup_app_r by lia.
        rewrite Nat.sub_diag. reflexivity. }
      cbn [node_x node_y token_node targetX targetY]. split; [reflexivity|].
      rewrite Hlen, Qnat_S. ring.
Qed.

End WithPayload.
End TravelFacts.

(** ** The further properties on the examples *)
Module MoreChecks.
Import Pipeline SamplerSpec Examples MoreExamples Checks.
Open Scope Q_scope.

Lemma recompute_matches_run_witness :
  exists res s',
    run decode unit tokenize_two forward_peaked (Some gpt2)
      "The cat" sliders 0.5%float no_results = (Ret res, s') /\
    lastTokens (snd (recomputePredictions decode sliders 0.25%float s')) = Some (tokens res).
Proof.
  destruct (run decode unit tokenize_two forward_peaked (Some gpt2)
              "The cat" sliders 0.5%float no_results) as [[res|e] s'] eqn:Hrun.
  - exists res, s'. split; [reflexivity|].
    exact (proj1 (proj2 (proj2
             (PipelineFacts.recompute_matches_run decode unit tokenize_two forward_peaked
                (Some gpt2) "The cat" sliders 0.5%float no_results res s'
                sliders 0.25%float Hrun)))).
  - vm_compute in Hrun. discriminate Hrun.
Defined.

Lemma generateMore_appends_sampled_witness :
  exists preds j p s',
    recomputePredictions decode sliders 0.5%float after_run = (Ret (Some preds), s') /\
    generateMore decode sliders 0.5%float after_run
    = (Ret (Some {| newText := currentText after_run ++ word p; topWord := word p |}), s') /\
    preds !! j = Some p /\ isSampled p = true.
Proof.
  destruct (proj2 (PipelineFacts.generateMore_appends_sampled decode)
              sliders 0.5%float after_run 0%nat two_tokens peaked_scores)
    as (preds & j & p & s' & H1 & H2 & H3 & H4 & _);
    [reflexivity|reflexivity|reflexivity|discriminate|simpl; lia|].
  exists preds, j, p, s'. repeat split; assumption.
Defined.

Lemma failed_run_keeps_cache_witness :
  (exists s',
     run decode unit tokenize_fails forward_peaked (Some gpt2)
       "Hello" sliders 0.5%float after_run = (Throw TypeError, s') /\
     getCurrentText s' = "Hello"%string /\
     lastLogits s' = lastLogits after_run /\
     getLastTokens s' = Some two_tokens) /\
  (exists s',
     run decode unit tokenize_one forward_fails (Some gpt2)
       "Hello" sliders 0.5%float after_run = (Throw (Error "Model not loaded"), s') /\
     getCurrentText s' = "Hello"%string /\
     lastLogits s' = lastLogits after_run /\
     getLastTokens s' = Some one_token).
Proof.
  split.
  - destruct (PipelineFacts.failed_run_keeps_cache decode unit tokenize_fails forward_peaked
                (Some gpt2) "Hello" sliders 0.5%float after_run TypeError
                (or_introl eq_refl))
      as (s' & Hrun & Htext & _ & Hl & _ & _ & Hkept & _).
    exists s'. split; [exact Hrun|]. split; [exact Htext|]. split; [exact Hl|].
    rewrite (Hkept TypeError eq_refl). vm_compute. reflexivity.
  - destruct (PipelineFacts.failed_run_keeps_cache decode unit tokenize_one forward_fails
                (Some gpt2) "Hello" sliders 0.5%float after_run (Error "Model not loaded")
                (or_intror (ex_intro _ one_token (ex_intro _ tt (conj eq_refl eq_refl)))))
      as (s' & Hrun & Htext & _ & Hl & _ & _ & _ & Hnew & _).
    exists s'. split; [exact Hrun|]. split; [exact Htext|]. split; [exact Hl|].
    exact (Hnew one_token tt eq_refl).
Defined.

Lemma empty_scores_stay_cached_witness :
  fst (run decode unit tokenize_two forward_nothing (Some gpt2)
         "The cat" sliders 0.5%float no_results) = Throw TypeError /\
  hasResults (snd (run decode unit tokenize_two forward_nothing (Some gpt2)
                     "The cat" sliders 0.5%float no_results)) = true.
Proof.
  destruct (PipelineFacts.empty_scores_stay_cached decode unit tokenize_two forward_nothing
              (Some gpt2) "The cat" sliders 0.5%float no_results two_tokens tt
              eq_refl eq_refl)
    as (H1 & H2 & _).
  split; assumption.
Defined.

Lemma ranking_independent_of_sliders_witness :
  exists p',
    predictions_of decode peaked_scores 1%float 3 0.5%float 0.25%float !! 1%nat = Some p' /\
    tokenId p' = 1%nat.
Proof.
  assert (exists p,
            predictions_of decode peaked_scores 1%float 2 0.75%float 0.5%float !! 1%nat
            = Some p /\ tokenId p = 1%nat) as (p & Hp & Hid).
  { eexists. split; vm_compute; reflexivity. }
  destruct (PipelineFacts.ranking_independent_of_sliders decode
              (float_heap peaked_scores) 0%nat peaked_scores 1%float
              2 3 0.75%float 0.5%float 0.5%float 0.25%float _ _ _ _
              eq_refl
              (SamplerFacts.computePredictions_returns decode
                 (float_heap peaked_scores) 0 peaked_scores 1%float 2 0.75%float 0.5%float
                 eq_refl ltac:(discriminate) ltac:(lia))
              (SamplerFacts.computePredictions_returns decode
                 (float_heap peaked_scores) 0 peaked_scores 1%float 3 0.5%float 0.25%float
                 eq_refl ltac:(discriminate) ltac:(lia))
              ltac:(lia) 1%nat p Hp)
    as (p' & Hp' & Ht & _).
  exists p'. split; [exact Hp'|]. rewrite Ht. exact Hid.
Defined.

Lemma probabilities_are_distributions_witness :
  Qsum (map prob (predictions_of (H := exact) decode exact_scores 1 3 (9 # 10) (1 # 2))) == 1.
Proof.
  exact (proj1 (proj2
           (DistributionFacts.probabilities_are_distributions rational_exp no_rounding decode
              (exact_heap exact_scores) 0%nat exact_scores 1 3 (9 # 10) (1 # 2) _ _
              rational_exp_pos eq_refl
              (SamplerFacts.computePredictions_returns (H := exact) decode
                 (exact_heap exact_scores) 0 exact_scores 1 3 (9 # 10) (1 # 2)
                 eq_refl ltac:(discriminate) ltac:(lia))))).
Defined.

Lemma softmax_is_distribution_witness :
  Qsum (Utils.softmax (H := exact) exact_scores 1) == 1.
Proof.
  apply (proj1 (proj2 (proj2
           (SoftmaxFacts.softmax_is_distribution rational_exp no_rounding exact_scores 1
              rational_exp_pos)))).
  discriminate.
Defined.

Lemma subscription_is_a_set_witness :
  fst (ConfigStore.unsubscribe 7%nat (ConfigStore.onChange 7%nat ConfigStore.initial)) = true /\
  snd (ConfigStore.unsubscribe 7%nat (ConfigStore.onChange 7%nat ConfigStore.initial))
  = ConfigStore.initial.
Proof.
  destruct (ConfigFacts.subscription_is_a_set 7%nat ConfigStore.initial NoDup_nil_2)
    as (_ & _ & _ & _ & _ & H1 & _ & _ & _ & _ & _ & H2).
  split; [exact H1|]. apply H2. apply not_elem_of_nil.
Defined.

Lemma update_agrees_with_rebuild_witness :
  Viz.updatePredictions toFixed resampled built
  = Viz.build toFixed trim two_tokens gpt2 resampled canvas.
Proof.
  exact (LayoutFacts.update_agrees_with_rebuild toFixed trim two_tokens gpt2
           three_predictions resampled canvas eq_refl).
Defined.

Lemma build_fits_canvas_witness :
  3 # 10 <= Viz.zoom built <= 15 # 10.
Proof.
  refine (proj1 (LayoutFacts.build_fits_canvas toFixed trim two_tokens gpt2
                   three_predictions canvas _ _)).
  - vm_compute. discriminate.
  - vm_compute. discriminate.
Defined.

Lemma zoom_buttons_saturate_witness :
  Viz.zoom (Viz.run toFixed trim (repeat Viz.ZoomIn 13) built) == 4.
Proof.
  refine (proj1 (GestureFacts.zoom_buttons_saturate toFixed trim built _)).
  split; vm_compute; discriminate.
Defined.

Lemma resetView_fits_content_witness :
  3 # 10 <= Viz.zoom (Viz.resetView built) <= 15 # 10.
Proof.
  refine (proj1 (proj1 (proj2 (proj2 (ViewFacts.resetView_fits_content built))) _ _ _ _)).
  - discriminate.
  - discriminate.
  - assert (Forall (fun x => 100 <= x <= 1440) (ViewSpec.content_xs built)) as Hb
      by (repeat constructor; vm_compute; discriminate).
    rewrite Forall_forall in Hb. intros x x' Hx Hx'.
    pose proof (Hb x Hx). pose proof (Hb x' Hx').
    change (Viz.clientWidth built) with 800. lra.
  - assert (Forall (fun y => 80 <= y <= 124) (ViewSpec.content_ys built)) as Hb
      by (repeat constructor; vm_compute; discriminate).
    rewrite Forall_forall in Hb. intros y y' Hy Hy'.
    pose proof (Hb y Hy). pose proof (Hb y' Hy').
    change (Viz.clientHeight built) with 600. lra.
Defined.

Lemma click_opens_embedding_witness :
  Viz.handleClick (Viz.handleMouseMove (850 # 9) (2665 # 9) built)
  = Some (Some 464%nat, Some "The"%string).
Proof.
  refine (match proj1 (ViewFacts.click_opens_embedding toFixed trim two_tokens gpt2
                      three_predictions canvas 1%nat _ 0%nat _ (850 # 9) (2665 # 9) _ _
                      eq_refl eq_refl eq_refl eq_refl eq_refl _ _) eq_refl with
          | ex_intro _ t (conj Ht Hclick) => _
          end).
  - vm_compute. reflexivity.
  - vm_compute. reflexivity.
  - injection Ht as <-. exact Hclick.
Defined.

Lemma hover_zone_by_column_witness :
  Viz.hoveredNode (Viz.handleMouseMove 300 100 built) = None /\
  Viz.currentHoverZone (Viz.handleMouseMove 300 100 built)
  = Some (Viz.zone_of Viz.transformer).
Proof.
  assert (Viz.hoveredNode (Viz.handleMouseMove 300 100 built) = None) as Hnone
    by (vm_compute; reflexivity).
  split; [exact Hnone|].
  refine (proj1 (proj2 (proj2 (proj2
            (ZoneFacts.hover_zone_by_column toFixed trim two_tokens gpt2 three_predictions
               canvas 300 100 _ _ eq_refl _ _ eq_refl)) Hnone)) 6%nat _ _ _).
  - discriminate.
  - discriminate.
  - simpl. lia.
  - split; vm_compute; discriminate.
  - right. vm_compute. reflexivity.
Defined.

Lemma travel_path_witness :
  Travel.frames 40 travelling = None /\
  exists p, Travel.frames 39 travelling = Some p /\ Travel.progress p == 39 # 40.
Proof.
  pose proof (TravelFacts.travel_path travelling (Qeq_refl 0)) as (Hrun & Hend & _).
  split; [apply Hend; lia|].
  destruct (Hrun 39%nat ltac:(lia)) as (p & Hp & Hpr & _).
  exists p. split; [exact Hp|]. rewrite Hpr. reflexivity.
Defined.

Lemma travel_start_and_target_witness :
  exists p, Travel.animateTokenTravel " sat" built = Ret (Some p) /\
    Travel.targetX p == 100 /\ Travel.targetY p == 152.
Proof.
  destruct (proj2 (proj2 (proj2
             (TravelFacts.travel_start_and_target toFixed trim " sat" two_tokens gpt2
                three_predictions canvas))))
    as (p & Hp & _ & _ & _ & _ & _ & _ & _ & Hx & Hy & _);
    [discriminate|discriminate|].
  exists p. split; [exact Hp|]. split; [rewrite Hx|rewrite Hy]; reflexivity.
Defined.

End MoreChecks.
